(** * A shallow embedding of the renderer, the component manager and the
      job scheduler

    Sources: [vue3-source-learning/renderer/patch.js], [renderer/quickDiff.js]
    (keyed diff, and the component code that follows it in the same file),
    [component/queueJob.js], [built-in-components/teleport.js] and
    [built-in-components/keepalive.js]; further on, the browser adapter of
    [renderer/renderer.js], [throttle] and [coding/01_deepClone.js].

    JavaScript values are modelled by a small tagged union, objects by
    association lists of their own enumerable properties in insertion order,
    mutable globals and the DOM by an explicit state that every function
    threads, and exceptions by a result type. *)

From stdpp Require Import gmap strings list pretty.


(** ** JavaScript values, objects and completions *)

Module Js.

(** Exceptions the modelled code can raise.  [Thrown n] is an exception raised
    by user code (a job, a [setup] function); the others are raised by the
    language itself. *)
Inductive exn :=
| TypeError (msg : string)
| ReferenceError (msg : string)
| RangeError (msg : string)
| Thrown (tag : nat).

(** The completion of a call: a normal return, an exception, or a run that
    did not finish within the fuel given to the model. *)
Inductive result (A : Type) :=
| Ok (a : A)
| Throw (e : exn)
| Diverge.
Arguments Ok {A} a.
Arguments Throw {A} e.
Arguments Diverge {A}.

(** A completion that is a normal return. *)
Definition is_ok {A} (r : result A) : Prop :=
  match r with
  | Ok _ => True
  | _ => False
  end.

(** The abrupt completion [r], as the completion of the caller it ends. *)
Definition fail_as {A B} (r : result A) : result B :=
  match r with
  | Throw e => Throw e
  | _ => Diverge
  end.

(** Values.  [VRef a] is an object, function or DOM node, compared by
    identity.  [VBuiltin name] is the value that [Object.prototype] holds
    under [name] (the function [Object.prototype.toString], say; under
    [__proto__], what its getter returns for a plain object, which is
    [Object.prototype] itself).  Numbers are integers. *)
Inductive value :=
| VUndefined
| VNull
| VBool (b : bool)
| VNum (n : Z)
| VStr (s : string)
| VRef (a : nat)
| VBuiltin (name : string).

#[global] Instance exn_eq_dec : EqDecision exn.
Proof. solve_decision. Defined.

#[global] Instance value_eq_dec : EqDecision value.
Proof. solve_decision. Defined.

(** [a === b] and [a !== b]. *)
Definition strict_eq (a b : value) : bool := bool_decide (a = b).
Definition strict_neq (a b : value) : bool := negb (strict_eq a b).

(** [String(v)], the conversion applied to a value used as a property name. *)
Definition to_property_key (v : value) : string :=
  match v with
  | VUndefined => "undefined"
  | VNull => "null"
  | VBool true => "true"
  | VBool false => "false"
  | VNum n => pretty n
  | VStr s => s
  | VRef _ => "[object Object]"
  | VBuiltin name =>
      if bool_decide (name = "__proto__") then "[object Object]"
      else if bool_decide (name = "constructor") then "function Object() { [native code] }"
      else "function " +:+ name +:+ "() { [native code] }"
  end.

(** The names of the members of [Object.prototype]; none is enumerable. *)
Definition Object_prototype : list string :=
  ["constructor"; "__defineGetter__"; "__defineSetter__"; "hasOwnProperty";
   "__lookupGetter__"; "__lookupSetter__"; "isPrototypeOf"; "propertyIsEnumerable";
   "toString"; "valueOf"; "__proto__"; "toLocaleString"].

(** A name that every plain object inherits. *)
Definition inherited (k : string) : bool := bool_decide (k ∈ Object_prototype).

(** Plain objects, whose prototype is [Object.prototype]: the own properties,
    all of them enumerable and writable, in insertion order.  [Object.keys]
    and [for ... in] see these; a read and [in] also see the members of
    [Object.prototype].  The model does not follow a change of prototype:
    after [o.__proto__ = v] with an object or [null] for [v], what it says
    of the names that [o] does not own is not what the program sees. *)
Definition obj := list (string * value).

Fixpoint obj_lookup (o : obj) (k : string) : option value :=
  match o with
  | [] => None
  | (k', v) :: o' => if bool_decide (k' = k) then Some v else obj_lookup o' k
  end.

(** What a read of [k] gives on an object that has no own property [k]: the
    member of [Object.prototype], or [undefined]. *)
Definition absent (k : string) : value :=
  if inherited k then VBuiltin k else VUndefined.

(** [o[k]]: the own property, or else what the prototype gives. *)
Definition obj_get (o : obj) (k : string) : value :=
  default (absent k) (obj_lookup o k).

(** [k in o]: an own property, or a member of [Object.prototype]. *)
Definition obj_has (o : obj) (k : string) : bool :=
  bool_decide (is_Some (obj_lookup o k)) || inherited k.

(** The own property [k] set to [v]: overwritten in place, or appended. *)
Fixpoint own_set (o : obj) (k : string) (v : value) : obj :=
  match o with
  | [] => [(k, v)]
  | (k', v') :: o' =>
      if bool_decide (k' = k) then (k', v) :: o' else (k', v') :: own_set o' k v
  end.

(** [o[k] = v].  Under the name [__proto__], on an object that has no own
    property of that name, the assignment calls the setter inherited from
    [Object.prototype], which creates no property. *)
Definition obj_set (o : obj) (k : string) (v : value) : obj :=
  if bool_decide (k = "__proto__") && negb (bool_decide (is_Some (obj_lookup o k)))
  then o else own_set o k v.

(** [delete o[k]]. *)
Fixpoint obj_delete (o : obj) (k : string) : obj :=
  match o with
  | [] => []
  | (k', v') :: o' =>
      if bool_decide (k' = k) then obj_delete o' k else (k', v') :: obj_delete o' k
  end.

(** [Object.keys(o)], also the order of [for (const k in o)]. *)
Definition obj_keys (o : obj) : list string := o.*1.

(** Array indexing [a[i]] with a JavaScript number: out of range, and in
    particular a negative index, reads [undefined], modelled by [None]. *)
Definition index {A : Type} (a : list A) (i : Z) : option A :=
  if (i <? 0)%Z then None else a !! Z.to_nat i.

(** ** State and exception monad *)

Definition M (S A : Type) : Type := S → result A * S.

Definition ret {S A} (a : A) : M S A := λ s, (Ok a, s).
Definition throw {S A} (e : exn) : M S A := λ s, (Throw e, s).
Definition diverge {S A} : M S A := λ s, (Diverge, s).
Definition bind {S A B} (c : M S A) (k : A → M S B) : M S B :=
  λ s, match c s with
       | (Ok a, s') => k a s'
       | (Throw e, s') => (Throw e, s')
       | (Diverge, s') => (Diverge, s')
       end.
Definition get {S} : M S S := λ s, (Ok s, s).
Definition modify {S} (f : S → S) : M S unit := λ s, (Ok tt, f s).

(** [try { c } finally { f }]: [f] runs when [c] returns and when it throws,
    and the completion of [c] is kept; it does not run if [c] never exits. *)
Definition try_finally {S A} (c : M S A) (f : S → S) : M S A :=
  λ s, match c s with
       | (Ok a, s') => (Ok a, f s')
       | (Throw e, s') => (Throw e, f s')
       | (Diverge, s') => (Diverge, s')
       end.

(** [l.forEach(f)] over an array that the callback does not change. *)
Fixpoint forEach {S A} (f : A → M S unit) (l : list A) : M S unit :=
  match l with
  | [] => ret tt
  | x :: l' => bind (f x) (λ _, forEach f l')
  end.

(** The same loop when the callback's result replaces the visited element
    (the callback mutates the object it is given). *)
Fixpoint mapM {S A B} (f : A → M S B) (l : list A) : M S (list B) :=
  match l with
  | [] => ret []
  | x :: l' => bind (f x) (λ y, bind (mapM f l') (λ ys, ret (y :: ys)))
  end.

End Js.

Export Js.

Notation "'let!' x ':=' c 'in' k" := (bind c (λ x, k))
  (at level 10, x name, c at level 100, k at level 200).
Notation "'let!' ' p ':=' c 'in' k" := (bind c (λ x, match x with p => k end))
  (at level 10, p strict pattern, c at level 100, k at level 200).
Notation "c ';;;' k" := (bind c (λ _, k))
  (at level 100, k at level 200, right associativity).

(** ** The job scheduler ([component/queueJob.js]) *)

Module Scheduler.

(** A job is a callback; the scheduler only ever compares jobs by identity,
    so a job is modelled by the identity of its function object. *)
Definition job := nat.

Section WithJobs.

(** The state user code can see and change, other than the scheduler. *)
Context {W : Type}.

(** What calling a job does: it updates the outside state, calls [queueJob]
    on some jobs (a reactive write inside a render does that), then returns
    ([None]) or throws. *)
Variable body : job → W → W * list job * option exn.

(** The module-level state of [queueJob.js]: [queue] (a [Set], kept in
    insertion order), [isFlushing], and the callbacks registered on the
    resolved promise [p] that have not run yet (all of them are the same flush
    closure, so they are counted).  [executed] records the jobs called, in
    order; [world] is the outside state. *)
Record sched := Sched {
  queue : list job;
  isFlushing : bool;
  microtasks : nat;
  executed : list job;
  world : W
}.

Definition init (w : W) : sched :=
  {| queue := []; isFlushing := false; microtasks := 0; executed := []; world := w |}.

(** [queue.add(job)]: a [Set] ignores a value it already holds. *)
Definition set_add (j : job) (q : list job) : list job :=
  if bool_decide (j ∈ q) then q else q ++ [j].

(** [queueJob(job)]. *)
Definition queueJob (j : job) (s : sched) : sched :=
  let s1 := {| queue := set_add j (queue s); isFlushing := isFlushing s;
               microtasks := microtasks s; executed := executed s; world := world s |} in
  if isFlushing s1 then s1
  else {| queue := queue s1; isFlushing := true;
          microtasks := S (microtasks s1); executed := executed s1; world := world s1 |}.

(** [job()] for a queued job. *)
Definition call_job (j : job) : M sched unit :=
  λ s, let '(w', enq, completion) := body j (world s) in
       let s1 := {| queue := queue s; isFlushing := isFlushing s;
                    microtasks := microtasks s;
                    executed := executed s ++ [j]; world := w' |} in
       let s2 := foldl (λ acc k, queueJob k acc) s1 enq in
       match completion with
       | None => (Ok tt, s2)
       | Some e => (Throw e, s2)
       end.

(** [queue.forEach(job => job())].  [Set.prototype.forEach] visits the
    entries in insertion order and also those added during the iteration, so
    the loop is driven by a position into the live set; a callback that keeps
    adding new jobs never lets it end, hence the fuel. *)
Fixpoint queue_forEach (fuel : nat) (i : nat) : M sched unit :=
  λ s, match queue s !! i with
       | None => (Ok tt, s)
       | Some j =>
           match fuel with
           | O => (Diverge, s)
           | S fuel' => (call_job j ;;; queue_forEach fuel' (S i)) s
           end
       end.

(** The [finally] block of the flush. *)
Definition reset (s : sched) : sched :=
  {| queue := []; isFlushing := false; microtasks := microtasks s;
     executed := executed s; world := world s |}.

(** The callback given to [p.then]. *)
Definition flush (fuel : nat) : M sched unit :=
  try_finally (queue_forEach fuel 0) reset.

(** The event loop runs one pending microtask. *)
Definition run_microtask (fuel : nat) : M sched unit :=
  λ s, match microtasks s with
       | O => (Ok tt, s)
       | S n =>
           flush fuel {| queue := queue s; isFlushing := isFlushing s; microtasks := n;
                         executed := executed s; world := world s |}
       end.

(** [s'] is [s] after some calls of [queueJob]: the set only grew at its end,
    the record of executed jobs is the same, and a registered flush stays
    registered. *)
Definition grows (s s' : sched) : Prop :=
  (∃ ext, queue s' = queue s ++ ext) ∧
  (NoDup (queue s) → NoDup (queue s')) ∧
  executed s' = executed s ∧
  (isFlushing s = true → isFlushing s' = true ∧ microtasks s' = microtasks s).

End WithJobs.

Arguments sched W : clear implicits.

(** A batch of two jobs, the first of which throws. *)
Definition first_throws : job → unit → unit * list job * option exn :=
  λ j w, (w, [], if bool_decide (j = 0) then Some (Thrown 7) else None).

Definition two_jobs : sched unit := queueJob 1 (queueJob 0 (init tt)).

End Scheduler.

(** ** Virtual nodes, component instances and the renderer state *)

Module Renderer.

(** A realized platform node (a DOM node). *)
Definition handle := nat.

(** A component options object.  [o_id] is the identity of the object;
    the other fields are the properties the renderer reads: the markers
    [__isTeleport] and [__isKeepAlive], [name], and the keys of the [props]
    option when it is present. *)
Record options := Options {
  o_id : nat;
  o_isTeleport : bool;
  o_isKeepAlive : bool;
  o_name : option string;
  o_props : option (list string)
}.

(** [vnode.type]: a tag name, one of the symbols [Text], [Comment] and
    [Fragment], an options object, or a function (a functional component,
    with the keys of its [props] property). *)
Inductive vtype :=
| TString (tag : string)
| TText
| TComment
| TFragment
| TObject (o : options)
| TFunction (f : nat) (fprops : option (list string)).

(** [a === b] on types: strings by value, symbols, objects and functions by
    identity. *)
Definition same_type (a b : vtype) : bool :=
  match a, b with
  | TString s, TString t => bool_decide (s = t)
  | TText, TText | TComment, TComment | TFragment, TFragment => true
  | TObject o, TObject p => bool_decide (o_id o = o_id p)
  | TFunction f _, TFunction g _ => bool_decide (f = g)
  | _, _ => false
  end.

(** [vnode.children]: absent, a string, or an array of vnodes. *)
Inductive vchildren (V : Type) :=
| NoChildren
| TextChildren (s : string)
| ArrayChildren (l : list V).
Arguments NoChildren {V}.
Arguments TextChildren {V} s.
Arguments ArrayChildren {V} l.

(** A virtual node.  [el], [component], [keptAlive], [shouldKeepAlive] and
    [keepAliveInstance] are the fields the renderer and KeepAlive write on it;
    an instance is referred to by its address in the instance store. *)
#[warnings="-register-all"]
Inductive vnode := VNode {
  type : vtype;
  key : value;
  props : option obj;
  children : vchildren vnode;
  el : option handle;
  component : option nat;
  keptAlive : bool;
  shouldKeepAlive : bool;
  keepAliveInstance : option nat
}.

Definition set_el (e : option handle) (v : vnode) : vnode :=
  VNode (type v) (key v) (props v) (children v) e (component v)
        (keptAlive v) (shouldKeepAlive v) (keepAliveInstance v).
Definition set_children (c : vchildren vnode) (v : vnode) : vnode :=
  VNode (type v) (key v) (props v) c (el v) (component v)
        (keptAlive v) (shouldKeepAlive v) (keepAliveInstance v).
Definition set_component (c : option nat) (v : vnode) : vnode :=
  VNode (type v) (key v) (props v) (children v) (el v) c
        (keptAlive v) (shouldKeepAlive v) (keepAliveInstance v).
Definition set_keptAlive (b : bool) (v : vnode) : vnode :=
  VNode (type v) (key v) (props v) (children v) (el v) (component v)
        b (shouldKeepAlive v) (keepAliveInstance v).
Definition set_shouldKeepAlive (b : bool) (v : vnode) : vnode :=
  VNode (type v) (key v) (props v) (children v) (el v) (component v)
        (keptAlive v) b (keepAliveInstance v).
Definition set_keepAliveInstance (i : option nat) (v : vnode) : vnode :=
  VNode (type v) (key v) (props v) (children v) (el v) (component v)
        (keptAlive v) (shouldKeepAlive v) i.

(** [v] is the vnode [n] after assignments to the fields the patcher and
    KeepAlive write: what the render function put in it is unchanged. *)
Definition same_node (v n : vnode) : Prop :=
  type v = type n ∧ key v = key n ∧ props v = props n.

(** A vnode as a render function builds it: nothing realized yet. *)
Definition createVNode (t : vtype) (k : value) (p : option obj) (c : vchildren vnode) : vnode :=
  VNode t k p c None None false false None.

(** [n2.children !== n1.children]: strings compare by value, two absent
    children are equal, and an array is a distinct object in each vnode. *)
Definition children_differ (a b : vchildren vnode) : bool :=
  match a, b with
  | NoChildren, NoChildren => false
  | TextChildren s, TextChildren t => negb (bool_decide (s = t))
  | _, _ => true
  end.

(** A component instance.  [i_props] is the shallow-reactive props object;
    [i_keepAliveCtx] tells whether [keepAliveCtx] is set; [i_storage] is the
    hidden container of a KeepAlive instance once its [setup] has installed
    [_activate] and [_deActivate]; [i_cache] is the cache of that [setup],
    from the identity of a component type to the cached vnode object. *)
Record instance := Instance {
  i_props : obj;
  i_subTree : option vnode;
  i_isMounted : bool;
  i_mounted : list nat;
  i_keepAliveCtx : bool;
  i_storage : option handle;
  i_cache : gmap nat nat
}.

Definition set_i_props (p : obj) (i : instance) : instance :=
  Instance p (i_subTree i) (i_isMounted i) (i_mounted i)
           (i_keepAliveCtx i) (i_storage i) (i_cache i).
Definition set_i_storage (h : option handle) (i : instance) : instance :=
  Instance (i_props i) (i_subTree i) (i_isMounted i) (i_mounted i)
           (i_keepAliveCtx i) h (i_cache i).
Definition set_i_cache (c : gmap nat nat) (i : instance) : instance :=
  Instance (i_props i) (i_subTree i) (i_isMounted i) (i_mounted i)
           (i_keepAliveCtx i) (i_storage i) c.

(** What the renderer does to the outside: the calls of the injected platform
    primitives with their arguments, [removeChild], and the writes that go
    through the reactive props proxy of an instance (each of them notifies the
    effects that read the props). *)
Inductive event :=
| CreateElement (tag : string) (node : handle)
| CreateText (text : vchildren vnode) (node : handle)
| SetText (node : option handle) (text : vchildren vnode)
| SetElementText (node : option handle) (text : vchildren vnode)
| Insert (node : option handle) (parent : option handle) (anchor : option handle)
| PatchProps (node : option handle) (name : string) (prev next : value)
| RemoveChild (parent node : handle)
| PropsSet (inst : nat) (name : string) (v : value)
| PropsDelete (inst : nat) (name : string).

(** The state the renderer runs in: the platform nodes allocated so far and
    their [parentNode], the record of events, the instance store, the
    [currentInstance] global of the component code, and the vnode objects that
    are held by reference (the values of KeepAlive caches), and the [_vnode]
    property of the containers [render] was called on. *)
Record state := State {
  next_handle : handle;
  parentNode : gmap handle handle;
  log : list event;
  instances : gmap nat instance;
  currentInstance : option nat;
  heap : gmap nat vnode;
  root_vnode : gmap handle vnode
}.

Definition set_log (l : list event) (s : state) : state :=
  State (next_handle s) (parentNode s) l (instances s) (currentInstance s) (heap s)
        (root_vnode s).
Definition set_parentNode (p : gmap handle handle) (s : state) : state :=
  State (next_handle s) p (log s) (instances s) (currentInstance s) (heap s)
        (root_vnode s).
Definition set_instances (i : gmap nat instance) (s : state) : state :=
  State (next_handle s) (parentNode s) (log s) i (currentInstance s) (heap s)
        (root_vnode s).
Definition set_currentInstance (c : option nat) (s : state) : state :=
  State (next_handle s) (parentNode s) (log s) (instances s) c (heap s)
        (root_vnode s).
Definition set_heap (m : gmap nat vnode) (s : state) : state :=
  State (next_handle s) (parentNode s) (log s) (instances s) (currentInstance s) m
        (root_vnode s).
Definition set_root_vnode (m : gmap handle vnode) (s : state) : state :=
  State (next_handle s) (parentNode s) (log s) (instances s) (currentInstance s)
        (heap s) m.

Definition emit (e : event) : M state unit :=
  modify (λ s, set_log (log s ++ [e]) s).

(** *** Exceptions raised by the language on the paths modelled *)

Definition key_of_undefined : exn :=
  TypeError "Cannot read properties of undefined (reading 'key')".
Definition type_of_undefined : exn :=
  TypeError "Cannot read properties of undefined (reading 'type')".
Definition read_of_undefined (what : string) : exn :=
  TypeError ("Cannot read properties of undefined (reading '" +:+ what +:+ "')").
Definition not_a_function (what : string) : exn :=
  TypeError (what +:+ " is not a function").
Definition in_undefined : exn :=
  TypeError "Cannot use 'in' operator to search for a key in undefined".
Definition keys_of_undefined : exn :=
  TypeError "Cannot convert undefined or null to object".
Definition invalid_array_length : exn := RangeError "Invalid array length".
Definition post_not_defined : exn := ReferenceError "post is not defined".
Definition set_of_undefined (what : string) : exn :=
  TypeError ("Cannot set properties of undefined (setting '" +:+ what +:+ "')").
Definition insertBefore_of_null : exn :=
  TypeError "Cannot read properties of null (reading 'insertBefore')".
Definition not_a_node : exn :=
  TypeError "Failed to execute 'insertBefore' on 'Node': parameter 1 is not of type 'Node'.".

(** *** The platform adapter

    The primitives are injected into the renderer; the model records each
    call, hands out fresh nodes, and keeps the [parentNode] of every node,
    which [unmount] reads back. *)

Definition fresh_node : M state handle :=
  λ s, (Ok (next_handle s),
        State (S (next_handle s)) (parentNode s) (log s) (instances s)
              (currentInstance s) (heap s) (root_vnode s)).

Definition createElement (tag : string) : M state handle :=
  let! n := fresh_node in emit (CreateElement tag n) ;;; ret n.

Definition createText (text : vchildren vnode) : M state handle :=
  let! n := fresh_node in emit (CreateText text n) ;;; ret n.

(** [el.nodeValue = text]; the assignment throws when [el] is undefined. *)
Definition setText (node : option handle) (text : vchildren vnode) : M state unit :=
  match node with
  | Some _ => emit (SetText node text)
  | None => throw (set_of_undefined "nodeValue")
  end.

(** [el.textContent = text] detaches every child of [el]; the assignment
    throws when [el] is undefined. *)
Definition setElementText (node : option handle) (text : vchildren vnode) : M state unit :=
  match node with
  | Some p =>
      emit (SetElementText node text) ;;;
      modify (λ s, set_parentNode (filter (λ kv, kv.2 ≠ p) (parentNode s)) s)
  | None => throw (set_of_undefined "textContent")
  end.

(** [parent.insertBefore(el, anchor)]: the call needs a parent, and
    [insertBefore] refuses a first argument that is not a node.  The model
    records the call and the new parent of the node; it takes the anchor, when
    there is one, for a child of the parent, and the node for one that does
    not contain the parent.  (A missing parent is [null] or [undefined]; the
    model has one value for both, and one message.) *)
Definition insert (node parent anchor : option handle) : M state unit :=
  match parent, node with
  | Some p, Some n =>
      emit (Insert node parent anchor) ;;;
      modify (λ s, set_parentNode (<[n := p]> (parentNode s)) s)
  | Some _, None => throw not_a_node
  | None, _ => throw insertBefore_of_null
  end.

(** [patchProps(el, key, prevValue, nextValue)]: the model records the call.
    On an [el] that is undefined the first use of [el] throws: the read of
    [el._vei] for an event prop, the assignment to [el.className] for [class],
    the read of [el.tagName] for [form], or else the test [key in el]. *)
Definition patchProps (node : option handle) (name : string) (prev next : value)
  : M state unit :=
  match node with
  | Some _ => emit (PatchProps node name prev next)
  | None =>
      if String.prefix "on" name then throw (read_of_undefined "_vei")
      else if bool_decide (name = "class"%string) then throw (set_of_undefined "className")
      else if bool_decide (name = "form"%string) then throw (read_of_undefined "tagName")
      else throw in_undefined
  end.

(** [parent.removeChild(el)]. *)
Definition removeChild (parent node : handle) : M state unit :=
  emit (RemoveChild parent node) ;;;
  modify (λ s, set_parentNode (delete node (parentNode s)) s).

(** Reading an instance through a reference. *)
Definition get_instance (what : string) (i : option nat) : M state instance :=
  λ s, match i with
       | Some a =>
           match instances s !! a with
           | Some inst => (Ok inst, s)
           | None => (Throw (read_of_undefined what), s)
           end
       | None => (Throw (read_of_undefined what), s)
       end.

(** [a[i] = x] where [a[i]] was just read: the element is replaced by its
    updated version. *)
Definition array_set {A} (a : list A) (i : Z) (x : A) : list A :=
  if (i <? 0)%Z then a else <[Z.to_nat i := x]> a.

(** Association lists keyed by property names. *)
Fixpoint assoc_lookup {A} (o : list (string * A)) (k : string) : option A :=
  match o with
  | [] => None
  | (k', v) :: o' => if bool_decide (k' = k) then Some v else assoc_lookup o' k
  end.

Fixpoint assoc_set {A} (o : list (string * A)) (k : string) (v : A) : list (string * A) :=
  match o with
  | [] => [(k, v)]
  | (k', v') :: o' =>
      if bool_decide (k' = k) then (k', v) :: o' else (k', v') :: assoc_set o' k v
  end.

(** ** The component code ([renderer/quickDiff.js], after the keyed diff) *)

(** [resolveProps(options, propsData)]: a key of [propsData] goes to the props
    when the [props] option declares it or when it starts with [on], to the
    attrs otherwise.  [key in options] throws when [options] is undefined;
    iterating over an undefined [propsData] visits nothing. *)
Fixpoint resolveProps_loop (options : option (list string)) (propsData : obj)
    (props attrs : obj) : result (obj * obj) :=
  match propsData with
  | [] => Ok (props, attrs)
  | (key, v) :: rest =>
      match options with
      | None => Throw in_undefined
      | Some declared =>
          if bool_decide (key ∈ declared) || inherited key || String.prefix "on" key
          then resolveProps_loop options rest (obj_set props key v) attrs
          else resolveProps_loop options rest props (obj_set attrs key v)
      end
  end.

Definition resolveProps (options : option (list string)) (propsData : option obj)
  : result (obj * obj) :=
  resolveProps_loop options (default [] propsData) [] [].

(** [hasPropsChanged(prevProps, nextProps)]. *)
Definition hasPropsChanged (prevProps nextProps : obj) : bool :=
  let nextKeys := obj_keys nextProps in
  if negb (length nextKeys =? length (obj_keys prevProps)) then true
  else existsb (λ key, strict_neq (obj_get nextProps key) (obj_get prevProps key)) nextKeys.

(** [vnode.type.props], the [props] option of a component vnode. *)
Definition type_props (t : vtype) : option (list string) :=
  match t with
  | TObject o => o_props o
  | TFunction _ fprops => fprops
  | _ => None
  end.

Definition lift {A} (r : result A) : M state A := λ s, (r, s).

(** [props[k] = v] and [delete props[k]] on the reactive props object of
    instance [a]: the object is updated in place in the store. *)
Definition props_set (a : nat) (k : string) (v : value) : M state unit :=
  emit (PropsSet a k v) ;;;
  modify (λ s, set_instances
                 (alter (λ i, set_i_props (obj_set (i_props i) k v) i) a (instances s)) s).

Definition props_delete (a : nat) (k : string) : M state unit :=
  emit (PropsDelete a k) ;;;
  modify (λ s, set_instances
                 (alter (λ i, set_i_props (obj_delete (i_props i) k) i) a (instances s)) s).

(** [patchComponent(n1, n2, anchor)]: the passive update of a child
    component.  The result is [n2] after the assignment to [n2.component]. *)
Definition patchComponent (n1 n2 : vnode) (anchor : option handle) : M state vnode :=
  let n2 := set_component (component n1) n2 in
  let! instance := get_instance "props" (component n1) in
  match component n1, props n1, props n2 with
  | Some a, Some prevProps, Some nextData =>
      if hasPropsChanged prevProps nextData then
        let! '(nextProps, _) := lift (resolveProps (type_props (type n2)) (props n2)) in
        forEach (λ k, props_set a k (obj_get nextProps k)) (obj_keys nextProps) ;;;
        let! s := get in
        let live := default [] (i_props <$> instances s !! a) in
        forEach (λ k, if obj_has nextProps k then ret tt else props_delete a k)
                (obj_keys live) ;;;
        ret n2
      else ret n2
  | _, _, _ => throw keys_of_undefined
  end.

(** The props object after the first loop of [patchComponent], which copies
    every key of [nextProps] into it, and after the second, which deletes the
    keys [nextProps] does not have; and the writes the two loops make through
    the reactive proxy of instance [a]. *)
Definition assign_all (live nextProps : obj) : obj :=
  foldl (λ p k, obj_set p k (obj_get nextProps k)) live (obj_keys nextProps).

Definition delete_missing (live nextProps : obj) : obj :=
  foldl (λ p k, if obj_has nextProps k then p else obj_delete p k) live (obj_keys live).

Definition assign_events (a : nat) (nextProps : obj) : list event :=
  (λ k, PropsSet a k (obj_get nextProps k)) <$> obj_keys nextProps.

Definition delete_events (a : nat) (live nextProps : obj) : list event :=
  PropsDelete a <$> filter (λ k, obj_has nextProps k = false) (obj_keys live).

(** The state after a series of writes to the props of instance [a]. *)
Definition written (s : state) (a : nat) (inst : instance) (p : obj) (evs : list event)
  : state :=
  State (next_handle s) (parentNode s) (log s ++ evs)
        (<[a := set_i_props p inst]> (instances s))
        (currentInstance s) (heap s) (root_vnode s).

(** [setCurrentInstance(instance)]. *)
Definition setCurrentInstance (i : option nat) : M state unit :=
  modify (set_currentInstance i).

(** What [setup] returns: a render function, or an object of state (or
    nothing). *)
Inductive setupResult :=
| SetupRender (f : nat)
| SetupState (o : option obj).

(** The call of [setup] in [mountComponent]:
<<
    setCurrentInstance(instance)
    const setupResult = setup(shallowReadonly(instance.props), setupContext)
    setCurrentInstance(null)
>>
    [setup] is the option of that name of the component, absent or the
    component's own function: any computation over the state, which may throw.
    [instance] is the address of an allocated instance.  These are the three
    statements by themselves: in [mountComponent] they follow the object
    literal that allocates the instance, which throws (see
    [Mounting.mountComponent_setup] for the function from its start). *)
Definition call_setup (setup : option (M state setupResult)) (instance : nat)
  : M state setupResult :=
  setCurrentInstance (Some instance) ;;;
  let! setupResult :=
    match setup with
    | Some run => run
    | None => throw (not_a_function "setup")
    end in
  setCurrentInstance None ;;;
  ret setupResult.

(** A [setup] that throws, and one that returns no state. *)
Definition setup_throws : M state setupResult := throw (Thrown 1).
Definition setup_returns : M state setupResult := ret (SetupState None).

(** ** The tree patcher ([renderer/patch.js]) and the keyed diff
       ([renderer/quickDiff.js]) *)

Section Patcher.

(** [lis(source)], the longest-increasing-subsequence helper the keyed diff
    calls; its definition is not part of the sources. *)
Variable lis : list Z → list Z.

(** Whether the code runs in strict mode (as a module), where the assignment
    to the undeclared [post] in the move branch throws. *)
Variable strict : bool.

(** [document.querySelector]. *)
Variable querySelector : string → option handle.

(** [mountComponent(vnode, container, anchor)]: it runs the component's own
    functions and registers an effect with the reactivity system, so the
    patcher is stated for any behaviour of it on the state.  On the vnode it
    does one thing, [vnode.component = instance]: the result is the address of
    that instance. *)
Variable mountComponent : vnode → option handle → option handle → M state nat.

(** The functions of the patcher call each other; each is written over the
    two it calls back, [patch] and [unmount], and the knot is tied below. *)
Section OpenRecursion.

Variable patch : option vnode → vnode → option handle → option handle → M state vnode.
Variable unmount : vnode → M state unit.

(** *** The keyed diff *)

Section KeyedDiff.

Variable oldChildren : list vnode.
Variable container : option handle.

(** Phase 1, [while (oldVNode.key === newVNode.key)] from the heads.  [olds]
    is the part of [oldChildren] from index [j] on, so that its head is
    [oldChildren[j]]; when either array has no element at [j] the read of
    [.key] throws.  The patched vnode replaces [newChildren[j]]. *)
Fixpoint prefix_loop (olds : list vnode) (j : Z) (newChildren : list vnode)
  : M state (Z * list vnode) :=
  match olds, index newChildren j with
  | oldVNode :: olds', Some newVNode =>
      if strict_eq (key oldVNode) (key newVNode) then
        let! n := patch (Some oldVNode) newVNode container None in
        prefix_loop olds' (j + 1) (array_set newChildren j n)
      else ret (j, newChildren)
  | _, _ => throw key_of_undefined
  end.

(** Phase 2, the same loop from the tails.  [rolds] is [oldChildren] from
    index [oldEnd] down to 0, so that its head is [oldChildren[oldEnd]]. *)
Fixpoint suffix_loop (rolds : list vnode) (oldEnd newEnd : Z) (newChildren : list vnode)
  : M state (Z * Z * list vnode) :=
  match rolds, index newChildren newEnd with
  | oldVNode :: rolds', Some newVNode =>
      if strict_eq (key oldVNode) (key newVNode) then
        let! n := patch (Some oldVNode) newVNode container None in
        suffix_loop rolds' (oldEnd - 1) (newEnd - 1) (array_set newChildren newEnd n)
      else ret (oldEnd, newEnd, newChildren)
  | _, _ => throw key_of_undefined
  end.

(** [i < newChildren.length ? newChildren[i].el : null]. *)
Definition anchor_at (newChildren : list vnode) (i : Z) : M state (option handle) :=
  if (i <? Z.of_nat (length newChildren))%Z then
    match index newChildren i with
    | Some v => ret (el v)
    | None => throw (read_of_undefined "el")
    end
  else ret None.

(** Phase 3, [while (j <= newEnd) patch(null, newChildren[j++], container, anchor)];
    [count] is the number of iterations left. *)
Fixpoint mount_loop (count : nat) (j : Z) (anchor : option handle)
    (newChildren : list vnode) : M state (list vnode) :=
  match count with
  | O => ret newChildren
  | S count' =>
      match index newChildren j with
      | Some newVNode =>
          let! n := patch None newVNode container anchor in
          mount_loop count' (j + 1) anchor (array_set newChildren j n)
      | None => throw type_of_undefined
      end
  end.

(** Phase 4, [while (j <= oldEnd) unmount(oldChildren[j++])]. *)
Fixpoint unmount_loop (count : nat) (j : Z) : M state unit :=
  match count with
  | O => ret tt
  | S count' =>
      match index oldChildren j with
      | Some oldVNode => unmount oldVNode ;;; unmount_loop count' (j + 1)
      | None => throw type_of_undefined
      end
  end.

(** [keyIndex[name] = i] on the plain object [keyIndex]: under the name
    [__proto__] the inherited setter is called, which ignores a number. *)
Definition keyIndex_set (keyIndex : list (string * Z)) (name : string) (i : Z)
  : list (string * Z) :=
  if bool_decide (name = "__proto__"%string) then keyIndex else assoc_set keyIndex name i.

(** [for (let i = newStart; i <= newEnd; i++) keyIndex[newChildren[i].key] = i]:
    the key is converted to a property name. *)
Fixpoint build_keyIndex (count : nat) (i : Z) (newChildren : list vnode)
    (keyIndex : list (string * Z)) : result (list (string * Z)) :=
  match count with
  | O => Ok keyIndex
  | S count' =>
      match index newChildren i with
      | Some v =>
          build_keyIndex count' (i + 1) newChildren
            (keyIndex_set keyIndex (to_property_key (key v)) i)
      | None => Throw key_of_undefined
      end
  end.

(** The variables the walk over the old window updates. *)
Record walk := Walk {
  w_newChildren : list vnode;
  w_source : list Z;
  w_moved : bool;
  w_pos : Z
}.

(** [for (let i = oldStart; i <= oldEnd; i++)]: patch the old node against the
    new node of the same key and note its old index in [source], or unmount
    it.  [k] is a value of [keyIndex], a position of the new window, so the
    write to [source] is in range.  When [keyIndex] has no entry for the key
    but the name is a member of [Object.prototype], [k] is that member, which
    is not [undefined]: [newChildren[k]] is, and [patch] throws on reading its
    type. *)
Fixpoint old_walk (keyIndex : list (string * Z)) (newStart : Z)
    (count : nat) (i : Z) (w : walk) : M state walk :=
  match count with
  | O => ret w
  | S count' =>
      match index oldChildren i with
      | None => throw key_of_undefined
      | Some oldVNode =>
          match assoc_lookup keyIndex (to_property_key (key oldVNode)) with
          | Some k =>
              match index (w_newChildren w) k with
              | None => throw type_of_undefined
              | Some newVNode =>
                  let! n := patch (Some oldVNode) newVNode container None in
                  old_walk keyIndex newStart count' (i + 1)
                    {| w_newChildren := array_set (w_newChildren w) k n;
                       w_source := array_set (w_source w) (k - newStart) i;
                       w_moved := if (k <? w_pos w)%Z then true else w_moved w;
                       w_pos := if (k <? w_pos w)%Z then w_pos w else k |}
              end
          | None =>
              if inherited (to_property_key (key oldVNode)) then throw type_of_undefined
              else
                unmount oldVNode ;;;
                old_walk keyIndex newStart count' (i + 1) w
          end
      end
  end.

(** [for (i; i >= 0; i--)] of the moved case; [count] is [i + 1]. *)
Fixpoint move_loop (source seq : list Z) (newStart : Z)
    (count : nat) (s : Z) (newChildren : list vnode) : M state (list vnode) :=
  match count with
  | O => ret newChildren
  | S count' =>
      let i := Z.of_nat count' in
      let pos := (i + newStart)%Z in
      let nextPos := (pos + 1)%Z in
      if bool_decide (index source i = Some (-1)%Z) then
        match index newChildren pos with
        | None => throw type_of_undefined
        | Some newVNode =>
            let! anchor := anchor_at newChildren nextPos in
            let! n := patch None newVNode container anchor in
            move_loop source seq newStart count' s (array_set newChildren pos n)
        end
      else if negb (bool_decide (index seq s = Some i)) then
        if strict then throw post_not_defined
        else
          let! anchor := anchor_at newChildren nextPos in
          match index newChildren pos with
          | None => throw (read_of_undefined "el")
          | Some newVNode =>
              insert (el newVNode) container anchor ;;;
              move_loop source seq newStart count' s newChildren
          end
      else move_loop source seq newStart count' (s - 1) newChildren
  end.

(** Phases 3 to 5, entered with the window indices left by the two loops. *)
Definition diff_window (j oldEnd newEnd : Z) (newChildren : list vnode)
  : M state (list vnode) :=
  if (oldEnd <? j)%Z && (j <=? newEnd)%Z then
    let anchorIndex := (newEnd + 1)%Z in
    let! anchor := anchor_at newChildren anchorIndex in
    mount_loop (Z.to_nat (newEnd - j + 1)) j anchor newChildren
  else if (newEnd <? j)%Z && (j <=? oldEnd)%Z then
    unmount_loop (Z.to_nat (oldEnd - j + 1)) j ;;; ret newChildren
  else
    let count := (newEnd - j + 1)%Z in
    if (count <? 0)%Z then throw invalid_array_length
    else
      let source := replicate (Z.to_nat count) (-1)%Z in
      let oldStart := j in
      let newStart := j in
      let! keyIndex := lift (build_keyIndex (Z.to_nat count) newStart newChildren []) in
      let! w := old_walk keyIndex newStart (Z.to_nat (oldEnd - oldStart + 1)) oldStart
                  {| w_newChildren := newChildren; w_source := source;
                     w_moved := false; w_pos := 0 |} in
      if w_moved w then
        let seq := lis (w_source w) in
        let s := (Z.of_nat (length seq) - 1)%Z in
        move_loop (w_source w) seq newStart (Z.to_nat count) s (w_newChildren w)
      else ret (w_newChildren w).

(** How the two loops can end without leaving a window: by the read of
    [.key] on an element that is not there, or because the in-place patch of a
    pair did not return. *)
Definition loop_failure {A} (r : result A) : Prop :=
  r = Throw key_of_undefined ∨
  ∃ o n s, o ∈ oldChildren ∧
           ¬ is_ok (patch (Some o) n container None s).1 ∧
           r = fail_as (patch (Some o) n container None s).1.

(** Phases 1 and 2 together: the window [j], [oldEnd], [newEnd] they leave. *)
Definition common_ends (newChildren : list vnode) : M state (Z * Z * Z * list vnode) :=
  let! '(j, newChildren) := prefix_loop oldChildren 0 newChildren in
  let oldEnd := (Z.of_nat (length oldChildren) - 1)%Z in
  let newEnd := (Z.of_nat (length newChildren) - 1)%Z in
  let! '(oldEnd, newEnd, newChildren) :=
    suffix_loop (reverse oldChildren) oldEnd newEnd newChildren in
  ret (j, oldEnd, newEnd, newChildren).

(** The two loops without their test: the in-place patches of the pairs from
    the heads on, and from the tails down, for as long as both arrays have an
    element.  They are what the loops do when every test succeeds. *)
Fixpoint patch_heads (olds : list vnode) (j : Z) (newChildren : list vnode)
  : M state (list vnode) :=
  match olds, index newChildren j with
  | oldVNode :: olds', Some newVNode =>
      let! n := patch (Some oldVNode) newVNode container None in
      patch_heads olds' (j + 1) (array_set newChildren j n)
  | _, _ => ret newChildren
  end.

Fixpoint patch_tails (rolds : list vnode) (newEnd : Z) (newChildren : list vnode)
  : M state (list vnode) :=
  match rolds, index newChildren newEnd with
  | oldVNode :: rolds', Some newVNode =>
      let! n := patch (Some oldVNode) newVNode container None in
      patch_tails rolds' (newEnd - 1) (array_set newChildren newEnd n)
  | _, _ => ret newChildren
  end.

(** The pairs patched in place before the read past the end, for two arrays
    whose keys agree from the heads, or from the tails, until one is
    exhausted.  When they agree from the heads these are the pairs from the
    heads; otherwise phase 1 stops at the first mismatch, and they are the
    pairs it patched and then all the pairs from the tails. *)
Definition pairs_in_place (newChildren : list vnode) : M state (list vnode) :=
  if bool_decide ((key <$> oldChildren) `prefix_of` (key <$> newChildren) ∨
                  (key <$> newChildren) `prefix_of` (key <$> oldChildren))
  then patch_heads oldChildren 0 newChildren
  else
    let! '(_, newChildren1) := prefix_loop oldChildren 0 newChildren in
    patch_tails (reverse oldChildren) (Z.of_nat (length newChildren) - 1) newChildren1.

(** [patchKeyedChildren(n1, n2, container)], on the two arrays of children.
    The result is [n2.children] after the call. *)
Definition patchKeyedChildren (newChildren : list vnode) : M state (list vnode) :=
  let! '(j, oldEnd, newEnd, newChildren) := common_ends newChildren in
  diff_window j oldEnd newEnd newChildren.

End KeyedDiff.


(** *** Unmounting *)

(** [c.forEach(...)] needs an array. *)
Definition children_array (c : vchildren vnode) : M state (list vnode) :=
  match c with
  | ArrayChildren l => ret l
  | TextChildren _ => throw (not_a_function "children.forEach")
  | NoChildren => throw (read_of_undefined "forEach")
  end.

(** [vnode.component.subTree]. *)
Definition component_subTree (vn : vnode) : M state (option vnode) :=
  let! instance := get_instance "subTree" (component vn) in
  ret (i_subTree instance).

(** [vnode.component.subTree.el]. *)
Definition component_el (vn : vnode) : M state (option handle) :=
  let! subTree := component_subTree vn in
  match subTree with
  | Some t => ret (el t)
  | None => throw (read_of_undefined "el")
  end.

(** [keepAliveCtx.move(vnode, container, anchor)], the function that a
    KeepAlive instance's [_activate] and [_deActivate] call. *)
Definition keepAlive_move (vn : vnode) (container anchor : option handle)
  : M state unit :=
  let! node := component_el vn in
  insert node container anchor.

(** [vnode.keepAliveInstance._deActivate(vnode)]. *)
Definition deActivate (vn : vnode) : M state unit :=
  let! ka := get_instance "_deActivate" (keepAliveInstance vn) in
  match i_storage ka with
  | Some storageContainer => keepAlive_move vn (Some storageContainer) None
  | None => throw (not_a_function "_deActivate")
  end.

(** [vnode.keepAliveInstance._activate(vnode, container, anchor)]. *)
Definition activate (vn : vnode) (container anchor : option handle) : M state unit :=
  let! ka := get_instance "_activate" (keepAliveInstance vn) in
  match i_storage ka with
  | Some _ => keepAlive_move vn container anchor
  | None => throw (not_a_function "_activate")
  end.

(** [unmount(vnode)]. *)
Definition unmount_step (vn : vnode) : M state unit :=
  match type vn with
  | TFragment =>
      let! cs := children_array (children vn) in
      forEach unmount cs
  | TObject _ =>
      if shouldKeepAlive vn then deActivate vn
      else
        let! subTree := component_subTree vn in
        match subTree with
        | Some t => unmount t
        | None => throw type_of_undefined
        end
  | _ =>
      match el vn with
      | None => throw (read_of_undefined "parentNode")
      | Some node =>
          let! s := get in
          match parentNode s !! node with
          | Some parent => removeChild parent node
          | None => ret tt
          end
      end
  end.

(** *** Elements *)

(** [mountElement(vnode, container, anchor)] for a vnode whose type is the
    tag [tag]. *)
Definition mountElement (tag : string) (vn : vnode) (container anchor : option handle)
  : M state vnode :=
  let! node := createElement tag in
  let vn := set_el (Some node) vn in
  let! cs :=
    match children vn with
    | TextChildren text => setElementText (Some node) (TextChildren text) ;;; ret (children vn)
    | ArrayChildren l =>
        let! l' := mapM (λ child, patch None child (Some node) None) l in
        ret (ArrayChildren l')
    | NoChildren => ret (children vn)
    end in
  let vn := set_children cs vn in
  match props vn with
  | Some p => forEach (λ key, patchProps (Some node) key VNull (obj_get p key)) (obj_keys p)
  | None => ret tt
  end ;;;
  insert (Some node) container anchor ;;;
  ret vn.

(** [patchChildren(n1, n2, container)]; the result is [n2] after the call. *)
Definition patchChildren (n1 n2 : vnode) (container : option handle) : M state vnode :=
  match children n2 with
  | TextChildren text =>
      match children n1 with
      | ArrayChildren olds => forEach unmount olds
      | _ => ret tt
      end ;;;
      setElementText container (TextChildren text) ;;;
      ret n2
  | ArrayChildren news =>
      match children n1 with
      | ArrayChildren olds =>
          let! news' := patchKeyedChildren olds container news in
          ret (set_children (ArrayChildren news') n2)
      | _ =>
          setElementText container (TextChildren "") ;;;
          let! news' := mapM (λ c, patch None c container None) news in
          ret (set_children (ArrayChildren news') n2)
      end
  | NoChildren =>
      match children n1 with
      | ArrayChildren olds => forEach unmount olds
      | TextChildren _ => setElementText container (TextChildren "")
      | NoChildren => ret tt
      end ;;;
      ret n2
  end.

(** The first loop of [patchElement]: [for (const key in newProps)].  Reading
    [oldProps[key]] throws when [oldProps] is undefined. *)
Definition patch_new_props (node : option handle) (oldProps : option obj) (newProps : obj)
  : M state unit :=
  forEach (λ key,
    match oldProps with
    | None => throw (read_of_undefined key)
    | Some o =>
        if strict_neq (obj_get newProps key) (obj_get o key)
        then patchProps node key (obj_get o key) (obj_get newProps key)
        else ret tt
    end) (obj_keys newProps).

(** The second loop: [for (const key in oldProps)], removing the props that
    the new vnode does not have.  [key in newProps] throws when [newProps] is
    undefined. *)
Definition remove_old_props (node : option handle) (oldProps : obj) (newProps : option obj)
  : M state unit :=
  forEach (λ key,
    match newProps with
    | None => throw in_undefined
    | Some n =>
        if obj_has n key then ret tt
        else patchProps node key (obj_get oldProps key) VNull
    end) (obj_keys oldProps).

(** [patchElement(n1, n2)]. *)
Definition patchElement (n1 n2 : vnode) : M state vnode :=
  let n2 := set_el (el n1) n2 in
  let oldProps := props n1 in
  let newProps := props n2 in
  match newProps with
  | Some n => patch_new_props (el n1) oldProps n
  | None => ret tt
  end ;;;
  match oldProps with
  | Some o => remove_old_props (el n1) o newProps
  | None => ret tt
  end ;;;
  patchChildren n1 n2 (el n1).

(** *** Teleport ([built-in-components/teleport.js]) *)

(** The node a value denotes when it is used as a container. *)
Definition node_of_value (v : value) : option handle :=
  match v with
  | VRef a => Some a
  | _ => None
  end.

(** [typeof to === 'string' ? document.querySelector(to) : to]. *)
Definition resolve_target (to : value) : option handle :=
  match to with
  | VStr selector => querySelector selector
  | _ => node_of_value to
  end.

(** [n.props.to]. *)
Definition props_to (n : vnode) : M state value :=
  match props n with
  | Some p => ret (obj_get p "to")
  | None => throw (read_of_undefined "to")
  end.

(** The [move] function that [patch] hands to [Teleport.process]. *)
Definition move (vn : vnode) (container anchor : option handle) : M state unit :=
  let! node :=
    match component vn with
    | Some _ => component_el vn
    | None => ret (el vn)
    end in
  insert node container anchor.

(** The node that [move] hands to [insert] for the child [c]: the root node
    of the subtree of its component instance, or its own [el] (which may be
    undefined); nothing when the read of [subTree.el] throws. *)
Definition realized (s : state) (c : vnode) : option (option handle) :=
  match component c with
  | Some i =>
      match instances s !! i with
      | Some inst =>
          match i_subTree inst with
          | Some t => Some (el t)
          | None => None
          end
      | None => None
      end
  | None => Some (el c)
  end.

(** The state after [insert(node, target)] for each of [nodes] in turn. *)
Definition relocated (target : handle) (nodes : list handle) (s : state) : state :=
  State (next_handle s)
        (foldl (λ pn n, <[n := target]> pn) (parentNode s) nodes)
        (log s ++ ((λ n, Insert (Some n) (Some target) None) <$> nodes))
        (instances s) (currentInstance s) (heap s) (root_vnode s).

(** [Teleport.process(n1, n2, container, anchor, internals)]; the result is
    [n2] after the call. *)
Definition Teleport_process (n1 : option vnode) (n2 : vnode)
    (container anchor : option handle) : M state vnode :=
  match n1 with
  | None =>
      let! to := props_to n2 in
      let target := resolve_target to in
      let! cs := children_array (children n2) in
      let! cs' := mapM (λ c, patch None c target anchor) cs in
      ret (set_children (ArrayChildren cs') n2)
  | Some n1 =>
      let! n2 := patchChildren n1 n2 container in
      let! to2 := props_to n2 in
      let! to1 := props_to n1 in
      if strict_neq to2 to1 then
        let newTarget := resolve_target to2 in
        let! cs := children_array (children n2) in
        forEach (λ c, move c newTarget None) cs ;;;
        ret n2
      else ret n2
  end.

(** *** [patch(n1, n2, container, anchor)]

    The result is [n2] after the call, with the fields the patcher assigned. *)
Definition patch_step (n1 : option vnode) (n2 : vnode) (container anchor : option handle)
  : M state vnode :=
  let! n1 :=
    match n1 with
    | Some old =>
        if negb (same_type (type old) (type n2))
        then unmount old ;;; ret None
        else ret (Some old)
    | None => ret None
    end in
  match type n2 with
  | TString tag =>
      match n1 with
      | None => mountElement tag n2 container anchor
      | Some n1 => patchElement n1 n2
      end
  | TText =>
      match n1 with
      | None =>
          let! node := createText (children n2) in
          insert (Some node) container None ;;;
          ret (set_el (Some node) n2)
      | Some n1 =>
          (if children_differ (children n2) (children n1)
           then setText (el n1) (children n2) else ret tt) ;;;
          ret (set_el (el n1) n2)
      end
  | TFragment =>
      match n1 with
      | None =>
          let! cs := children_array (children n2) in
          let! cs' := mapM (λ c, patch None c container None) cs in
          ret (set_children (ArrayChildren cs') n2)
      | Some n1 => patchChildren n1 n2 container
      end
  | TObject o =>
      if o_isTeleport o then Teleport_process n1 n2 container anchor
      else
        match n1 with
        | None =>
            if keptAlive n2 then activate n2 container anchor ;;; ret n2
            else
              let! instance := mountComponent n2 container anchor in
              ret (set_component (Some instance) n2)
        | Some n1 => patchComponent n1 n2 anchor
        end
  | TFunction _ _ =>
      match n1 with
      | None =>
          if keptAlive n2 then activate n2 container anchor ;;; ret n2
          else
            let! instance := mountComponent n2 container anchor in
            ret (set_component (Some instance) n2)
      | Some n1 => patchComponent n1 n2 anchor
      end
  | TComment => ret n2
  end.

End OpenRecursion.

(** *** Tying the knot

    Every call of [patch] or [unmount] by one of the functions above uses up
    one unit of fuel. *)

Fixpoint unmount (fuel : nat) (vn : vnode) : M state unit :=
  match fuel with
  | O => diverge
  | S fuel' => unmount_step (unmount fuel') vn
  end.

Fixpoint patch (fuel : nat) (n1 : option vnode) (n2 : vnode)
    (container anchor : option handle) : M state vnode :=
  match fuel with
  | O => diverge
  | S fuel' => patch_step (patch fuel') (unmount fuel') n1 n2 container anchor
  end.

(** [render(vnode, container)] of [createRenderer]; [container._vnode] is kept
    in the state. *)
Definition render (fuel : nat) (vnode : option vnode) (container : handle) : M state unit :=
  let! s := get in
  let old := root_vnode s !! container in
  match vnode with
  | Some v =>
      let! v' := patch fuel old v (Some container) None in
      modify (λ s, set_root_vnode (<[container := v']> (root_vnode s)) s)
  | None =>
      match old with
      | Some o => unmount fuel o
      | None => ret tt
      end ;;;
      modify (λ s, set_root_vnode (delete container (root_vnode s)) s)
  end.

End Patcher.

(** ** KeepAlive ([built-in-components/keepalive.js]) *)

(** Vnode objects held by reference. *)
Definition load (what : string) (r : nat) : M state vnode :=
  λ s, match heap s !! r with
       | Some v => (Ok v, s)
       | None => (Throw (read_of_undefined what), s)
       end.

Definition store (r : nat) (v : vnode) : M state unit :=
  modify (λ s, set_heap (<[r := v]> (heap s)) s).

(** The body of [KeepAlive.setup] up to the [return] of the render function:
    the current instance gets its hidden container, [_deActivate] and
    [_activate], and an empty cache.  The result is the address of the
    KeepAlive instance, which the render function closes over. *)
Definition KeepAlive_setup : M state nat :=
  let! s := get in
  let! instance := get_instance "keepAliveCtx" (currentInstance s) in
  match currentInstance s, i_keepAliveCtx instance with
  | Some a, true =>
      let! storageContainer := createElement "div" in
      modify (λ s, set_instances
                     (alter (λ i, set_i_cache ∅ (set_i_storage (Some storageContainer) i))
                            a (instances s)) s) ;;;
      ret a
  | _, _ => throw (read_of_undefined "move")
  end.

(** [name && ((include && !include.test(name)) || (exclude && exclude.test(name)))]:
    the child is left out of the cache. *)
Definition rejected (include exclude : option (string → bool)) (name : option string)
  : bool :=
  match name with
  | Some n =>
      negb (bool_decide (n = ""%string)) &&
      (match include with Some re => negb (re n) | None => false end ||
       match exclude with Some re => re n | None => false end)
  | None => false
  end.

(** The render function that [KeepAlive.setup] returns, for the KeepAlive
    instance at address [ka] with props [include] and [exclude].  [rawVNode] is
    the address of the vnode object that [slots.default()] returned; the
    function returns that same object. *)
Definition KeepAlive_render (ka : nat) (include exclude : option (string → bool))
    (rawVNode : nat) : M state nat :=
  let! raw := load "type" rawVNode in
  match type raw with
  | TObject o =>
      if rejected include exclude (o_name o) then ret rawVNode
      else
        let! instance := get_instance "cache" (Some ka) in
        match i_cache instance !! o_id o with
        | Some cachedVNode =>
            let! cached := load "component" cachedVNode in
            store rawVNode (set_keptAlive true (set_component (component cached) raw))
        | None =>
            modify (λ s, set_instances
                           (alter (λ i, set_i_cache (<[o_id o := rawVNode]> (i_cache i)) i)
                                  ka (instances s)) s)
        end ;;;
        let! raw := load "shouldKeepAlive" rawVNode in
        store rawVNode (set_keepAliveInstance (Some ka) (set_shouldKeepAlive true raw)) ;;;
        ret rawVNode
  | _ => ret rawVNode
  end.

(** [patch(null, vnode, container, anchor)] on a vnode object held by
    reference: the object is patched in place. *)
Definition patch_object (lis : list Z → list Z) (strict : bool)
    (querySelector : string → option handle)
    (mountComponent : vnode → option handle → option handle → M state nat)
    (fuel : nat) (n1 : option vnode) (n2 : nat) (container anchor : option handle)
  : M state unit :=
  let! v := load "type" n2 in
  let! v' := patch lis strict querySelector mountComponent fuel n1 v container anchor in
  store n2 v'.

(** ** Trees used in the examples *)

Definition li (k : Z) (text : string) : vnode :=
  createVNode (TString "li") (VNum k) None (TextChildren text).

Definition ul (items : list vnode) : vnode :=
  createVNode (TString "ul") VUndefined None (ArrayChildren items).

Definition abc : vnode := ul [li 1 "a"; li 2 "b"; li 3 "c"].
Definition axbyc : vnode := ul [li 1 "a"; li 7 "x"; li 2 "b"; li 8 "y"; li 3 "c"].

(** Values for the parameters of the patcher where an example needs them: a
    [lis] that keeps no position, a document in which no selector matches, and
    a [mountComponent] that mounts nothing. *)
Definition no_lis : list Z → list Z := λ _, [].
Definition no_document : string → option handle := λ _, None.
Definition no_components : vnode → option handle → option handle → M state nat :=
  λ _ _ _, throw (not_a_function "mountComponent").

(** The page before the first render: node 0 is the container. *)
Definition page : state := State 1 ∅ [] ∅ None ∅ ∅.

(** The children of the vnode last rendered into a container. *)
Definition rendered_children (s : state) (container : handle) : list vnode :=
  match root_vnode s !! container with
  | Some v => match children v with ArrayChildren l => l | _ => [] end
  | None => []
  end.

(** A child component with one declared prop, mounted as instance 0. *)
Definition Child : vtype :=
  TObject {| o_id := 7; o_isTeleport := false; o_isKeepAlive := false;
             o_name := Some "Child"; o_props := Some ["title"] |}.

Definition child (title : string) : vnode :=
  createVNode Child VUndefined (Some [("title", VStr title)]) NoChildren.

Definition with_child : state :=
  set_instances {[ 0 := Instance [("title", VStr "a")] None true [] false None ∅ ]} page.

(** A component without a [props] option, given a click handler; instance 0
    is an instance of it whose props hold the handler 1. *)
Definition Plain : vtype :=
  TObject {| o_id := 8; o_isTeleport := false; o_isKeepAlive := false;
             o_name := Some "Plain"; o_props := None |}.

Definition listens (f : nat) : vnode :=
  createVNode Plain VUndefined (Some [("onClick", VRef f)]) NoChildren.

Definition with_listener : state :=
  set_instances {[ 0 := Instance [("onClick", VRef 1)] None true [] false None ∅ ]} page.

(** The Teleport of [teleport.js]: its [render] gives it two children
    without keys, a heading and a paragraph.  [teleport_old] is that vnode once
    mounted, with the children realized as nodes 1 and 2 below the destination
    10; [teleport_new] is the next render, with another destination;
    [teleport_swapped] is a next render with keyed children in another order
    (against [teleport_keyed]). *)
Definition Teleport : vtype :=
  TObject {| o_id := 1; o_isTeleport := true; o_isKeepAlive := false;
             o_name := None; o_props := None |}.

Definition heading : vnode :=
  createVNode (TString "h1") VUndefined None (TextChildren "Title").

Definition paragraph : vnode :=
  createVNode (TString "p") VUndefined None (TextChildren "content").

Definition teleport_old : vnode :=
  createVNode Teleport VUndefined (Some [("to", VRef 10)])
    (ArrayChildren [set_el (Some 1) heading; set_el (Some 2) paragraph]).

Definition teleport_new : vnode :=
  createVNode Teleport VUndefined (Some [("to", VRef 11)])
    (ArrayChildren [heading; paragraph]).

Definition teleport_keyed : vnode :=
  createVNode Teleport VUndefined (Some [("to", VRef 10)])
    (ArrayChildren [set_el (Some 1) (li 1 "a"); set_el (Some 2) (li 2 "b")]).

Definition teleport_swapped : vnode :=
  createVNode Teleport VUndefined (Some [("to", VRef 11)])
    (ArrayChildren [li 2 "b"; li 1 "a"]).

Definition teleport_page : state := State 3 {[ 1 := 10; 2 := 10 ]} [] ∅ None ∅ ∅.

(** A KeepAlive instance (address 0) whose [setup] has run, with hidden
    container 5.  Its cache holds, for the component type [Child], the vnode
    object at address 20, which was mounted as instance 1; the subtree of that
    instance is realized as node 6.  The vnode object at address 21 is what the
    default slot returns on the next render. *)
Definition kept_subTree : vnode := set_el (Some 6) (li 1 "kept").

Definition keepalive_page : state :=
  State 7 {[ 6 := 5 ]} []
        {[ 0 := Instance [] None true [] true (Some 5) {[ 7 := 20 ]};
           1 := Instance [("title", VStr "a")] (Some kept_subTree) true [] false None ∅ ]}
        None
        {[ 20 := set_keepAliveInstance (Some 0)
                   (set_shouldKeepAlive true (set_component (Some 1) (child "a")));
           21 := child "a" ]}
        ∅.

(** A functional component as the child of KeepAlive. *)
Definition functional_child : vnode :=
  createVNode (TFunction 9 None) VUndefined None NoChildren.

Definition functional_page : state :=
  State 7 ∅ [] {[ 0 := Instance [] None true [] true (Some 5) ∅ ]} None
        {[ 21 := functional_child ]} ∅.

End Renderer.
(** ** Further definitions for the job scheduler *)

Module SchedulerStates.
Import Scheduler.

(** The states of the scheduler between two turns of the event loop: idle,
    with an empty set and nothing registered, or waiting for the one flush
    that is registered, with a non-empty set without duplicates. *)
Definition settled {W} (s : sched W) : Prop :=
  (isFlushing s = false ∧ microtasks s = 0 ∧ queue s = []) ∨
  (isFlushing s = true ∧ microtasks s = 1 ∧ queue s ≠ [] ∧ NoDup (queue s)).

(** Jobs that neither call [queueJob] nor throw; job [j] adds [j] to a sum. *)
Definition adds : job → nat → nat * list job * option exn :=
  λ j w, (w + j, [], None).

(** A job, 0, that enqueues job 5 while the flush runs; the others do
    nothing. *)
Definition spawns : job → unit → unit * list job * option exn :=
  λ j w, (w, if bool_decide (j = 0) then [5] else [], None).

End SchedulerStates.

(** ** Further component code ([renderer/quickDiff.js], in [mountComponent]) *)

Module Context.
Import Renderer.

(** Truthiness, as tested by [if (v)]. *)
Definition truthy (v : value) : bool :=
  match v with
  | VUndefined | VNull => false
  | VBool b => b
  | VNum n => negb (n =? 0)%Z
  | VStr s => negb (bool_decide (s = ""%string))
  | VRef _ | VBuiltin _ => true
  end.

Section Emit.

(** [String.prototype.toUpperCase], applied to the first character of the
    event name. *)
Variable toUpperCase : string → string.

(** [`on${event[0].toUpperCase() + event.slice(1)}`]; [event[0]] of an empty
    string is undefined, and the call of [toUpperCase] on it throws. *)
Definition eventName (ev : string) : result string :=
  match ev with
  | EmptyString => Throw (read_of_undefined "toUpperCase")
  | String c rest => Ok ("on" +:+ toUpperCase (String c EmptyString) +:+ rest)
  end.

(** What [emit(event, ...payload)] does with the props of the instance: it
    calls the handler found under the event's prop name (a function, which may
    be a function member of [Object.prototype] passed as handler), or reports
    that the event does not exist. *)
Inductive emitted :=
| CallHandler (handler : nat)
| CallBuiltin (name : string)
| NoHandler.

Definition emit (props : obj) (ev : string) : result emitted :=
  match eventName ev with
  | Ok name =>
      let handler := obj_get props name in
      if truthy handler then
        match handler with
        | VRef f => Ok (CallHandler f)
        | VBuiltin name =>
            if bool_decide (name = "__proto__"%string) then Throw (not_a_function "handler")
            else Ok (CallBuiltin name)
        | _ => Throw (not_a_function "handler")
        end
      else Ok NoHandler
  | Throw e => Throw e
  | Diverge => Diverge
  end.

End Emit.

(** The objects the render context resolves names in: the state ([null]
    without a [data] option), the props of the instance, and the state
    returned by [setup] (absent when [setup] returned a function or nothing). *)
Record context := Context_ {
  c_state : option obj;
  c_props : obj;
  c_setupState : option obj
}.

(** [k in o] for an object that may be null. *)
Definition has (o : option obj) (k : string) : bool :=
  match o with
  | Some o => obj_has o k
  | None => false
  end.

(** What the [get] trap of the render context returns: the slots, a value, or
    undefined after the diagnostic that the name does not exist. *)
Inductive got :=
| Slots
| Value (v : value)
| Missing.

Definition context_get (c : context) (k : string) : got :=
  if bool_decide (k = "$slots"%string) then Slots
  else if has (c_state c) k then Value (obj_get (default [] (c_state c)) k)
  else if obj_has (c_props c) k then Value (obj_get (c_props c) k)
  else if has (c_setupState c) k then Value (obj_get (default [] (c_setupState c)) k)
  else Missing.

(** What the [set] trap prints when it stores nothing. *)
Inductive diagnostic :=
| PropsAreReadonly
| DoesNotExist.

(** The [set] trap, [set(t, k, r, v)].  A [Proxy] calls it with the target,
    the key, the value and the receiver, in that order: what the trap stores,
    its fourth parameter [v], is the receiver (the render context itself), and
    the value assigned arrives in [r], which the trap does not use.  The result
    is the three objects after the call, with the diagnostic the trap prints
    if there is one.  (Under [__proto__] the assignment to an object that does
    not own the name goes to the inherited setter, see [obj_set].) *)
Definition context_set (c : context) (k : string) (r v : value)
  : context * option diagnostic :=
  if has (c_state c) k then
    ({| c_state := Some (obj_set (default [] (c_state c)) k v);
        c_props := c_props c; c_setupState := c_setupState c |}, None)
  else if obj_has (c_props c) k then (c, Some PropsAreReadonly)
  else if has (c_setupState c) k then
    ({| c_state := c_state c; c_props := c_props c;
        c_setupState := Some (obj_set (default [] (c_setupState c)) k v) |}, None)
  else (c, Some DoesNotExist).

(** Whether [resolveProps] files a key under the props. *)
Definition is_prop (declared : list string) (key : string) : bool :=
  bool_decide (key ∈ declared) || inherited key || String.prefix "on" key.

(** The keys of an object that may be null. *)
Definition keys_of (o : option obj) : list string :=
  match o with
  | Some o => obj_keys o
  | None => []
  end.

(** An upper-casing of the ASCII letters, for the examples. *)
Definition upper (s : string) : string :=
  match s with
  | String c rest =>
      let n := Ascii.nat_of_ascii c in
      String (if (97 <=? n) && (n <=? 122) then Ascii.ascii_of_nat (n - 32) else c) rest
  | EmptyString => EmptyString
  end.

(** [onMounted()]: inside [setup] it pushes [fn] onto the hooks of the current
    instance, but the function declares no parameter and no [fn] is in scope,
    so evaluating the argument throws; outside it prints a diagnostic. *)
Definition fn_not_defined : exn := ReferenceError "fn is not defined".

Definition onMounted : M state unit :=
  let! s := get in
  match currentInstance s with
  | Some _ => throw fn_not_defined
  | None => ret tt
  end.

End Context.

(** ** Trees of platform nodes *)

Module Trees.
Import Renderer.

(** [plain d v]: the vnode [v] describes platform nodes only (elements with
    their text or their children, text nodes, fragments of such nodes), nested
    less than [d] deep. *)
Fixpoint plain (d : nat) (v : vnode) : bool :=
  match d with
  | O => false
  | S d' =>
      match type v with
      | TString _ =>
          match children v with
          | ArrayChildren l => forallb (plain d') l
          | _ => true
          end
      | TText => true
      | TFragment =>
          match children v with
          | ArrayChildren l => forallb (plain d') l
          | _ => false
          end
      | _ => false
      end
  end.

(** The events of a mount: nodes are created, filled and inserted. *)
Definition builds (e : event) : bool :=
  match e with
  | CreateElement _ _ | CreateText _ _ | SetElementText _ _ | Insert _ _ _
  | PatchProps _ _ _ _ => true
  | _ => false
  end.

(** A vnode that is realized as one platform node. *)
Definition single (v : vnode) : bool :=
  match type v with
  | TString _ | TText => true
  | _ => false
  end.

(** What a mount leaves of a state apart from the nodes it adds. *)
Definition extends (s s' : state) : Prop :=
  next_handle s ≤ next_handle s' ∧
  (∃ evs, log s' = log s ++ evs ∧ forallb builds evs = true) ∧
  instances s' = instances s ∧ currentInstance s' = currentInstance s ∧
  heap s' = heap s ∧ root_vnode s' = root_vnode s.

(** The nodes below [b] that have a parent below [b] keep it. *)
Definition keeps_below (b : handle) (s s' : state) : Prop :=
  ∀ n p, n < b → p < b → parentNode s !! n = Some p → parentNode s' !! n = Some p.

(** A child of a Teleport once mounted: realized as a new node (not below
    [b]) that is a child of [target]. *)
Definition mounted_under (b target : handle) (s' : state) (ch' ch : vnode) : Prop :=
  same_node ch' ch ∧
  ∃ h, el ch' = Some h ∧ b ≤ h ∧ parentNode s' !! h = Some target.

(** The new children after a keyed diff: at every index the vnode that was
    there, with the fields the patcher assigns. *)
Definition same_nodes (l l' : list vnode) : Prop := Forall2 same_node l l'.

End Trees.

(** ** The renderer copy of [component/queueJob.js] *)

Module QueueJobRenderer.
Import Renderer.

(** [unmount(vnode)] as that copy has it: after the loop over the children of
    a Fragment the function goes on to the removal of [vnode.el]. *)
Fixpoint unmount (fuel : nat) (vn : vnode) : M state unit :=
  match fuel with
  | O => diverge
  | S fuel' =>
      match type vn with
      | TFragment =>
          let! cs := children_array (children vn) in
          forEach (unmount fuel') cs
      | _ => ret tt
      end ;;;
      match el vn with
      | None => throw (read_of_undefined "parentNode")
      | Some node =>
          let! s := get in
          match parentNode s !! node with
          | Some parent => removeChild parent node
          | None => ret tt
          end
      end
  end.

End QueueJobRenderer.
(** ** The browser adapter ([renderer/renderer.js]) *)

Module Platform.
Import Renderer Context.

(** The fake handler that [patchProps] registers for an event prop: the real
    handler, and the time it was bound. *)
Record invoker := Invoker {
  inv_value : value;
  inv_attached : Z
}.

(** What the adapter reads and writes of a DOM element: its tag name, the
    [_vei] map from prop names to invokers, the listeners registered (the
    event name with the prop name whose invoker is the listener; an element
    has at most one invoker per prop name), [className], the DOM properties
    [key in el] sees, and the attributes, each with the value that was passed
    to [setAttribute]. *)
Record element := Element {
  tagName : string;
  vei : gmap string invoker;
  listeners : list (string * string);
  className : value;
  properties : obj;
  attributes : obj
}.

(** [shouldSetAsProps(el, key, value)]. *)
Definition shouldSetAsProps (el : element) (key : string) : bool :=
  if bool_decide (key = "form"%string) && bool_decide (tagName el = "INPUT"%string)
  then false
  else obj_has (properties el) key.

(** [key.slice(2)]. *)
Definition slice2 (key : string) : string :=
  match key with
  | String _ (String _ rest) => rest
  | _ => EmptyString
  end.

(** [el.addEventListener(name, invoker)]: a listener that is already
    registered is not added again. *)
Definition addEventListener (l : list (string * string)) (name key : string)
  : list (string * string) :=
  if bool_decide ((name, key) ∈ l) then l else l ++ [(name, key)].

(** [el.removeEventListener(name, invoker)]. *)
Definition removeEventListener (l : list (string * string)) (name key : string)
  : list (string * string) :=
  filter (λ x, x ≠ (name, key)) l.

Section Adapter.

(** [String.prototype.toLowerCase]. *)
Variable toLowerCase : string → string.

(** The listener that [patchProps] registers for the prop [key]: the invoker
    of that prop, under the event name [key.slice(2).toLowerCase()]. *)
Definition listener (key : string) : string * string := (toLowerCase (slice2 key), key).

(** [patchProps(el, key, prevValue, nextValue)], called when
    [performance.now()] is [now]. *)
Definition patchProps (now : Z) (el : element) (key : string) (prevValue nextValue : value)
  : element :=
  if String.prefix "on" key then
    let name := toLowerCase (slice2 key) in
    match vei el !! key with
    | None =>
        if truthy nextValue then
          Element (tagName el) (<[key := Invoker nextValue now]> (vei el))
                  (addEventListener (listeners el) name key)
                  (className el) (properties el) (attributes el)
        else el
    | Some invoker =>
        if truthy nextValue then
          Element (tagName el) (<[key := Invoker nextValue (inv_attached invoker)]> (vei el))
                  (listeners el) (className el) (properties el) (attributes el)
        else
          Element (tagName el) (vei el) (removeEventListener (listeners el) name key)
                  (className el) (properties el) (attributes el)
    end
  else if bool_decide (key = "class"%string) then
    Element (tagName el) (vei el) (listeners el)
            (if truthy nextValue then nextValue else VStr "")
            (properties el) (attributes el)
  else if shouldSetAsProps el key then
    let assigned :=
      match obj_get (properties el) key with
      | VBool _ => if strict_eq nextValue (VStr "") then VBool true else nextValue
      | _ => nextValue
      end in
    Element (tagName el) (vei el) (listeners el) (className el)
            (obj_set (properties el) key assigned) (attributes el)
  else
    Element (tagName el) (vei el) (listeners el) (className el) (properties el)
            (own_set (attributes el) key nextValue).

(** A series of calls, each with its clock reading. *)
Definition patchProps_all (el : element) (calls : list (Z * string * value * value))
  : element :=
  foldl (λ el c, patchProps c.1.1.1 el c.1.1.2 c.1.2 c.2) el calls.

End Adapter.

(** An element with nothing set, and a lower-casing that leaves its argument
    alone, for the examples. *)
Definition blank (tag : string) : element := Element tag ∅ [] (VStr "") [] [].
Definition as_is : string → string := λ s, s.

End Platform.

(** ** [throttle] ([renderer/patch.js], second part) *)

Module Throttle.

(** One call of the function that [throttle(fn, delay)] returns, when
    [Date.now()] is [now]: the new [lastTime], and whether [fn] is applied. *)
Definition call (delay lastTime now : Z) : Z * bool :=
  if (delay <=? now - lastTime)%Z then (now, true) else (lastTime, false).

(** The clock readings at which [fn] is applied when the function is called
    at each of [nows] in turn. *)
Fixpoint applied (delay lastTime : Z) (nows : list Z) : list Z :=
  match nows with
  | [] => []
  | now :: rest =>
      let '(lastTime', go) := call delay lastTime now in
      if go then now :: applied delay lastTime' rest
      else applied delay lastTime' rest
  end.

(** [throttle(fn, delay)]: [lastTime] starts at 0. *)
Definition throttle (delay : Z) (nows : list Z) : list Z := applied delay 0 nows.

End Throttle.
(** ** [deepClone] ([coding/01_deepClone.js]) *)

Module DeepClone.

(** A value: a reference to an object, or anything else ([typeof] is not
    ['object'], or the value is [null]), which [deepClone] returns as it is:
    a primitive or a function ([VRef] stands for a function here, [VBuiltin]
    for a function member of [Object.prototype]). *)
Inductive val :=
| Other (v : value)
| Object (a : nat).

(** What [Other] may carry: anything but [Object.prototype] itself, which is
    an object. *)
Definition not_an_object (v : value) : bool :=
  negb (bool_decide (v = VBuiltin "__proto__")).

(** The prototype of an object: none, [Object.prototype], a function, or an
    object of the store.  A function inherits from [Object.prototype]. *)
Inductive prototype :=
| Null
| ObjectPrototype
| FunctionProto (f : value)
| Proto (a : nat).

(** An object that is not an array: its prototype and its own properties, in
    the order of [Reflect.ownKeys]; every property is a writable data
    property.  (The array branch of [deepClone], which starts from [[]], is
    not covered.) *)
Record object := Obj {
  proto : prototype;
  fields : list (string * val)
}.

(** The objects allocated so far, the next free address, and the [WeakMap]
    that the recursion passes along. *)
Record store := Store {
  objects : gmap nat object;
  next : nat;
  weakMap : gmap nat nat
}.

(** A reference to no object; no run started from a closed graph meets one. *)
Definition dangling : exn := TypeError "Cannot convert undefined or null to object".

(** What the setter of [__proto__] throws when the new prototype would have
    the object among its own prototypes. *)
Definition cyclic_proto : exn := TypeError "Cyclic __proto__ value".

Fixpoint field_lookup (l : list (string * val)) (k : string) : option val :=
  match l with
  | [] => None
  | (k', v) :: l' => if bool_decide (k' = k) then Some v else field_lookup l' k
  end.

(** [o[k] = v]: overwrite in place, or append a new property. *)
Fixpoint field_set (l : list (string * val)) (k : string) (v : val) : list (string * val) :=
  match l with
  | [] => [(k, v)]
  | (k', v') :: l' =>
      if bool_decide (k' = k) then (k', v) :: l' else (k', v') :: field_set l' k v
  end.

(** [Object.create(proto)]. *)
Definition create (p : prototype) : M store nat :=
  λ st, (Ok (next st),
         Store (<[next st := Obj p []]> (objects st)) (S (next st)) (weakMap st)).

(** [weakMap.set(target, result)]. *)
Definition weakMap_set (a r : nat) : M store unit :=
  modify (λ st, Store (objects st) (next st) (<[a := r]> (weakMap st))).

(** [target[key]]. *)
Definition read (a : nat) (key : string) : M store val :=
  λ st, match objects st !! a with
        | Some o => (Ok (default (Other VUndefined) (field_lookup (fields o) key)), st)
        | None => (Throw dangling, st)
        end.

(** Whether an assignment under [__proto__] to an object with prototype [p]
    that does not own the name finds the setter of [Object.prototype]: it does
    unless the chain ends before, or an object on the way owns the name (the
    assignment then creates an own property).  The chain has fewer objects
    than the store; [fuel] is that bound. *)
Fixpoint inherits_setter (objs : gmap nat object) (fuel : nat) (p : prototype) : bool :=
  match p with
  | Null => false
  | ObjectPrototype | FunctionProto _ => true
  | Proto a =>
      match fuel, objs !! a with
      | S fuel', Some o =>
          if bool_decide (is_Some (field_lookup (fields o) "__proto__")) then false
          else inherits_setter objs fuel' (proto o)
      | _, _ => false
      end
  end.

(** The prototype that the setter installs for a value: none for a value that
    is neither an object nor [null], which the setter ignores. *)
Definition as_prototype (v : val) : option prototype :=
  match v with
  | Object b => Some (Proto b)
  | Other VNull => Some Null
  | Other (VRef f) => Some (FunctionProto (VRef f))
  | Other (VBuiltin name) =>
      Some (if bool_decide (name = "__proto__"%string) then ObjectPrototype
            else FunctionProto (VBuiltin name))
  | Other _ => None
  end.

(** Whether the object [r] is [p] or one of the prototypes of [p]. *)
Fixpoint reaches (objs : gmap nat object) (fuel : nat) (p : prototype) (r : nat) : bool :=
  match p with
  | Proto a =>
      bool_decide (a = r) ||
      match fuel, objs !! a with
      | S fuel', Some o => reaches objs fuel' (proto o) r
      | _, _ => false
      end
  | _ => false
  end.

(** Whether [result[key] = v] goes to the inherited setter. *)
Definition calls_setter (st : store) (r : nat) (key : string) : bool :=
  match objects st !! r with
  | Some o =>
      bool_decide (key = "__proto__"%string) &&
      negb (bool_decide (is_Some (field_lookup (fields o) key))) &&
      inherits_setter (objects st) (next st) (proto o)
  | None => false
  end.

(** [result[key] = v]: an own property is set or created, except under
    [__proto__] when the setter of [Object.prototype] is inherited: the setter
    replaces the prototype of [result] by [v] if [v] is an object or [null]
    (and throws if [result] is among the prototypes of [v]), and does nothing
    otherwise. *)
Definition write (r : nat) (key : string) (v : val) : M store unit :=
  λ st,
    if calls_setter st r key then
      match as_prototype v with
      | Some p =>
          if reaches (objects st) (next st) p r then (Throw cyclic_proto, st)
          else (Ok tt, Store (alter (λ o, Obj p (fields o)) r (objects st))
                             (next st) (weakMap st))
      | None => (Ok tt, st)
      end
    else
      (Ok tt, Store (alter (λ o, Obj (proto o) (field_set (fields o) key v)) r (objects st))
                    (next st) (weakMap st)).

(** The callback of the loop over the keys:
    [result[key] = deepClone(target[key], weakMap)]. *)
Definition copy_field (clone : val → M store val) (a r : nat) (key : string)
  : M store unit :=
  let! v := read a key in
  let! c := clone v in
  write r key c.

(** [deepClone(target, weakMap)]; one unit of fuel for each nested call. *)
Fixpoint deepClone (fuel : nat) (target : val) : M store val :=
  match fuel with
  | O => diverge
  | S fuel' =>
      match target with
      | Other _ => ret target
      | Object a =>
          let! st := get in
          match weakMap st !! a with
          | Some r => ret (Object r)
          | None =>
              match objects st !! a with
              | None => throw dangling
              | Some o =>
                  let! r := create (proto o) in
                  weakMap_set a r ;;;
                  forEach (copy_field (deepClone fuel') a r) (fields o).*1 ;;;
                  ret (Object r)
              end
          end
      end
  end.

(** The graphs [deepClone] is given: every reference held in a property leads
    to an object of the graph, no object has a key twice, and every address is
    below [n]; [plain_keys] are those without an own property [__proto__]. *)
Definition refers_inside (h : gmap nat object) (v : val) : bool :=
  match v with
  | Object x => bool_decide (is_Some (h !! x))
  | Other p => not_an_object p
  end.

Definition closed (h : gmap nat object) : bool :=
  forallb (λ ao, forallb (λ f, refers_inside h f.2) (fields ao.2)) (map_to_list h).

Definition well_keyed (h : gmap nat object) : bool :=
  forallb (λ ao, bool_decide (NoDup (fields ao.2).*1)) (map_to_list h).

Definition below (n : nat) (h : gmap nat object) : bool :=
  forallb (λ ao, ao.1 <? n) (map_to_list h).

Definition plain_keys (h : gmap nat object) : bool :=
  forallb (λ ao, negb (bool_decide ("__proto__"%string ∈ (fields ao.2).*1))) (map_to_list h).

(** [v'] is [v] with every reference replaced by the copy that [m] records
    for it. *)
Definition renamed (m : gmap nat nat) (v v' : val) : Prop :=
  match v, v' with
  | Other p, Other q => p = q
  | Object a, Object b => m !! a = Some b
  | _, _ => False
  end.

Definition field_renamed (m : gmap nat nat) (f f' : string * val) : Prop :=
  f'.1 = f.1 ∧ renamed m f.2 f'.2.

(** [o'] is the copy of [o]: the same prototype, the same keys in the same
    order, and each value the copy of the original's. *)
Definition cloned (m : gmap nat nat) (o o' : object) : Prop :=
  proto o' = proto o ∧ Forall2 (field_renamed m) (fields o) (fields o').

(** What holds between two calls: the objects of the graph [h] are as they
    were, and the [WeakMap] sends objects of the graph to distinct objects
    allocated since. *)
Definition inv (h : gmap nat object) (n : nat) (st : store) : Prop :=
  (∀ a o, h !! a = Some o → objects st !! a = Some o) ∧
  n ≤ next st ∧
  (∀ a b, weakMap st !! a = Some b → is_Some (h !! a) ∧ n ≤ b < next st) ∧
  (∀ a a' b, weakMap st !! a = Some b → weakMap st !! a' = Some b → a = a').

(** What a call leaves of the state it started in. *)
Definition frame (st st' : store) : Prop :=
  weakMap st ⊆ weakMap st' ∧ next st ≤ next st' ∧
  ∀ b, b < next st → objects st' !! b = objects st !! b.

(** The copies made since [st0] are complete. *)
Definition fresh_clones (h : gmap nat object) (st0 st : store) : Prop :=
  ∀ a b, weakMap st !! a = Some b → weakMap st0 !! a = None →
         next st0 ≤ b ∧
         ∃ o o', h !! a = Some o ∧ objects st !! b = Some o' ∧ cloned (weakMap st) o o'.

(** An object that refers to itself, with a counter. *)
Definition knot : gmap nat object :=
  {[ 0 := Obj ObjectPrototype [("self", Object 0); ("count", Other (VNum 1))] ]}.

(** An object without prototype that owns a property [__proto__], and a plain
    object that does (a computed key in a literal gives one). *)
Definition bare : gmap nat object :=
  {[ 0 := Obj Null [("__proto__", Other VNull)] ]}.

Definition shadowing : gmap nat object :=
  {[ 0 := Obj ObjectPrototype [("__proto__", Other VNull); ("x", Other (VNum 1))] ]}.

End DeepClone.
(** ** The start of [mountComponent] ([renderer/quickDiff.js]) *)

Module Mounting.
Import Renderer.

(** The object literal that builds the instance mentions [slots], a [const]
    that the function declares only further down: evaluating it throws. *)
Definition slots_before_initialization : exn :=
  ReferenceError "Cannot access 'slots' before initialization".

(** [mountComponent(vnode, container, anchor)].  [beforeCreate] and [data] are
    the options of those names, absent for a functional component: the
    component's own functions, any computation over the state.  [rest] stands
    for the statements that follow the object literal, which are given the
    instance and the attrs. *)
Definition mountComponent {A} (beforeCreate : option (M state unit))
    (data : option (M state obj)) (vn : vnode)
    (rest : nat → obj → M state A) : M state A :=
  match beforeCreate with
  | Some hook => hook
  | None => ret tt
  end ;;;
  let! reactive_state :=
    match data with
    | Some d => let! o := d in ret (Some o)
    | None => ret None
    end in
  let! '(props, attrs) := lift (resolveProps (type_props (type vn)) (props vn)) in
  let! instance := (throw slots_before_initialization : M state nat) in
  rest instance attrs.

(** [mountComponent] with, of the statements that follow the object literal,
    the call of [setup]. *)
Definition mountComponent_setup (beforeCreate : option (M state unit))
    (data : option (M state obj)) (setup : option (M state setupResult)) (vn : vnode)
  : M state setupResult :=
  mountComponent beforeCreate data vn (λ instance _, call_setup setup instance).

(** A [rest] that does nothing more than return the instance, for the
    examples. *)
Definition links : nat → obj → M state nat := λ instance _, ret instance.

End Mounting.
(** * Properties *)

(** ** The job scheduler *)

Module SchedulerFacts.
Import Scheduler.

Section WithJobs.
Context {W : Type} (body : job → W → W * list job * option exn).

Local Abbreviation sched := (sched W).
Local Abbreviation call_job := (call_job body).
Local Abbreviation queue_forEach := (queue_forEach body).
Local Abbreviation flush := (flush body).
Local Abbreviation run_microtask := (run_microtask body).

Lemma grows_refl (s : sched) : grows s s.
Proof. repeat split; auto. exists []. by rewrite app_nil_r. Qed.

Lemma grows_trans (s1 s2 s3 : sched) : grows s1 s2 → grows s2 s3 → grows s1 s3.
Proof.
  intros ([e1 H1] & N1 & X1 & F1) ([e2 H2] & N2 & X2 & F2).
  split; [exists (e1 ++ e2); by rewrite H2, H1, app_assoc|].
  split; [auto|]. split; [congruence|].
  intros Hf. destruct (F1 Hf) as [Ha Hb]. destruct (F2 Ha) as [Hc Hd].
  split; congruence.
Qed.

Lemma set_add_ext j q : ∃ ext, set_add j q = q ++ ext.
Proof.
  unfold set_add. case_bool_decide; [exists [] | exists [j]]; by rewrite ?app_nil_r.
Qed.

Lemma set_add_NoDup j q : NoDup q → NoDup (set_add j q).
Proof.
  unfold set_add. intros Hq. case_bool_decide; [done|].
  apply NoDup_app. repeat split; [done| |apply NoDup_singleton].
  intros x Hx ->%list_elem_of_singleton. done.
Qed.

Lemma queueJob_grows j (s : sched) : grows s (queueJob j s).
Proof.
  unfold grows, queueJob; simpl.
  destruct (isFlushing s) eqn:E; simpl;
    (split; [apply set_add_ext | split; [apply set_add_NoDup | split; [done|]]]);
    intros; done.
Qed.

Lemma foldl_queueJob_grows enq (s : sched) : grows s (foldl (λ acc k, queueJob k acc) s enq).
Proof.
  revert s. induction enq as [|k enq IH]; intros s; simpl; [apply grows_refl|].
  eapply grows_trans; [apply queueJob_grows | apply IH].
Qed.

(** One call of a job: its identity is appended to the record of executed
    jobs, and the set only grows. *)
Lemma call_job_spec j s r s' :
  call_job j s = (r, s') →
  (∃ ext, queue s' = queue s ++ ext) ∧
  (NoDup (queue s) → NoDup (queue s')) ∧
  executed s' = executed s ++ [j] ∧
  (r = Ok tt ∨ ∃ e, r = Throw e ∧ (body j (world s)).2 = Some e) ∧
  (isFlushing s = true → isFlushing s' = true ∧ microtasks s' = microtasks s).
Proof.
  unfold Scheduler.call_job. destruct (body j (world s)) as [[w' enq] completion].
  set (s1 := Sched _ _ _ _ _).
  pose proof (foldl_queueJob_grows enq s1) as (Hq & Hn & Hx & Hf).
  intros Hr. assert (s' = foldl (λ acc k, queueJob k acc) s1 enq) as ->
    by (destruct completion; congruence).
  repeat split; try done; try (by apply Hf).
  destruct completion; injection Hr as <-; eauto.
Qed.

(** The loop over the live set: it calls exactly the entries from position
    [i] up to where it stops, each once, in order. *)
Lemma queue_forEach_spec fuel : ∀ i s r s',
  queue_forEach fuel i s = (r, s') →
  ∃ ext n,
    queue s' = queue s ++ ext ∧
    (NoDup (queue s) → NoDup (queue s')) ∧
    executed s' = executed s ++ take n (drop i (queue s')) ∧
    i + n ≤ length (queue s') `max` i ∧
    (r = Ok tt → length (queue s') ≤ i + n) ∧
    (∀ e, r = Throw e →
       ∃ m j w, n = S m ∧ queue s' !! (i + m) = Some j ∧ (body j w).2 = Some e) ∧
    (0 < fuel → i < length (queue s) → 0 < n) ∧
    (isFlushing s = true → isFlushing s' = true ∧ microtasks s' = microtasks s).
Proof.
  induction fuel as [|fuel IH]; intros i s r s'; simpl.
  - destruct (queue s !! i) as [j|] eqn:Hj; intros [= <- <-];
      exists [], 0; rewrite app_nil_r, take_0, app_nil_r;
      [apply lookup_lt_Some in Hj | apply lookup_ge_None in Hj];
      split_and!; auto; try discriminate; lia.
  - destruct (queue s !! i) as [j|] eqn:Hj.
    + unfold bind. destruct (call_job j s) as [r1 s1] eqn:Hc.
      apply call_job_spec in Hc as ([e1 Hq1] & Hn1 & Hx1 & Hr1 & Hf1).
      set (w0 := world s) in Hr1.
      assert (Hlt : i < length (queue s)) by (by eapply lookup_lt_Some).
      assert (Hj1 : queue s1 !! i = Some j)
        by (rewrite Hq1; by apply lookup_app_l_Some).
      destruct r1 as [[]|e|].
      * intros Hrec. apply IH in Hrec
          as (e2 & n & Hq2 & Hn2 & Hx2 & Hle & Hok & Hth & _ & Hf2).
        exists (e1 ++ e2), (S n).
        assert (Hj2 : queue s' !! i = Some j)
          by (rewrite Hq2; by apply lookup_app_l_Some).
        split_and!.
        -- by rewrite Hq2, Hq1, app_assoc.
        -- auto.
        -- rewrite Hx2, Hx1, <- app_assoc. f_equal.
           rewrite (drop_S _ j i Hj2). done.
        -- apply lookup_lt_Some in Hj2. lia.
        -- intros Hr. specialize (Hok Hr). lia.
        -- intros e Hr. destruct (Hth e Hr) as (m & j' & w & -> & Hm & Hb).
           exists (S m), j', w. split_and!; auto.
           by replace (i + S m) with (S i + m) by lia.
        -- intros; lia.
        -- intros Hf. destruct (Hf1 Hf) as [Ha Hb].
           destruct (Hf2 Ha) as [Hc Hd]. split; congruence.
      * intros [= <- <-]. exists e1, 1.
        apply lookup_lt_Some in Hj1 as Hlt1.
        split_and!; auto; try lia; try discriminate.
        -- rewrite Hx1. f_equal. rewrite (drop_S _ j i Hj1). simpl. by rewrite take_0.
        -- intros e' [= <-]. destruct Hr1 as [?|(e' & [= <-] & Hb)]; [done|].
           exists 0, j, w0. by rewrite Nat.add_0_r.
      * destruct Hr1 as [?|(? & ? & ?)]; discriminate.
    + intros [= <- <-]. apply lookup_ge_None in Hj.
      exists [], 0. rewrite app_nil_r, take_0, app_nil_r.
      split_and!; auto; try discriminate; lia.
Qed.

(** A flush whose jobs do not call [queueJob] ends within as many steps as
    there are queued jobs: the model's fuel is then never the reason for the
    completion. *)
Lemma queue_forEach_terminates fuel : ∀ i s,
  (∀ j w, (body j w).1.2 = []) →
  length (queue s) ≤ i + fuel →
  (queue_forEach fuel i s).1 ≠ Diverge.
Proof.
  induction fuel as [|fuel IH]; intros i s Hb Hlen; simpl.
  - rewrite (proj2 (lookup_ge_None _ _)) by lia. done.
  - destruct (queue s !! i) as [j|] eqn:Hj; [|done].
    unfold bind, Scheduler.call_job.
    specialize (Hb j (world s)) as Hbj.
    destruct (body j (world s)) as [[w' enq] c]; simpl in Hbj; subst enq; simpl.
    destruct c; [done|]. apply IH; [done|simpl; lia].
Qed.

(** The flush callback: the loop, then the [finally] block on every exit. *)
Lemma flush_spec fuel s r s' :
  flush fuel s = (r, s') →
  ∃ s1, queue_forEach fuel 0 s = (r, s1) ∧
        executed s' = executed s1 ∧ world s' = world s1 ∧
        microtasks s' = microtasks s1 ∧
        (r ≠ Diverge → queue s' = [] ∧ isFlushing s' = false).
Proof.
  unfold Scheduler.flush, try_finally.
  destruct (queue_forEach fuel 0 s) as [[a|e|] s1]; intros [= <- <-];
    exists s1; split_and!; try done.
Qed.

(** The calls of [queueJob] that a job makes leave the outside state alone. *)
Lemma foldl_queueJob_world enq (s : sched) :
  world (foldl (λ acc k, queueJob k acc) s enq) = world s.
Proof.
  revert s. induction enq as [|k enq IH]; intros s; simpl; [done|].
  rewrite IH. unfold queueJob. by destruct (isFlushing s).
Qed.

(** The outside state after the loop is the one the jobs called have made,
    one after the other. *)
Lemma queue_forEach_world fuel : ∀ i s,
  ∃ js, executed (queue_forEach fuel i s).2 = executed s ++ js ∧
        world (queue_forEach fuel i s).2 = foldl (λ w k, (body k w).1.1) (world s) js.
Proof.
  induction fuel as [|fuel IH]; intros i s; simpl.
  - exists []. rewrite app_nil_r. by destruct (queue s !! i).
  - destruct (queue s !! i) as [j|]; [|exists []; by rewrite app_nil_r].
    unfold bind.
    assert (Hcall : ∃ s1, (call_job j s).2 = s1 ∧ executed s1 = executed s ++ [j] ∧
                          world s1 = (body j (world s)).1.1).
    { unfold Scheduler.call_job. destruct (body j (world s)) as [[w' enq] c] eqn:Hb.
      eexists. split; [reflexivity|].
      pose proof (foldl_queueJob_grows enq
                    (Sched (queue s) (isFlushing s) (microtasks s) (executed s ++ [j]) w'))
        as (_ & _ & Hx & _).
      destruct c; simpl; by rewrite Hx, foldl_queueJob_world. }
    destruct Hcall as (s1 & Hs1 & Hx1 & Hw1).
    destruct (call_job j s) as [[[]|e|] s1'] eqn:Hc; simpl in Hs1; subst s1'.
    + destruct (IH (S i) s1) as (js & Hx & Hw).
      exists (j :: js). rewrite Hx, Hw, Hx1, Hw1, <- app_assoc. done.
    + exists [j]. simpl. by rewrite Hx1, Hw1.
    + exists [j]. simpl. by rewrite Hx1, Hw1.
Qed.

Lemma queueJob_twice (j : job) (s : sched) : queueJob j (queueJob j s) = queueJob j s.
Proof.
  assert (Hadd : ∀ q, set_add j (set_add j q) = set_add j q).
  { intros q. unfold set_add. destruct (decide (j ∈ q)) as [Hin|Hin].
    - by rewrite !(bool_decide_eq_true_2 (j ∈ q)).
    - rewrite (bool_decide_eq_false_2 (j ∈ q)) by done.
      rewrite bool_decide_eq_true_2; [done|].
      apply elem_of_app. right. apply list_elem_of_here. }
  unfold queueJob. destruct (isFlushing s); simpl; by rewrite Hadd.
Qed.

Lemma iter_queueJob (j : job) (n : nat) (s : sched) :
  Nat.iter (S n) (queueJob j) s = queueJob j s.
Proof.
  induction n as [|n IH]; [reflexivity|].
  change (Nat.iter (S (S n)) (queueJob j) s)
    with (queueJob j (Nat.iter (S n) (queueJob j) s)).
  by rewrite IH, queueJob_twice.
Qed.

Lemma set_add_elem (j : job) (q : list job) : j ∈ set_add j q.
Proof.
  unfold set_add. case_bool_decide; [done|]. apply elem_of_app. right. apply list_elem_of_here.
Qed.


(** C6: whenever the flush callback exits, by returning or because a job
    threw, the pending set is empty and [isFlushing] is false, and the next
    [queueJob] registers a new flush. *)
Theorem flush_resets_on_every_exit (fuel : nat) (s : sched) (n : nat)
    (r : result unit) (s' : sched) :
  microtasks s = S n →
  run_microtask fuel s = (r, s') →
  r ≠ Diverge →
  queue s' = [] ∧ isFlushing s' = false ∧
  ∀ j, queue (queueJob j s') = [j] ∧ isFlushing (queueJob j s') = true ∧
       microtasks (queueJob j s') = S (microtasks s').
Proof.
  intros Hm. unfold Scheduler.run_microtask. rewrite Hm.
  intros Hfl Hr. apply flush_spec in Hfl as (s1 & _ & _ & _ & _ & Hreset).
  destruct (Hreset Hr) as [Hq Hf]. split_and!; try done.
  intros j. unfold queueJob; simpl. rewrite Hq, Hf. done.
Qed.


End WithJobs.




(** On that input: both jobs are called once, job 2 first, and the sum is 3. *)
Example two_jobs_enqueued_run_once :
  let sn := Nat.iter 3 (queueJob 1) (queueJob 2 (init 0)) in
  flush SchedulerStates.adds 4 sn =
    (Ok tt, {| queue := []; isFlushing := false; microtasks := 1;
               executed := [2; 1]; world := 3 |}).
Proof. reflexivity. Qed.


Lemma flush_resets_on_every_exit_witness :
  queue (run_microtask first_throws 2 two_jobs).2 = [] ∧
  isFlushing (run_microtask first_throws 2 two_jobs).2 = false ∧
  ∀ j, queue (queueJob j (run_microtask first_throws 2 two_jobs).2) = [j] ∧
       isFlushing (queueJob j (run_microtask first_throws 2 two_jobs).2) = true ∧
       microtasks (queueJob j (run_microtask first_throws 2 two_jobs).2) =
         S (microtasks (run_microtask first_throws 2 two_jobs).2).
Proof.
  apply (flush_resets_on_every_exit first_throws 2 two_jobs 0 (Throw (Thrown 7))).
  - reflexivity.
  - reflexivity.
  - discriminate.
Defined.

End SchedulerFacts.
(** ** The tree patcher and the keyed diff *)

Module RendererFacts.
Import Renderer.

(** *** Running a sequence of calls *)

Lemma bind_ok {S A B} (c : M S A) (k : A → M S B) s b s' :
  bind c k s = (Ok b, s') ↔ ∃ a s1, c s = (Ok a, s1) ∧ k a s1 = (Ok b, s').
Proof.
  unfold bind. destruct (c s) as [[a|e|] s1]; split.
  - eauto.
  - by intros (? & ? & [= <- <-] & ?).
  - done.
  - by intros (? & ? & [=] & ?).
  - done.
  - by intros (? & ? & [=] & ?).
Qed.

Lemma bind_fail {S A B} (c : M S A) (k : A → M S B) s :
  ¬ is_ok (c s).1 → bind c k s = (fail_as (c s).1, (c s).2).
Proof. unfold bind. by destruct (c s) as [[a|e|] s1]. Qed.

Lemma bind_not_ok {S A B} (c : M S A) (k : A → M S B) s :
  (∀ a s1, ¬ is_ok (k a s1).1) → ¬ is_ok (bind c k s).1.
Proof. intros Hk. unfold bind. destruct (c s) as [[a|e|] s1]; simpl; auto. Qed.

Lemma bind_run {S A B} (c : M S A) (k : A → M S B) s a s1 :
  c s = (Ok a, s1) → bind c k s = k a s1.
Proof. unfold bind. by intros ->. Qed.

Lemma bind_assoc {S A B C} (c : M S A) (k : A → M S B) (k' : B → M S C) s :
  bind (bind c k) k' s = bind c (λ a, bind (k a) k') s.
Proof. unfold bind. by destruct (c s) as [[a|e|] s1]. Qed.

Lemma bind_congr {S A B} (c : M S A) (k k' : A → M S B) s :
  (∀ a s1, k a s1 = k' a s1) → bind c k s = bind c k' s.
Proof. intros Hk. unfold bind. destruct (c s) as [[a|e|] s1]; auto. Qed.

Lemma bind_congr_l {S A B} (c c' : M S A) (k : A → M S B) s :
  c s = c' s → bind c k s = bind c' k s.
Proof. unfold bind. by intros ->. Qed.

(** Nothing runs after a throw. *)
Lemma bind_throw_absorb {S A B C} (c : M S A) (e : exn) (k : B → M S C) s :
  bind (bind c (λ _, throw e)) k s = bind c (λ _, throw e) s.
Proof. unfold bind, throw. by destruct (c s) as [[a|e'|] s1]. Qed.

Lemma fail_as_not_ok {A B} (r : result A) : ¬ is_ok (fail_as r : result B).
Proof. destruct r; simpl; tauto. Qed.

Lemma fail_as_idemp {A B C} (r : result A) :
  ¬ is_ok r → fail_as (fail_as r : result B) = (fail_as r : result C).
Proof. destruct r; simpl; tauto. Qed.

Lemma index_Some {A} (l : list A) (i : Z) x :
  index l i = Some x ↔ (0 ≤ i)%Z ∧ l !! Z.to_nat i = Some x.
Proof.
  unfold index. destruct (Z.ltb_spec i 0); split.
  - done.
  - intros [? _]. lia.
  - intros. split; [lia|done].
  - by intros [_ ?].
Qed.

Lemma array_set_length {A} (l : list A) i x : length (array_set l i x) = length l.
Proof. unfold array_set. destruct (i <? 0)%Z; [done|apply length_insert]. Qed.

(** *** The two loops of the keyed diff *)

Section KeyedDiffFacts.
Context (patch : option vnode → vnode → option handle → option handle → M state vnode).
Context (oldChildren : list vnode) (container : option handle).

Local Abbreviation prefix_loop := (prefix_loop patch container).
Local Abbreviation suffix_loop := (suffix_loop patch container).
Local Abbreviation loop_failure := (loop_failure patch oldChildren container).
Local Abbreviation patch_heads := (patch_heads patch container).
Local Abbreviation patch_tails := (patch_tails patch container).

Lemma loop_failure_patch {B} o n s :
  o ∈ oldChildren →
  ¬ is_ok (patch (Some o) n container None s).1 →
  loop_failure (fail_as (patch (Some o) n container None s).1 : result B).
Proof. intros. right. by exists o, n, s. Qed.

Lemma loop_failure_not_ok {A} (r : result A) : loop_failure r → ¬ is_ok r.
Proof. intros [->|(o & n & s & _ & _ & ->)]; [simpl; tauto|apply fail_as_not_ok]. Qed.

Lemma loop_failure_fail_as {A B} (r : result A) :
  loop_failure r → loop_failure (fail_as r : result B).
Proof.
  intros [->|(o & n & s & Ho & Hn & ->)]; [by left|].
  right. exists o, n, s. split_and!; try done. by apply fail_as_idemp.
Qed.

(** Phase 1 does not return when the keys agree for as long as both arrays
    have an element. *)
Lemma prefix_loop_fails (olds : list vnode) : ∀ (j : Z) (news : list vnode) s,
  (0 ≤ j)%Z → olds ⊆ oldChildren →
  (key <$> olds) `prefix_of` (key <$> drop (Z.to_nat j) news) ∨
  (key <$> drop (Z.to_nat j) news) `prefix_of` (key <$> olds) →
  loop_failure (prefix_loop olds j news s).1.
Proof.
  induction olds as [|o olds IH]; intros j news s Hj Hsub Hkeys; simpl.
  { by left. }
  destruct (index news j) as [n|] eqn:Hn; [|by left].
  apply index_Some in Hn as [_ Hn].
  rewrite (drop_S _ _ _ Hn) in Hkeys. simpl in Hkeys.
  assert (Hk : key o = key n ∧
    ((key <$> olds) `prefix_of` (key <$> drop (S (Z.to_nat j)) news) ∨
     (key <$> drop (S (Z.to_nat j)) news) `prefix_of` (key <$> olds))).
  { destruct Hkeys as [H|H]; apply prefix_cons_inv_1 in H as H1;
      apply prefix_cons_inv_2 in H; auto. }
  destruct Hk as [Hk Htl]. unfold strict_eq. rewrite bool_decide_eq_true_2 by done.
  destruct (patch (Some o) n container None s) as [r s1] eqn:Hp.
  destruct r as [n'|e|].
  - rewrite (bind_run _ _ _ _ _ Hp). apply IH; [lia|intros x Hx; apply Hsub; by apply list_elem_of_further|].
    replace (Z.to_nat (j + 1)) with (S (Z.to_nat j)) by lia.
    unfold array_set. destruct (Z.ltb_spec j 0); [lia|].
    by rewrite drop_insert_lt by lia.
  - rewrite bind_fail by (rewrite Hp; simpl; tauto). cbn [fst].
    apply loop_failure_patch; [apply Hsub, list_elem_of_here|rewrite Hp; simpl; tauto].
  - rewrite bind_fail by (rewrite Hp; simpl; tauto). cbn [fst].
    apply loop_failure_patch; [apply Hsub, list_elem_of_here|rewrite Hp; simpl; tauto].
Qed.

(** Phase 2 likewise, read from the tails. *)
Lemma suffix_loop_fails (rolds : list vnode) : ∀ (oldEnd newEnd : Z) (news : list vnode) s,
  rolds ⊆ oldChildren →
  (key <$> rolds) `prefix_of` reverse (key <$> take (Z.to_nat (newEnd + 1)) news) ∨
  reverse (key <$> take (Z.to_nat (newEnd + 1)) news) `prefix_of` (key <$> rolds) →
  (newEnd < Z.of_nat (length news))%Z →
  loop_failure (suffix_loop rolds oldEnd newEnd news s).1.
Proof.
  induction rolds as [|o rolds IH]; intros oldEnd newEnd news s Hsub Hkeys Hlen; simpl.
  { by left. }
  destruct (index news newEnd) as [n|] eqn:Hn; [|by left].
  apply index_Some in Hn as [Hpos Hn].
  replace (Z.to_nat (newEnd + 1)) with (S (Z.to_nat newEnd)) in Hkeys by lia.
  rewrite (take_S_r _ _ _ Hn), fmap_app, reverse_app in Hkeys. simpl in Hkeys.
  assert (Hk : key o = key n ∧
    ((key <$> rolds) `prefix_of` reverse (key <$> take (Z.to_nat newEnd) news) ∨
     reverse (key <$> take (Z.to_nat newEnd) news) `prefix_of` (key <$> rolds))).
  { destruct Hkeys as [H|H]; apply prefix_cons_inv_1 in H as H1;
      apply prefix_cons_inv_2 in H; auto. }
  destruct Hk as [Hk Htl]. unfold strict_eq. rewrite bool_decide_eq_true_2 by done.
  destruct (patch (Some o) n container None s) as [r s1] eqn:Hp.
  destruct r as [n'|e|].
  - rewrite (bind_run _ _ _ _ _ Hp). apply IH; [intros x Hx; apply Hsub; by apply list_elem_of_further| |rewrite array_set_length; lia].
    replace (Z.to_nat (newEnd - 1 + 1)) with (Z.to_nat newEnd) by lia.
    unfold array_set. destruct (Z.ltb_spec newEnd 0); [lia|].
    by rewrite take_insert_ge by lia.
  - rewrite bind_fail by (rewrite Hp; simpl; tauto). cbn [fst].
    apply loop_failure_patch; [apply Hsub, list_elem_of_here|rewrite Hp; simpl; tauto].
  - rewrite bind_fail by (rewrite Hp; simpl; tauto). cbn [fst].
    apply loop_failure_patch; [apply Hsub, list_elem_of_here|rewrite Hp; simpl; tauto].
Qed.

(** When the keys agree for as long as both arrays have an element, phase 1
    is the in-place patch of every pair from the heads, and then the read of
    [.key] on the element past the end. *)
Lemma prefix_loop_exhausts (olds : list vnode) : ∀ (j : Z) (news : list vnode) s,
  (0 ≤ j)%Z →
  (key <$> olds) `prefix_of` (key <$> drop (Z.to_nat j) news) ∨
  (key <$> drop (Z.to_nat j) news) `prefix_of` (key <$> olds) →
  prefix_loop olds j news s =
    (patch_heads olds j news ;;; throw key_of_undefined) s.
Proof.
  induction olds as [|o olds IH]; intros j news s Hj Hkeys; simpl; [done|].
  destruct (index news j) as [n|] eqn:Hn; [|done].
  apply index_Some in Hn as [_ Hn].
  rewrite (drop_S _ _ _ Hn) in Hkeys. simpl in Hkeys.
  assert (Hk : key o = key n ∧
    ((key <$> olds) `prefix_of` (key <$> drop (S (Z.to_nat j)) news) ∨
     (key <$> drop (S (Z.to_nat j)) news) `prefix_of` (key <$> olds))).
  { destruct Hkeys as [H|H]; apply prefix_cons_inv_1 in H as H1;
      apply prefix_cons_inv_2 in H; auto. }
  destruct Hk as [Hk Htl]. unfold strict_eq. rewrite bool_decide_eq_true_2 by done.
  rewrite bind_assoc. apply bind_congr. intros n' s1. apply IH; [lia|].
  replace (Z.to_nat (j + 1)) with (S (Z.to_nat j)) by lia.
  unfold array_set. destruct (Z.ltb_spec j 0); [lia|].
  by rewrite drop_insert_lt by lia.
Qed.

(** Phase 2 likewise, from the tails. *)
Lemma suffix_loop_exhausts (rolds : list vnode) : ∀ (oldEnd newEnd : Z) (news : list vnode) s,
  (key <$> rolds) `prefix_of` reverse (key <$> take (Z.to_nat (newEnd + 1)) news) ∨
  reverse (key <$> take (Z.to_nat (newEnd + 1)) news) `prefix_of` (key <$> rolds) →
  (newEnd < Z.of_nat (length news))%Z →
  suffix_loop rolds oldEnd newEnd news s =
    (patch_tails rolds newEnd news ;;; throw key_of_undefined) s.
Proof.
  induction rolds as [|o rolds IH]; intros oldEnd newEnd news s Hkeys Hlen; simpl; [done|].
  destruct (index news newEnd) as [n|] eqn:Hn; [|done].
  apply index_Some in Hn as [Hpos Hn].
  replace (Z.to_nat (newEnd + 1)) with (S (Z.to_nat newEnd)) in Hkeys by lia.
  rewrite (take_S_r _ _ _ Hn), fmap_app, reverse_app in Hkeys. simpl in Hkeys.
  assert (Hk : key o = key n ∧
    ((key <$> rolds) `prefix_of` reverse (key <$> take (Z.to_nat newEnd) news) ∨
     reverse (key <$> take (Z.to_nat newEnd) news) `prefix_of` (key <$> rolds))).
  { destruct Hkeys as [H|H]; apply prefix_cons_inv_1 in H as H1;
      apply prefix_cons_inv_2 in H; auto. }
  destruct Hk as [Hk Htl]. unfold strict_eq. rewrite bool_decide_eq_true_2 by done.
  rewrite bind_assoc. apply bind_congr. intros n' s1.
  apply IH; [|rewrite array_set_length; lia].
  replace (Z.to_nat (newEnd - 1 + 1)) with (Z.to_nat newEnd) by lia.
  unfold array_set. destruct (Z.ltb_spec newEnd 0); [lia|].
  by rewrite take_insert_ge by lia.
Qed.

(** The two loops end in no other abrupt way. *)
Lemma prefix_loop_cases (olds : list vnode) : ∀ (j : Z) (news : list vnode) s,
  olds ⊆ oldChildren →
  is_ok (prefix_loop olds j news s).1 ∨ loop_failure (prefix_loop olds j news s).1.
Proof.
  induction olds as [|o olds IH]; intros j news s Hsub; simpl.
  { right. by left. }
  destruct (index news j) as [n|] eqn:Hn; [|right; by left].
  destruct (strict_eq (key o) (key n)); [|left; exact I].
  destruct (patch (Some o) n container None s) as [r s1] eqn:Hp.
  destruct r as [n'|e|].
  - rewrite (bind_run _ _ _ _ _ Hp). apply IH.
    intros x Hx; apply Hsub; by apply list_elem_of_further.
  - right. rewrite bind_fail by (rewrite Hp; simpl; tauto). cbn [fst].
    apply loop_failure_patch; [apply Hsub, list_elem_of_here|rewrite Hp; simpl; tauto].
  - right. rewrite bind_fail by (rewrite Hp; simpl; tauto). cbn [fst].
    apply loop_failure_patch; [apply Hsub, list_elem_of_here|rewrite Hp; simpl; tauto].
Qed.

Lemma suffix_loop_cases (rolds : list vnode) : ∀ (oldEnd newEnd : Z) (news : list vnode) s,
  rolds ⊆ oldChildren →
  is_ok (suffix_loop rolds oldEnd newEnd news s).1 ∨
  loop_failure (suffix_loop rolds oldEnd newEnd news s).1.
Proof.
  induction rolds as [|o rolds IH]; intros oldEnd newEnd news s Hsub; simpl.
  { right. by left. }
  destruct (index news newEnd) as [n|] eqn:Hn; [|right; by left].
  destruct (strict_eq (key o) (key n)); [|left; exact I].
  destruct (patch (Some o) n container None s) as [r s1] eqn:Hp.
  destruct r as [n'|e|].
  - rewrite (bind_run _ _ _ _ _ Hp). apply IH.
    intros x Hx; apply Hsub; by apply list_elem_of_further.
  - right. rewrite bind_fail by (rewrite Hp; simpl; tauto). cbn [fst].
    apply loop_failure_patch; [apply Hsub, list_elem_of_here|rewrite Hp; simpl; tauto].
  - right. rewrite bind_fail by (rewrite Hp; simpl; tauto). cbn [fst].
    apply loop_failure_patch; [apply Hsub, list_elem_of_here|rewrite Hp; simpl; tauto].
Qed.

(** [patch] assigns fields of the new vnode but never its key. *)
Hypothesis patch_key : ∀ n1 n2 c a s v s',
  patch n1 n2 c a s = (Ok v, s') → key v = key n2.

Lemma array_set_keys (news : list vnode) (i : Z) (n v : vnode) :
  index news i = Some n → key v = key n →
  key <$> array_set news i v = key <$> news.
Proof.
  intros [Hi Hn]%index_Some Hk. unfold array_set.
  destruct (Z.ltb_spec i 0); [lia|].
  rewrite list_fmap_insert, Hk. apply list_insert_id.
  by rewrite list_lookup_fmap, Hn.
Qed.

(** Phase 1 leaves the keys and the length of the new array as they were. *)
Lemma prefix_loop_keys (olds : list vnode) : ∀ (j : Z) (news : list vnode) s j' news' s',
  prefix_loop olds j news s = (Ok (j', news'), s') →
  key <$> news' = key <$> news.
Proof.
  induction olds as [|o olds IH]; intros j news s j' news' s'; simpl; [done|].
  destruct (index news j) as [n|] eqn:Hn; [|done].
  destruct (strict_eq (key o) (key n)); [|by intros [= <- <- <-]].
  intros (v & s1 & Hp & Hrec)%bind_ok.
  apply IH in Hrec. rewrite Hrec.
  apply (array_set_keys _ _ n); [done|by eapply patch_key].
Qed.

(** The two loops do not return when the keys of one array are a prefix, or a
    suffix, of the keys of the other. *)
Lemma common_ends_fails (news : list vnode) s :
  (key <$> oldChildren) `prefix_of` (key <$> news) ∨
  (key <$> news) `prefix_of` (key <$> oldChildren) ∨
  (key <$> oldChildren) `suffix_of` (key <$> news) ∨
  (key <$> news) `suffix_of` (key <$> oldChildren) →
  loop_failure (common_ends patch oldChildren container news s).1.
Proof.
  intros Hkeys. unfold common_ends.
  destruct (prefix_loop oldChildren 0 news s) as [r s1] eqn:Hpre.
  assert (Hcases := prefix_loop_cases oldChildren 0 news s (reflexivity _)).
  rewrite Hpre in Hcases. cbn [fst] in Hcases.
  destruct r as [[j news1]|e|]; cycle 1.
  { rewrite bind_fail by (rewrite Hpre; simpl; tauto). rewrite Hpre. cbn [fst].
    destruct Hcases as [[]|Hf]. by apply (loop_failure_fail_as (B:=Z * Z * Z * list vnode)) in Hf. }
  { rewrite bind_fail by (rewrite Hpre; simpl; tauto). rewrite Hpre. cbn [fst].
    destruct Hcases as [[]|Hf]. by apply (loop_failure_fail_as (B:=Z * Z * Z * list vnode)) in Hf. }
  assert (Hk1 := prefix_loop_keys _ _ _ _ _ _ _ Hpre).
  assert (Hl1 : length news1 = length news)
    by (by rewrite <- (length_fmap key news1), Hk1, length_fmap).
  destruct Hkeys as [H|[H|Hsuf]].
  { pose proof (prefix_loop_fails oldChildren 0 news s (reflexivity _) (reflexivity _)) as Hf.
    rewrite Hpre in Hf. cbn [fst] in Hf.
    apply loop_failure_not_ok in Hf; [done|]. by left. }
  { pose proof (prefix_loop_fails oldChildren 0 news s (reflexivity _) (reflexivity _)) as Hf.
    rewrite Hpre in Hf. cbn [fst] in Hf.
    apply loop_failure_not_ok in Hf; [done|]. by right. }
  rewrite (bind_run _ _ _ _ _ Hpre).
  set (oldEnd := (Z.of_nat (length oldChildren) - 1)%Z).
  set (newEnd := (Z.of_nat (length news1) - 1)%Z).
  pose proof (suffix_loop_fails (reverse oldChildren) oldEnd newEnd news1 s1) as Hf.
  destruct (suffix_loop (reverse oldChildren) oldEnd newEnd news1 s1) as [r s2] eqn:Hsuffix.
  cbn [fst] in Hf.
  assert (Hfail : loop_failure r).
  { apply Hf.
    - intros x Hx. by apply (elem_of_reverse x oldChildren).
    - subst newEnd. replace (Z.to_nat (Z.of_nat (length news1) - 1 + 1)) with (length news1) by lia.
      rewrite take_ge by lia. rewrite Hk1, fmap_reverse.
      destruct Hsuf as [H|H]; [left|right]; by apply suffix_prefix_reverse.
    - subst newEnd. lia. }
  rewrite bind_fail by (rewrite Hsuffix; by apply loop_failure_not_ok).
  rewrite Hsuffix. cbn [fst]. by apply loop_failure_fail_as.
Qed.

(** Under the condition on the keys the two loops are the in-place patches
    of [pairs_in_place] followed by the read past the end. *)
Lemma common_ends_reads_past_end (news : list vnode) s :
  (key <$> oldChildren) `prefix_of` (key <$> news) ∨
  (key <$> news) `prefix_of` (key <$> oldChildren) ∨
  (key <$> oldChildren) `suffix_of` (key <$> news) ∨
  (key <$> news) `suffix_of` (key <$> oldChildren) →
  common_ends patch oldChildren container news s =
    (pairs_in_place patch oldChildren container news ;;; throw key_of_undefined) s.
Proof.
  intros Hkeys. unfold common_ends, pairs_in_place. case_bool_decide as Hpre.
  - rewrite (bind_congr_l _ _ _ _
               (prefix_loop_exhausts oldChildren 0 news s (reflexivity _) Hpre)).
    apply bind_throw_absorb.
  - assert (Hsuf : (key <$> oldChildren) `suffix_of` (key <$> news) ∨
                   (key <$> news) `suffix_of` (key <$> oldChildren)) by tauto.
    rewrite bind_assoc.
    destruct (prefix_loop oldChildren 0 news s) as [r s1] eqn:Hrun.
    destruct r as [[j news1]|e|]; cycle 1.
    { unfold bind at 1 3. by rewrite Hrun. }
    { unfold bind at 1 3. by rewrite Hrun. }
    rewrite !(bind_run _ _ _ _ _ Hrun).
    assert (Hk1 := prefix_loop_keys _ _ _ _ _ _ _ Hrun).
    assert (Hl1 : length news1 = length news)
      by (by rewrite <- (length_fmap key news1), Hk1, length_fmap).
    rewrite Hl1.
    assert (Hloop := suffix_loop_exhausts (reverse oldChildren)
                       (Z.of_nat (length oldChildren) - 1)
                       (Z.of_nat (length news) - 1) news1 s1).
    rewrite (bind_congr_l _ _ _ _ (Hloop ltac:(
      replace (Z.to_nat (Z.of_nat (length news) - 1 + 1)) with (length news1) by lia;
      rewrite take_ge by lia; rewrite Hk1, fmap_reverse;
      destruct Hsuf as [H|H]; [left|right]; by apply suffix_prefix_reverse) ltac:(lia))).
    apply bind_throw_absorb.
Qed.

End KeyedDiffFacts.

(** *** What [patch] leaves untouched on the new vnode *)

Ltac inv_run :=
  repeat match goal with
  | H : bind _ _ _ = (Ok _, _) |- _ =>
      let a := fresh "a" in let s := fresh "s" in let H1 := fresh "Hrun" in
      apply bind_ok in H as (a & s & H1 & H)
  | H : ret _ _ = (Ok _, _) |- _ => injection H as <- <-
  | H : ret _ _ = (Ok _, _) |- _ => injection H as ? ?; subst
  | H : throw _ _ = (Ok _, _) |- _ => discriminate H
  | H : diverge _ = (Ok _, _) |- _ => discriminate H
  | H : (Throw _, _) = (Ok _, _) |- _ => discriminate H
  | H : (Diverge, _) = (Ok _, _) |- _ => discriminate H
  end.

Section PatchStepFacts.
Context (lis : list Z → list Z) (strict : bool) (querySelector : string → option handle).
Context (mountComponent : vnode → option handle → option handle → M state nat).
Context (P : option vnode → vnode → option handle → option handle → M state vnode).
Context (U : vnode → M state unit).

Lemma patchChildren_same_node n1 n2 c s v s' :
  patchChildren lis strict P U n1 n2 c s = (Ok v, s') → same_node v n2.
Proof.
  unfold patchChildren. destruct (children n2) as [|text|news].
  - intros H. inv_run. done.
  - intros H. inv_run. done.
  - destruct (children n1) as [|?|olds]; intros H; inv_run; done.
Qed.

Lemma mountElement_same_node tag n2 c a s v s' :
  mountElement P tag n2 c a s = (Ok v, s') → same_node v n2.
Proof. unfold mountElement. intros H. inv_run. done. Qed.

Lemma patchElement_same_node n1 n2 s v s' :
  patchElement lis strict P U n1 n2 s = (Ok v, s') → same_node v n2.
Proof.
  unfold patchElement. intros H. inv_run.
  by apply patchChildren_same_node in H.
Qed.

Lemma patchComponent_same_node n1 n2 a s v s' :
  patchComponent n1 n2 a s = (Ok v, s') → same_node v n2.
Proof.
  unfold patchComponent. intros H. inv_run. cbn [props set_component] in H.
  destruct (component n1); [|discriminate H].
  destruct (props n1); [|discriminate H].
  destruct (props n2); [|discriminate H].
  destruct (hasPropsChanged _ _); inv_run; [|done].
  destruct a1. inv_run. done.
Qed.

Lemma Teleport_process_same_node n1 n2 c a s v s' :
  Teleport_process lis strict querySelector P U n1 n2 c a s = (Ok v, s') → same_node v n2.
Proof.
  unfold Teleport_process. destruct n1 as [n1|]; intros H; inv_run.
  - apply patchChildren_same_node in Hrun.
    destruct (strict_neq _ _); inv_run; done.
  - done.
Qed.

Lemma patch_step_same_node n1 n2 c a s v s' :
  patch_step lis strict querySelector mountComponent P U n1 n2 c a s = (Ok v, s') →
  same_node v n2.
Proof.
  unfold patch_step. intros H. inv_run.
  destruct (type n2) as [tag| | | |o|f fp] eqn:Hty.
  - destruct a0; [by apply patchElement_same_node in H|by apply mountElement_same_node in H].
  - destruct a0; inv_run; done.
  - inv_run. done.
  - destruct a0; [by apply patchChildren_same_node in H|]. inv_run. done.
  - destruct (o_isTeleport o); [by apply Teleport_process_same_node in H|].
    destruct a0; [by apply patchComponent_same_node in H|].
    destruct (keptAlive n2); inv_run; done.
  - destruct a0; [by apply patchComponent_same_node in H|].
    destruct (keptAlive n2); inv_run; done.
Qed.

End PatchStepFacts.

Lemma patch_same_node lis strict querySelector mountComponent fuel n1 n2 c a s v s' :
  patch lis strict querySelector mountComponent fuel n1 n2 c a s = (Ok v, s') →
  same_node v n2.
Proof.
  destruct fuel as [|fuel]; [done|]. apply patch_step_same_node.
Qed.

(** *** The walk over the old window *)

Section WindowFacts.
Context (lis : list Z → list Z) (strict : bool).
Context (patch : option vnode → vnode → option handle → option handle → M state vnode).
Context (unmount : vnode → M state unit).
Context (oldChildren : list vnode) (container : option handle).

Local Abbreviation old_walk := (old_walk patch unmount oldChildren container).
Local Abbreviation diff_window := (diff_window lis strict patch unmount oldChildren container).

Lemma array_set_other {A} (l : list A) (i k : Z) (x : A) :
  i ≠ k → index (array_set l k x) i = index l i.
Proof.
  intros Hne. unfold array_set, index.
  destruct (Z.ltb_spec k 0); [done|]. destruct (Z.ltb_spec i 0); [done|].
  apply list_lookup_insert_ne. lia.
Qed.

Lemma array_set_same {A} (l : list A) (k : Z) (x y : A) :
  index (array_set l k x) k = Some y → y = x.
Proof.
  unfold array_set, index. destruct (Z.ltb_spec k 0) as [?|Hk]; [done|].
  intros H. assert (Hlt : Z.to_nat k < length l).
  { apply lookup_lt_Some in H. by rewrite length_insert in H. }
  rewrite list_lookup_insert_eq in H by done. congruence.
Qed.

(** A new child whose entry in [source] is still -1 after the walk was not
    touched by it: the walk writes a non-negative old index into [source]
    whenever it patches a new child. *)
Lemma old_walk_untouched keyIndex newStart (count : nat) : ∀ (i : Z) (w w' : walk) s s',
  (0 ≤ i)%Z →
  old_walk keyIndex newStart count i w s = (Ok w', s') →
  ∀ p, index (w_source w') p = Some (-1)%Z →
       index (w_source w) p = Some (-1)%Z ∧
       index (w_newChildren w') (p + newStart) = index (w_newChildren w) (p + newStart).
Proof.
  induction count as [|count IH]; intros i w w' s s' Hi; simpl.
  { by intros [= <- <-]. }
  assert (Hi1 : (0 ≤ i + 1)%Z) by lia.
  destruct (index oldChildren i) as [o|]; [|done].
  destruct (assoc_lookup keyIndex _) as [k|].
  - destruct (index (w_newChildren w) k) as [n|]; [|done].
    intros (n' & s1 & Hp & Hrec)%bind_ok p Hsrc.
    destruct (IH _ _ _ _ _ Hi1 Hrec p Hsrc) as [Hs Hn]. simpl in Hs, Hn.
    destruct (decide (p = k - newStart)%Z) as [->|Hne].
    + apply array_set_same in Hs. lia.
    + rewrite array_set_other in Hs by done.
      rewrite array_set_other in Hn by lia. done.
  - destruct (inherited _); [done|].
    intros (? & s1 & Hu & Hrec)%bind_ok p Hsrc.
    by apply (IH _ _ _ _ _ Hi1 Hrec).
Qed.

(** In the general case with no move needed, [patchKeyedChildren] returns
    right after the walk, in the state the walk left: a new child whose entry
    in [source] is -1 is the vnode it was, not mounted. *)
Lemma unmoved_window_returns_after_walk (j oldEnd newEnd : Z) (news : list vnode)
    (keyIndex : list (string * Z)) (w : walk) s s' :
  (0 ≤ j)%Z → (0 ≤ newEnd - j + 1)%Z →
  (oldEnd <? j)%Z && (j <=? newEnd)%Z = false →
  (newEnd <? j)%Z && (j <=? oldEnd)%Z = false →
  build_keyIndex (Z.to_nat (newEnd - j + 1)) j news [] = Ok keyIndex →
  old_walk keyIndex j (Z.to_nat (oldEnd - j + 1)) j
    {| w_newChildren := news; w_source := replicate (Z.to_nat (newEnd - j + 1)) (-1)%Z;
       w_moved := false; w_pos := 0 |} s = (Ok w, s') →
  w_moved w = false →
  diff_window j oldEnd newEnd news s = (Ok (w_newChildren w), s') ∧
  ∀ p, index (w_source w) p = Some (-1)%Z →
       index (w_newChildren w) (p + j) = index news (p + j).
Proof.
  intros Hj Hc H3 H4 Hk Hw Hm. split.
  - unfold Renderer.diff_window. rewrite H3, H4.
    destruct (Z.ltb_spec (newEnd - j + 1) 0); [lia|].
    rewrite Hk. unfold lift, bind at 1. simpl.
    rewrite (bind_run _ _ _ _ _ Hw), Hm. done.
  - intros p Hp. by destruct (old_walk_untouched _ _ _ _ _ _ _ _ Hj Hw p Hp) as [_ ?].
Qed.

End WindowFacts.

Section RendererClaims.
Context (lis : list Z → list Z) (strict : bool) (querySelector : string → option handle).
Context (mountComponent : vnode → option handle → option handle → M state nat).

Local Abbreviation patch := (patch lis strict querySelector mountComponent).
Local Abbreviation render := (render lis strict querySelector mountComponent).

(** The keyed diff over the patcher itself: under the condition on the keys
    the run is the run of the two loops, which do not return. *)
Lemma patchKeyedChildren_stops_in_loops (fuel : nat) (olds news : list vnode)
    (container : option handle) (s : state) :
  (key <$> olds) `prefix_of` (key <$> news) ∨
  (key <$> news) `prefix_of` (key <$> olds) ∨
  (key <$> olds) `suffix_of` (key <$> news) ∨
  (key <$> news) `suffix_of` (key <$> olds) →
  loop_failure (patch fuel) olds container
    (common_ends (patch fuel) olds container news s).1 ∧
  patchKeyedChildren lis strict (patch fuel) (unmount fuel) olds container news s =
    (fail_as (common_ends (patch fuel) olds container news s).1,
     (common_ends (patch fuel) olds container news s).2).
Proof.
  intros Hkeys.
  assert (Hf : loop_failure (patch fuel) olds container
                 (common_ends (patch fuel) olds container news s).1).
  { apply common_ends_fails; [|done].
    intros n1 n2 c a s0 v s' Hp. by apply patch_same_node in Hp as (_ & ? & _). }
  assert (Hrun : patchKeyedChildren lis strict (patch fuel) (unmount fuel) olds container news s =
    (fail_as (common_ends (patch fuel) olds container news s).1,
     (common_ends (patch fuel) olds container news s).2)).
  { unfold patchKeyedChildren. apply bind_fail. by apply loop_failure_not_ok in Hf. }
  by split.
Qed.

(** C3: the first two loops of [patchKeyedChildren] are bounded by a key
    mismatch only.  When the keys of the old and the new children agree
    position by position from the heads, or from the tails, until one of the
    two arrays is exhausted, the run of [patchKeyedChildren] is the in-place
    patch of the leading pairs followed by the read of [.key] on the element
    past the end of an array, which is not there: the read throws, and phases
    3 to 5 are not reached.  So the function never returns, and it ends by that
    [TypeError] whenever the in-place patches of the pairs return. *)
Theorem patchKeyedChildren_reads_past_end (fuel : nat) (olds news : list vnode)
    (container : option handle) (s : state) :
  (key <$> olds) `prefix_of` (key <$> news) ∨
  (key <$> news) `prefix_of` (key <$> olds) ∨
  (key <$> olds) `suffix_of` (key <$> news) ∨
  (key <$> news) `suffix_of` (key <$> olds) →
  let pairs := pairs_in_place (patch fuel) olds container news in
  let run := patchKeyedChildren lis strict (patch fuel) (unmount fuel) olds container news s in
  run = (pairs ;;; throw key_of_undefined) s ∧
  ¬ is_ok run.1 ∧
  (is_ok (pairs s).1 → run = (Throw key_of_undefined, (pairs s).2)).
Proof.
  intros Hkeys pairs run.
  assert (Hrun : run = (pairs ;;; throw key_of_undefined) s).
  { subst run pairs. unfold patchKeyedChildren.
    assert (Hkey : ∀ n1 n2 c a s0 v s', patch fuel n1 n2 c a s0 = (Ok v, s') → key v = key n2).
    { intros n1 n2 c a s0 v s' Hp. by apply patch_same_node in Hp as (_ & ? & _). }
    rewrite (bind_congr_l _ _ _ _
               (common_ends_reads_past_end (patch fuel) olds container Hkey news s Hkeys)).
    apply bind_throw_absorb. }
  rewrite Hrun. unfold bind, throw. destruct (pairs s) as [[news'|e|] s1]; simpl; tauto.
Qed.

(** On that input the completion is the [TypeError] of the read past the end
    of the old array, after the two common pairs have been patched in place. *)
Example append_at_the_tail_throws :
  let olds := [set_el (Some 1) (li 1 "a"); set_el (Some 2) (li 2 "b")] in
  let news := [li 1 "a"; li 2 "b"; li 3 "c"] in
  let run := patchKeyedChildren lis strict (patch 3) (unmount 3) olds (Some 0) news page in
  run.1 = Throw key_of_undefined ∧
  log run.2 = [SetElementText (Some 1) (TextChildren "a");
               SetElementText (Some 2) (TextChildren "b")].
Proof. split; reflexivity. Qed.

(** A child put in front: phase 1 stops at once, phase 2 patches the two
    common pairs from the tails and then reads [oldChildren[-1].key]. *)
Example insert_at_the_head_throws :
  let olds := [set_el (Some 1) (li 1 "a"); set_el (Some 2) (li 2 "b")] in
  let news := [li 3 "c"; li 1 "a"; li 2 "b"] in
  let run := patchKeyedChildren lis strict (patch 3) (unmount 3) olds (Some 0) news page in
  run.1 = Throw key_of_undefined ∧
  log run.2 = [SetElementText (Some 2) (TextChildren "b");
               SetElementText (Some 1) (TextChildren "a")].
Proof. split; reflexivity. Qed.

(** Two arrays of children with the same keys, as in a clone: the keyed diff
    never returns, whatever the children are. *)
Lemma patchChildren_same_keys_fails (fuel : nat) (n1 n2 : vnode) (olds news : list vnode)
    (container : option handle) (s : state) :
  children n1 = ArrayChildren olds → children n2 = ArrayChildren news →
  key <$> olds = key <$> news →
  ¬ is_ok (patchChildren lis strict (patch fuel) (unmount fuel) n1 n2 container s).1.
Proof.
  intros H1 H2 Hk. unfold patchChildren. rewrite H2, H1.
  destruct (patchKeyedChildren_stops_in_loops fuel olds news container s) as (Hf & Hrun).
  { left. by rewrite Hk. }
  rewrite bind_fail; rewrite Hrun; cbn [fst]; apply fail_as_not_ok.
Qed.

(** So does the patch of an element against another of the same tag whose
    array of children has the same keys. *)
Lemma patch_element_same_keys_fails (fuel : nat) (tag : string) (n1 n2 : vnode)
    (olds news : list vnode) (container anchor : option handle) (s : state) :
  type n1 = TString tag → type n2 = TString tag →
  children n1 = ArrayChildren olds → children n2 = ArrayChildren news →
  key <$> olds = key <$> news →
  ¬ is_ok (patch (S fuel) (Some n1) n2 container anchor s).1.
Proof.
  intros Ht1 Ht2 H1 H2 Hk. simpl. unfold patch_step.
  rewrite Ht1, Ht2. unfold same_type. rewrite bool_decide_eq_true_2 by done. simpl.
  unfold bind at 1, ret at 1. simpl. unfold patchElement.
  apply bind_not_ok. intros _ s1. apply bind_not_ok. intros _ s2.
  by apply (patchChildren_same_keys_fails fuel n1 _ olds news).
Qed.

(** C2, on the code: a list of three keyed items is rendered, then a clone
    of the same tree is rendered into the same container.  The three pairs are
    patched in place, and then the diff reads [oldChildren[3].key] and throws:
    the patch does not complete. *)
Theorem patching_a_clone_throws (fuel : nat) :
  let mounted := (render (3 + fuel) (Some abc) 0 page).2 in
  let run := render (3 + fuel) (Some abc) 0 (set_log [] mounted) in
  (render (3 + fuel) (Some abc) 0 page).1 = Ok tt ∧
  run.1 = Throw key_of_undefined ∧
  log run.2 = [SetElementText (Some 2) (TextChildren "a");
               SetElementText (Some 3) (TextChildren "b");
               SetElementText (Some 4) (TextChildren "c")].
Proof. split_and!; reflexivity. Qed.

(** C1, on the code: [a, b, c] is rendered, then [a, x, b, y, c].  The two
    loops stop at [b] against [x] and at [b] against [y]; the window walk
    matches [b] in increasing order, so [moved] stays false and the function
    returns: [x] and [y], whose entries in [source] are -1, are never mounted.
    No node is created or inserted, and their vnodes have no [el]. *)
Theorem unmoved_new_nodes_are_not_mounted (fuel : nat) :
  let mounted := (render (3 + fuel) (Some abc) 0 page).2 in
  let run := render (3 + fuel) (Some axbyc) 0 (set_log [] mounted) in
  run.1 = Ok tt ∧
  log run.2 = [SetElementText (Some 2) (TextChildren "a");
               SetElementText (Some 4) (TextChildren "c");
               SetElementText (Some 3) (TextChildren "b")] ∧
  el <$> rendered_children run.2 0 = [Some 2; None; Some 3; None; Some 4].
Proof. split_and!; reflexivity. Qed.

End RendererClaims.

Lemma patchKeyedChildren_reads_past_end_witness :
  let olds := [set_el (Some 1) (li 1 "a"); set_el (Some 2) (li 2 "b")] in
  let news := [li 1 "a"; li 2 "b"; li 3 "c"] in
  let patch := patch no_lis false no_document no_components 3 in
  let run := patchKeyedChildren no_lis false patch (unmount 3) olds (Some 0) news page in
  run = (Throw key_of_undefined, (pairs_in_place patch olds (Some 0) news page).2) ∧
  log run.2 = [SetElementText (Some 1) (TextChildren "a");
               SetElementText (Some 2) (TextChildren "b")].
Proof.
  split; [|reflexivity].
  apply (patchKeyedChildren_reads_past_end no_lis false no_document no_components 3
           [set_el (Some 1) (li 1 "a"); set_el (Some 2) (li 2 "b")]
           [li 1 "a"; li 2 "b"; li 3 "c"] (Some 0) page).
  - left. exists [VNum 3]. reflexivity.
  - vm_compute. exact I.
Defined.

End RendererFacts.
(** ** The component code *)

Module ComponentFacts.
Import Renderer RendererFacts.

(** *** Objects *)

Lemma obj_lookup_own_set (o : obj) k v k' :
  obj_lookup (own_set o k v) k' = if bool_decide (k = k') then Some v else obj_lookup o k'.
Proof.
  induction o as [|[k0 v0] o IH]; simpl.
  - by repeat case_bool_decide.
  - repeat (case_bool_decide; simpl); subst; try done; congruence.
Qed.

(** Away from the inherited setter an assignment sets the own property. *)
Lemma obj_set_own_set (o : obj) k v :
  k ≠ "__proto__"%string ∨ is_Some (obj_lookup o k) → obj_set o k v = own_set o k v.
Proof.
  intros Hk. unfold obj_set. destruct Hk as [Hk|Hk].
  - by rewrite bool_decide_eq_false_2.
  - by rewrite (bool_decide_eq_true_2 (is_Some _)), andb_false_r.
Qed.

Lemma obj_set_proto (o : obj) v :
  obj_lookup o "__proto__" = None → obj_set o "__proto__" v = o.
Proof.
  intros Hk. unfold obj_set. rewrite bool_decide_eq_true_2 by done.
  rewrite bool_decide_eq_false_2; [done|]. rewrite Hk. by intros [? ?].
Qed.

Lemma obj_lookup_set (o : obj) k v k' :
  k ≠ "__proto__"%string ∨ is_Some (obj_lookup o k) →
  obj_lookup (obj_set o k v) k' = if bool_decide (k = k') then Some v else obj_lookup o k'.
Proof. intros Hk. rewrite obj_set_own_set by done. apply obj_lookup_own_set. Qed.

Lemma obj_lookup_delete (o : obj) k k' :
  obj_lookup (obj_delete o k) k' = if bool_decide (k = k') then None else obj_lookup o k'.
Proof.
  induction o as [|[k0 v0] o IH]; simpl.
  - by case_bool_decide.
  - repeat (case_bool_decide; simpl); subst; try done; try congruence;
      rewrite IH; by rewrite ?bool_decide_eq_true_2, ?bool_decide_eq_false_2.
Qed.

Lemma obj_keys_lookup (o : obj) k : k ∈ obj_keys o ↔ is_Some (obj_lookup o k).
Proof.
  unfold obj_keys. induction o as [|[k0 v0] o IH]; simpl.
  - split; [by intros ?%elem_of_nil|by intros [? ?]].
  - rewrite elem_of_cons, IH. case_bool_decide; subst; split; eauto.
    + intros [?|?]; [congruence|done].
Qed.

Lemma obj_has_keys (o : obj) k :
  obj_has o k = bool_decide (k ∈ obj_keys o) || inherited k.
Proof. unfold obj_has. f_equal. apply bool_decide_ext. by rewrite obj_keys_lookup. Qed.

Lemma obj_keys_own_set (o : obj) k v :
  obj_keys (own_set o k v) = if bool_decide (k ∈ obj_keys o) then obj_keys o else obj_keys o ++ [k].
Proof.
  unfold obj_keys. induction o as [|[k0 v0] o IH]; [done|]. cbn [own_set].
  destruct (decide (k0 = k)) as [->|Hne].
  - rewrite (bool_decide_eq_true_2 (k = k)) by done. csimpl.
    by rewrite bool_decide_eq_true_2 by apply list_elem_of_here.
  - rewrite (bool_decide_eq_false_2 (k0 = k)) by done. csimpl. rewrite IH.
    destruct (decide (k ∈ o.*1)) as [Hin|Hin].
    + rewrite !bool_decide_eq_true_2; [done|by apply list_elem_of_further|done].
    + rewrite !bool_decide_eq_false_2; [done| |done].
      intros [?|?]%elem_of_cons; congruence.
Qed.

(** No assignment gives a plain object an own property [__proto__]. *)
Lemma obj_set_no_proto (o : obj) k v :
  "__proto__"%string ∉ obj_keys o → "__proto__"%string ∉ obj_keys (obj_set o k v).
Proof.
  intros Ho. destruct (decide (k = "__proto__"%string)) as [->|Hk].
  - rewrite obj_set_proto; [done|]. apply eq_None_not_Some. by rewrite <- obj_keys_lookup.
  - rewrite obj_set_own_set by (by left). rewrite obj_keys_own_set.
    case_bool_decide; [done|]. rewrite elem_of_app, list_elem_of_singleton. intros [?|?]; done.
Qed.

(** *** [hasPropsChanged] *)

Lemma hasPropsChanged_true (prev next : obj) :
  hasPropsChanged prev next = true ↔
  length (obj_keys next) ≠ length (obj_keys prev) ∨
  ∃ k, k ∈ obj_keys next ∧ obj_get next k ≠ obj_get prev k.
Proof.
  unfold hasPropsChanged.
  destruct (Nat.eqb_spec (length (obj_keys next)) (length (obj_keys prev))) as [He|Hne]; simpl.
  - rewrite existsb_exists. split.
    + intros (k & Hin & Hk). right. exists k. split; [by apply list_elem_of_In|].
      unfold strict_neq, strict_eq in Hk. apply negb_true_iff in Hk.
      by apply bool_decide_eq_false in Hk.
    + intros [?|(k & Hin & Hk)]; [done|]. exists k. split; [by apply list_elem_of_In|].
      unfold strict_neq, strict_eq. apply negb_true_iff. by apply bool_decide_eq_false.
  - split; [by left|done].
Qed.

(** *** [resolveProps] *)

Lemma resolveProps_loop_declared declared data : ∀ p a,
  ∃ nextProps attrs, resolveProps_loop (Some declared) data p a = Ok (nextProps, attrs).
Proof.
  induction data as [|[k v] data IH]; intros p a; simpl; [by eauto|].
  destruct (_ || _); apply IH.
Qed.

Lemma resolveProps_loop_no_proto options data : ∀ p a p' a',
  resolveProps_loop options data p a = Ok (p', a') →
  "__proto__"%string ∉ obj_keys p → "__proto__"%string ∉ obj_keys p'.
Proof.
  induction data as [|[k v] data IH]; intros p a p' a'; simpl.
  - by intros [= <- <-].
  - destruct options as [declared|]; [|done].
    destruct (_ || _); intros Hr Hp; eapply IH; eauto using obj_set_no_proto.
Qed.

(** *** Writes through the reactive props proxy *)

Lemma alter_lookup_insert {A} (f : A → A) (m : gmap nat A) a x :
  m !! a = Some x → alter f a m = <[a := f x]> m.
Proof.
  intros Hx. apply map_eq. intros b. destruct (decide (a = b)) as [<-|Hne].
  - by rewrite lookup_alter_eq, lookup_insert_eq, Hx.
  - by rewrite lookup_alter_ne, lookup_insert_ne.
Qed.

Lemma set_i_props_twice p q inst : set_i_props p (set_i_props q inst) = set_i_props p inst.
Proof. done. Qed.

Lemma set_i_props_same inst : set_i_props (i_props inst) inst = inst.
Proof. by destruct inst. Qed.

Lemma written_nothing s a inst :
  instances s !! a = Some inst → written s a inst (i_props inst) [] = s.
Proof.
  intros H. unfold written. rewrite app_nil_r, set_i_props_same, insert_id by done.
  by destruct s.
Qed.

Lemma written_written s a inst p evs q evs' :
  written (written s a inst p evs) a (set_i_props p inst) q evs' =
  written s a inst q (evs ++ evs').
Proof.
  unfold written; simpl. by rewrite insert_insert_eq, app_assoc.
Qed.

Lemma props_set_run a k v s inst :
  instances s !! a = Some inst →
  props_set a k v s = (Ok tt, written s a inst (obj_set (i_props inst) k v) [PropsSet a k v]).
Proof.
  intros H. unfold props_set, emit, modify, bind, written; simpl.
  by rewrite (alter_lookup_insert _ _ _ _ H).
Qed.

Lemma props_delete_run a k s inst :
  instances s !! a = Some inst →
  props_delete a k s = (Ok tt, written s a inst (obj_delete (i_props inst) k) [PropsDelete a k]).
Proof.
  intros H. unfold props_delete, emit, modify, bind, written; simpl.
  by rewrite (alter_lookup_insert _ _ _ _ H).
Qed.

Lemma written_lookup s a inst p evs :
  instances (written s a inst p evs) !! a = Some (set_i_props p inst).
Proof. unfold written; simpl. apply lookup_insert_eq. Qed.

Lemma forEach_props_set a (f : string → value) (ks : list string) : ∀ s inst,
  instances s !! a = Some inst →
  forEach (λ k, props_set a k (f k)) ks s =
    (Ok tt, written s a inst (foldl (λ p k, obj_set p k (f k)) (i_props inst) ks)
                    ((λ k, PropsSet a k (f k)) <$> ks)).
Proof.
  induction ks as [|k ks IH]; intros s inst Hi; simpl.
  - by rewrite written_nothing.
  - rewrite (bind_run _ _ _ _ _ (props_set_run a k (f k) s inst Hi)).
    rewrite (IH _ _ (written_lookup _ _ _ _ _)). simpl.
    by rewrite written_written.
Qed.

Lemma forEach_props_delete a (nextProps : obj) (ks : list string) : ∀ s inst,
  instances s !! a = Some inst →
  forEach (λ k, if obj_has nextProps k then ret tt else props_delete a k) ks s =
    (Ok tt, written s a inst
              (foldl (λ p k, if obj_has nextProps k then p else obj_delete p k) (i_props inst) ks)
              (PropsDelete a <$> filter (λ k, obj_has nextProps k = false) ks)).
Proof.
  induction ks as [|k ks IH]; intros s inst Hi; simpl.
  - by rewrite written_nothing.
  - destruct (obj_has nextProps k) eqn:Hk.
    + unfold bind at 1. simpl. rewrite (IH _ _ Hi).
      rewrite filter_cons_False by congruence. done.
    + rewrite (bind_run _ _ _ _ _ (props_delete_run a k s inst Hi)).
      rewrite (IH _ _ (written_lookup _ _ _ _ _)). simpl.
      rewrite written_written, filter_cons_True by done. done.
Qed.

(** *** The props object after the two loops *)

Ltac solve_elem :=
  repeat case_bool_decide; subst; simpl; try done; try congruence;
  repeat match goal with
         | H : _ ∈ _ :: _ |- _ => rewrite elem_of_cons in H
         | H : ¬ (_ ∈ _ :: _) |- _ => rewrite elem_of_cons in H
         | H : _ ∉ _ :: _ |- _ => rewrite elem_of_cons in H
         end;
  try (exfalso; intuition congruence).

Lemma assign_lookup (nextProps : obj) (ks : list string) : ∀ (live : obj) k,
  "__proto__"%string ∉ ks →
  obj_lookup (foldl (λ p k, obj_set p k (obj_get nextProps k)) live ks) k =
    if bool_decide (k ∈ ks) then Some (obj_get nextProps k) else obj_lookup live k.
Proof.
  induction ks as [|k0 ks IH]; intros live k Hks; simpl; [done|].
  apply not_elem_of_cons in Hks as [Hk0 Hks].
  rewrite IH, obj_lookup_set by (done || by left). solve_elem.
Qed.

Lemma delete_lookup (nextProps : obj) (ks : list string) : ∀ (live : obj) k,
  obj_lookup (foldl (λ p k, if obj_has nextProps k then p else obj_delete p k) live ks) k =
    if bool_decide (k ∈ ks) && negb (obj_has nextProps k) then None else obj_lookup live k.
Proof.
  induction ks as [|k0 ks IH]; intros live k; simpl; [done|].
  rewrite IH. destruct (obj_has nextProps k0) eqn:H0;
    destruct (obj_has nextProps k) eqn:Hk; simpl;
    rewrite ?obj_lookup_delete, ?andb_false_r, ?andb_true_r; solve_elem.
Qed.

(** After the two loops the live object has the new props, and keeps what it
    had under a name of [Object.prototype] that the new props do not own: for
    such a name [k in nextProps] holds, and the second loop deletes nothing. *)
Lemma updated_props_lookup (live nextProps : obj) k :
  "__proto__"%string ∉ obj_keys nextProps →
  obj_lookup (delete_missing (assign_all live nextProps) nextProps) k =
    match obj_lookup nextProps k with
    | Some v => Some v
    | None => if inherited k then obj_lookup live k else None
    end.
Proof.
  intros Hnp. unfold delete_missing. rewrite delete_lookup.
  pose proof (assign_lookup nextProps (obj_keys nextProps) live k Hnp) as Ha.
  fold (assign_all live nextProps) in Ha.
  rewrite obj_has_keys.
  destruct (bool_decide (k ∈ obj_keys nextProps)) eqn:Hk; simpl.
  - rewrite andb_false_r, Ha. apply bool_decide_eq_true in Hk.
    apply obj_keys_lookup in Hk as [v Hv]. unfold obj_get. by rewrite Hv.
  - apply bool_decide_eq_false in Hk.
    assert (obj_lookup nextProps k = None) as ->.
    { apply eq_None_not_Some. by rewrite <- obj_keys_lookup. }
    destruct (inherited k); simpl.
    + by rewrite andb_false_r.
    + rewrite andb_true_r. case_bool_decide as Hin; [done|].
      apply eq_None_not_Some. by rewrite <- obj_keys_lookup.
Qed.

(** *** [patchComponent] *)

(** What [patchComponent] does for a component that declares props, on
    vnodes that carry attributes.  When the attributes are unchanged it only
    links the instance onto the new vnode, and the state is the same
    afterwards.  When they are changed the props are recomputed and the live
    props object of the same instance is updated in place, by one write per key
    of the new props and one delete per key that the new props neither own nor
    inherit. *)
Lemma patchComponent_declared (n1 n2 : vnode) (anchor : option handle) (s : state)
    (a : nat) (inst : instance) (prev next : obj) (declared : list string) :
  component n1 = Some a → instances s !! a = Some inst →
  props n1 = Some prev → props n2 = Some next →
  type_props (type n2) = Some declared →
  (hasPropsChanged prev next = false →
     patchComponent n1 n2 anchor s = (Ok (set_component (Some a) n2), s)) ∧
  (hasPropsChanged prev next = true →
     ∃ nextProps attrs,
       resolveProps (Some declared) (Some next) = Ok (nextProps, attrs) ∧
       patchComponent n1 n2 anchor s =
         (Ok (set_component (Some a) n2),
          written s a inst
            (delete_missing (assign_all (i_props inst) nextProps) nextProps)
            (assign_events a nextProps ++
             delete_events a (assign_all (i_props inst) nextProps) nextProps)) ∧
       ∀ k, obj_lookup (delete_missing (assign_all (i_props inst) nextProps) nextProps) k =
            match obj_lookup nextProps k with
            | Some v => Some v
            | None => if inherited k then obj_lookup (i_props inst) k else None
            end).
Proof.
  intros Hc Hi Hp1 Hp2 Hd.
  assert (Hget : get_instance "props" (component n1) s = (Ok inst, s)).
  { unfold get_instance. by rewrite Hc, Hi. }
  unfold patchComponent. rewrite (bind_run _ _ _ _ _ Hget).
  cbn [props type set_component]. rewrite Hc, Hp1, Hp2. split.
  - intros ->. done.
  - intros ->. rewrite Hd.
    destruct (resolveProps_loop_declared declared next [] []) as (nextProps & attrs & Hr).
    exists nextProps, attrs. unfold resolveProps. simpl. rewrite Hr.
    split_and!; [done| |].
    + unfold lift, bind at 1. simpl.
      rewrite (bind_run _ _ _ _ _ (forEach_props_set a _ _ s inst Hi)).
      unfold bind at 1, get. simpl. rewrite lookup_insert_eq. simpl.
      erewrite (bind_run _ _ _ _ _ (forEach_props_delete a nextProps _ _ _ (written_lookup _ _ _ _ _))).
      by rewrite written_written.
    + intros k. apply updated_props_lookup.
      apply (resolveProps_loop_no_proto _ _ _ _ _ _ Hr); by intros ?%elem_of_nil.
Qed.

(** Both vnodes must carry attributes: [hasPropsChanged] takes the keys of
    [n2.props] and of [n1.props] before anything else. *)
Lemma patchComponent_needs_attributes (n1 n2 : vnode) (anchor : option handle) (s : state)
    (a : nat) (inst : instance) :
  component n1 = Some a → instances s !! a = Some inst →
  props n1 = None ∨ props n2 = None →
  patchComponent n1 n2 anchor s = (Throw keys_of_undefined, s).
Proof.
  intros Hc Hi Hp.
  assert (Hget : get_instance "props" (component n1) s = (Ok inst, s)).
  { unfold get_instance. by rewrite Hc, Hi. }
  unfold patchComponent. rewrite (bind_run _ _ _ _ _ Hget).
  cbn [props type set_component]. rewrite Hc.
  destruct Hp as [->| ->]; [done|]. by destruct (props n1).
Qed.

(** C8, on the code: the update of a component that has no [props] option.
    When the attributes passed to it have changed, [patchComponent] calls
    [resolveProps], whose test [key in options] throws on the first attribute:
    [patchComponent] ends by that TypeError with the state as it was.  The
    props are not recomputed and the live props object is not written, also
    for the handlers under [on...] which [resolveProps], by its own comment,
    takes for props whether they are declared or not. *)
Theorem patchComponent_without_props_option (n1 n2 : vnode) (anchor : option handle)
    (s : state) (a : nat) (inst : instance) (prev next : obj) :
  component n1 = Some a → instances s !! a = Some inst →
  props n1 = Some prev → props n2 = Some next →
  hasPropsChanged prev next = true → next ≠ [] →
  type_props (type n2) = None →
  patchComponent n1 n2 anchor s = (Throw in_undefined, s).
Proof.
  intros Hc Hi Hp1 Hp2 Hch Hne Hd.
  assert (Hget : get_instance "props" (component n1) s = (Ok inst, s)).
  { unfold get_instance. by rewrite Hc, Hi. }
  unfold patchComponent. rewrite (bind_run _ _ _ _ _ Hget).
  cbn [props type set_component]. rewrite Hc, Hp1, Hp2, Hch, Hd.
  unfold resolveProps. simpl. by destruct next as [|[k v] next].
Qed.

Lemma patchComponent_without_props_option_witness :
  patchComponent (set_component (Some 0) (listens 1)) (listens 2) None with_listener =
    (Throw in_undefined, with_listener).
Proof.
  apply (patchComponent_without_props_option
           (set_component (Some 0) (listens 1)) (listens 2) None with_listener
           0 (Instance [("onClick", VRef 1)] None true [] false None ∅)
           [("onClick", VRef 1)] [("onClick", VRef 2)]);
    (reflexivity || discriminate).
Defined.

(** With a [props] option the same update goes through: the live props object
    of instance 0 is written in place. *)
Example patchComponent_changed :
  let run := patchComponent (set_component (Some 0) (child "a")) (child "b") None with_child in
  run.1 = Ok (set_component (Some 0) (child "b")) ∧
  log run.2 = [PropsSet 0 "title" (VStr "b")] ∧
  i_props <$> instances run.2 !! 0 = Some [("title", VStr "b")].
Proof. split_and!; reflexivity. Qed.

(** *** The current instance around [setup] *)

(** The three statements around the call of [setup], run from an allocated
    instance: [setup] is entered with the slot holding the instance; when it
    returns the slot is reset to null; when it throws (or the component has no
    [setup], so that the call itself throws) the slot is not reset. *)
Lemma call_setup_run (setup : M state setupResult) (instance : nat) (s : state) :
  let entry := set_currentInstance (Some instance) s in
  call_setup (Some setup) instance s =
    match setup entry with
    | (Ok r, s') => (Ok r, set_currentInstance None s')
    | (Throw e, s') => (Throw e, s')
    | (Diverge, s') => (Diverge, s')
    end ∧
  call_setup None instance s = (Throw (not_a_function "setup"), entry).
Proof.
  simpl. split; [|reflexivity].
  unfold call_setup, bind, setCurrentInstance, modify; simpl.
  by destruct (setup _) as [[r|e|] s'].
Qed.

(** C4, on the code: [mountComponent] never reaches the call of [setup].
    The object literal that allocates the instance reads [slots], which the
    function declares only after it, so every run ends there (if not before,
    in [beforeCreate], [data] or [resolveProps]): the run is the same whatever
    [setup] is, so [setup] is not invoked, and none of the two calls of
    [setCurrentInstance] is made.  Without the two hooks the state is left as
    it was; in particular the slot is not set to the instance. *)
Theorem mountComponent_stops_before_setup (beforeCreate : option (M state unit))
    (data : option (M state obj)) (setup setup' : option (M state setupResult))
    (vn : vnode) (s : state) :
  ¬ is_ok (Mounting.mountComponent_setup beforeCreate data setup vn s).1 ∧
  Mounting.mountComponent_setup beforeCreate data setup vn s
    = Mounting.mountComponent_setup beforeCreate data setup' vn s ∧
  (Mounting.mountComponent_setup None None setup vn s).2 = s ∧
  (is_ok (resolveProps (type_props (type vn)) (props vn)) →
   Mounting.mountComponent_setup None None setup vn s
     = (Throw Mounting.slots_before_initialization, s)).
Proof.
  unfold Mounting.mountComponent_setup. split_and!.
  - unfold Mounting.mountComponent. apply bind_not_ok. intros _ s1.
    apply bind_not_ok. intros st s2. apply bind_not_ok. intros [p a] s3. simpl. tauto.
  - reflexivity.
  - unfold Mounting.mountComponent, bind, lift, ret. simpl.
    by destruct (resolveProps (type_props (type vn)) (props vn)) as [[p a]|e|].
  - unfold Mounting.mountComponent, bind, lift, ret. simpl.
    by destruct (resolveProps (type_props (type vn)) (props vn)) as [[p a]|e|].
Qed.

(** The mount of the component [Child] with a [setup] that returns and with
    one that throws: the same ReferenceError, and the slot still empty. *)
Example mountComponent_of_Child :
  Mounting.mountComponent_setup None None (Some setup_returns) (child "a") page
    = (Throw Mounting.slots_before_initialization, page) ∧
  Mounting.mountComponent_setup None None (Some setup_throws) (child "a") page
    = (Throw Mounting.slots_before_initialization, page) ∧
  currentInstance page = None.
Proof. split_and!; reflexivity. Qed.

End ComponentFacts.
(** ** Teleport and KeepAlive *)

Module StructuralFacts.
Import Renderer RendererFacts.

(** *** Moving the children of a Teleport *)

Lemma insert_run node target anchor s :
  insert (Some node) (Some target) anchor s =
    (Ok tt, State (next_handle s) (<[node := target]> (parentNode s))
                  (log s ++ [Insert (Some node) (Some target) anchor])
                  (instances s) (currentInstance s) (heap s) (root_vnode s)).
Proof. unfold insert, emit, modify, bind; simpl. by destruct s. Qed.

Lemma relocated_app target ns1 ns2 s :
  relocated target ns2 (relocated target ns1 s) = relocated target (ns1 ++ ns2) s.
Proof.
  unfold relocated; simpl. by rewrite foldl_app, fmap_app, app_assoc.
Qed.

Lemma move_run c node target s :
  realized s c = Some (Some node) →
  move c (Some target) None s = (Ok tt, relocated target [node] s).
Proof.
  unfold realized, move, component_el, component_subTree, get_instance.
  destruct (component c) as [i|]; simpl.
  - destruct (instances s !! i) as [inst|] eqn:Hi; [|done].
    destruct (i_subTree inst) as [t|] eqn:Ht; [|done].
    intros [= Hel]. unfold bind at 1 2 3. rewrite Hi. simpl. rewrite Ht. simpl.
    rewrite Hel. apply insert_run.
  - intros [= ->]. unfold bind at 1. simpl. apply insert_run.
Qed.

Lemma forEach_move target (cs : list vnode) : ∀ (nodes : list handle) s,
  Forall2 (λ c node, realized s c = Some (Some node)) cs nodes →
  forEach (λ c, move c (Some target) None) cs s = (Ok tt, relocated target nodes s).
Proof.
  induction cs as [|c cs IH]; intros nodes s H.
  - apply Forall2_nil_inv_l in H as ->. simpl. unfold ret, relocated. simpl.
    rewrite app_nil_r. by destruct s.
  - apply Forall2_cons_inv_l in H as (node & nodes' & Hc & Hcs & ->). simpl.
    rewrite (bind_run _ _ _ _ _ (move_run c node target s Hc)).
    rewrite (IH nodes'); [by rewrite relocated_app|].
    eapply Forall2_impl; [exact Hcs|]. by intros.
Qed.

Section TeleportFacts.
Context (lis : list Z → list Z) (strict : bool) (querySelector : string → option handle).
Context (mountComponent : vnode → option handle → option handle → M state nat).

Local Abbreviation patch := (patch lis strict querySelector mountComponent).

(** What [process] does after a reconciliation that returns, when [to]
    changed and names a node: [insert] is called once for each child, in
    order, with the child's realized node and the new destination, and nothing
    else happens. *)
Lemma Teleport_update_after_reconcile
    (P : option vnode → vnode → option handle → option handle → M state vnode)
    (U : vnode → M state unit) (n1 n2 n2' : vnode) (container anchor : option handle)
    (s s1 : state) (p1 p2 : obj) (cs : list vnode) (nodes : list handle) (target : handle) :
  props n1 = Some p1 → props n2 = Some p2 →
  obj_get p2 "to" ≠ obj_get p1 "to" →
  resolve_target querySelector (obj_get p2 "to") = Some target →
  patchChildren lis strict P U n1 n2 container s = (Ok n2', s1) →
  children n2' = ArrayChildren cs →
  Forall2 (λ c node, realized s1 c = Some (Some node)) cs nodes →
  Teleport_process lis strict querySelector P U (Some n1) n2 container anchor s
    = (Ok n2', relocated target nodes s1).
Proof.
  intros Hp1 Hp2 Hto Htarget Hrec Hcs Hnodes.
  unfold Teleport_process. rewrite (bind_run _ _ _ _ _ Hrec).
  apply patchChildren_same_node in Hrec as (_ & _ & Hprops).
  unfold props_to. rewrite Hprops, Hp2, Hp1.
  unfold bind at 1 2, ret at 1 2. simpl.
  unfold strict_neq, strict_eq. rewrite bool_decide_eq_false_2 by done. simpl.
  rewrite Hcs, Htarget. unfold bind at 1, children_array, ret at 1. simpl.
  by rewrite (bind_run _ _ _ _ _ (forEach_move _ cs nodes _ Hnodes)).
Qed.

(** C10, on the code: the update of a Teleport whose children have the keys
    they had, as they do when only [to] changes (the children of the Teleport
    of [teleport.js] have no key at all).  [process] first reconciles the
    children in the container it was given, and that step is the keyed diff
    of two arrays with the same keys: the run of the whole update is the
    in-place patch of each pair followed by the read of [.key] past the end of
    the arrays, which throws.  [process] ends there: [to] is not read, no
    destination is resolved, and [move] is called for no child. *)
Theorem Teleport_update_same_keys_moves_nothing (fuel : nat) (n1 n2 : vnode) (o : options)
    (olds news : list vnode) (container anchor : option handle) (s : state) :
  type n1 = TObject o → type n2 = TObject o → o_isTeleport o = true →
  children n1 = ArrayChildren olds → children n2 = ArrayChildren news →
  key <$> olds = key <$> news →
  let pairs := patch_heads (patch fuel) container olds 0 news in
  let run := patch (S fuel) (Some n1) n2 container anchor s in
  run = (pairs ;;; throw key_of_undefined) s ∧
  ¬ is_ok run.1 ∧
  (is_ok (pairs s).1 → run = (Throw key_of_undefined, (pairs s).2)).
Proof.
  intros Ht1 Ht2 Htp Ho Hn Hk pairs run.
  assert (Hkeys : (key <$> olds) `prefix_of` (key <$> news) ∨
                  (key <$> news) `prefix_of` (key <$> olds)) by (left; by rewrite Hk).
  assert (Hkey : ∀ n1 n2 c a s0 v s', patch fuel n1 n2 c a s0 = (Ok v, s') → key v = key n2).
  { intros ? ? c a s0 v s' Hp. by apply patch_same_node in Hp as (_ & ? & _). }
  assert (Hrun : run = (pairs ;;; throw key_of_undefined) s).
  { subst run pairs. cbn [Renderer.patch]. unfold patch_step.
    rewrite Ht1, Ht2. unfold same_type. rewrite bool_decide_eq_true_2 by done.
    cbn [negb]. unfold bind at 1, ret at 1. rewrite Htp.
    unfold Teleport_process, patchChildren. rewrite Hn, Ho.
    rewrite !bind_assoc. unfold patchKeyedChildren. rewrite bind_assoc.
    rewrite (bind_congr_l _ _ _ _
               (common_ends_reads_past_end (patch fuel) olds container Hkey news s
                  ltac:(tauto))).
    unfold pairs_in_place. rewrite bool_decide_eq_true_2 by done.
    apply bind_throw_absorb. }
  rewrite Hrun. unfold bind, throw. destruct (pairs s) as [[news'|e|] s1]; simpl; tauto.
Qed.

End TeleportFacts.

Lemma Teleport_update_same_keys_moves_nothing_witness :
  let run := patch no_lis false no_document no_components 2
               (Some teleport_old) teleport_new (Some 0) None teleport_page in
  run.1 = Throw key_of_undefined ∧
  log run.2 = [SetElementText (Some 1) (TextChildren "Title");
               SetElementText (Some 2) (TextChildren "content")] ∧
  parentNode run.2 = parentNode teleport_page.
Proof.
  assert (Hrun := proj2 (proj2
    (Teleport_update_same_keys_moves_nothing no_lis false no_document no_components 1
       teleport_old teleport_new
       {| o_id := 1; o_isTeleport := true; o_isKeepAlive := false;
          o_name := None; o_props := None |}
       [set_el (Some 1) heading; set_el (Some 2) paragraph] [heading; paragraph]
       (Some 0) None teleport_page
       eq_refl eq_refl eq_refl eq_refl eq_refl eq_refl))).
  cbv zeta in Hrun. rewrite Hrun by (vm_compute; exact I).
  split_and!; vm_compute; reflexivity.
Defined.

(** When the keys are in another order the reconciliation returns (outside
    strict mode), and the children are then moved to the new destination. *)
Example Teleport_update_swapped :
  let run := patch no_lis false no_document no_components 2
               (Some teleport_keyed) teleport_swapped (Some 0) None teleport_page in
  is_ok run.1 ∧
  log run.2 = [SetElementText (Some 1) (TextChildren "a");
               SetElementText (Some 2) (TextChildren "b");
               Insert (Some 1) (Some 0) None; Insert (Some 2) (Some 0) (Some 1);
               Insert (Some 2) (Some 11) None; Insert (Some 1) (Some 11) None] ∧
  parentNode run.2 = {[ 1 := 11; 2 := 11 ]}.
Proof. split_and!; vm_compute; done. Qed.

(** *** KeepAlive *)

Lemma get_instance_run what a s inst :
  instances s !! a = Some inst → get_instance what (Some a) s = (Ok inst, s).
Proof. intros H. unfold get_instance. by rewrite H. Qed.

(** [KeepAlive.setup], run for a KeepAlive instance that [mountComponent] has
    given a [keepAliveCtx]: the instance gets a fresh hidden container and an
    empty cache. *)
Lemma KeepAlive_setup_installs (s : state) (a : nat) (inst : instance) :
  currentInstance s = Some a → instances s !! a = Some inst →
  i_keepAliveCtx inst = true →
  ∃ s', KeepAlive_setup s = (Ok a, s') ∧
        instances s' !! a =
          Some (set_i_cache ∅ (set_i_storage (Some (next_handle s)) inst)) ∧
        log s' = log s ++ [CreateElement "div" (next_handle s)].
Proof.
  intros Hc Hi Hk. unfold KeepAlive_setup, get, bind at 1. simpl.
  rewrite Hc, (bind_run _ _ _ _ _ (get_instance_run _ _ _ _ Hi)), Hk.
  eexists. split; [reflexivity|]. simpl. by rewrite lookup_alter_eq, Hi.
Qed.

(** [_activate] is one [insert] of the root of the stored subtree. *)
Lemma activate_run (v : vnode) (container anchor : option handle) (s : state)
    ka kai storage c ci subTree :
  keepAliveInstance v = Some ka → instances s !! ka = Some kai →
  i_storage kai = Some storage →
  component v = Some c → instances s !! c = Some ci → i_subTree ci = Some subTree →
  activate v container anchor s = insert (el subTree) container anchor s.
Proof.
  intros Hv Hka Hst Hc Hci Hsub. unfold activate. rewrite Hv.
  rewrite (bind_run _ _ _ _ _ (get_instance_run _ _ _ _ Hka)), Hst.
  unfold keepAlive_move, component_el, component_subTree. rewrite Hc.
  erewrite bind_run; [reflexivity|].
  erewrite bind_run; [|erewrite bind_run; [reflexivity|by apply get_instance_run]].
  by rewrite Hsub.
Qed.

Section KeepAliveFacts.
Context (lis : list Z → list Z) (strict : bool) (querySelector : string → option handle).
Context (mountComponent : vnode → option handle → option handle → M state nat).

Local Abbreviation patch_object := (patch_object lis strict querySelector mountComponent).


End KeepAliveFacts.



End StructuralFacts.
(** ** More on the job scheduler *)

Module SchedulerMoreFacts.
Import Scheduler SchedulerStates SchedulerFacts.

Section WithJobs.
Context {W : Type} (body : job → W → W * list job * option exn).

Local Abbreviation sched := (sched W).


(** Jobs that neither enqueue nor throw: the loop needs as many steps as
    there are jobs left, calls them in the order of the set, each on the
    outside state the previous one left, and changes nothing else. *)
Lemma queue_forEach_simple (fuel : nat) : ∀ (i : nat) (s : sched),
  (∀ j w, (body j w).1.2 = [] ∧ (body j w).2 = None) →
  length (queue s) ≤ i + fuel →
  queue_forEach body fuel i s =
    (Ok tt, {| queue := queue s; isFlushing := isFlushing s; microtasks := microtasks s;
               executed := executed s ++ drop i (queue s);
               world := foldl (λ w j, (body j w).1.1) (world s) (drop i (queue s)) |}).
Proof.
  induction fuel as [|fuel IH]; intros i s Hb Hlen; simpl.
  - rewrite (proj2 (lookup_ge_None _ _)) by lia.
    rewrite drop_ge by lia. simpl. rewrite app_nil_r. by destruct s.
  - destruct (queue s !! i) as [j|] eqn:Hj.
    + unfold bind, call_job. destruct (Hb j (world s)) as [He Hc].
      destruct (body j (world s)) as [[w' enq] c] eqn:Hbody. simpl in He, Hc. subst enq c.
      simpl. rewrite IH; [|done|simpl; lia]. simpl.
      rewrite (drop_S _ _ _ Hj). simpl. rewrite Hbody. simpl.
      by rewrite <- app_assoc.
    + apply lookup_ge_None in Hj. rewrite drop_ge by lia. simpl.
      rewrite app_nil_r. by destruct s.
Qed.

(** X2: Batching: with jobs that neither enqueue nor throw, one flush calls all
    the queued jobs in insertion order, each job running to its end before the
    next starts, and leaves the scheduler idle. *)
Theorem flush_runs_jobs_in_order (s : sched) :
  (∀ j w, (body j w).1.2 = [] ∧ (body j w).2 = None) →
  flush body (length (queue s)) s =
    (Ok tt, {| queue := []; isFlushing := false; microtasks := microtasks s;
               executed := executed s ++ queue s;
               world := foldl (λ w j, (body j w).1.1) (world s) (queue s) |}).
Proof.
  intros Hb. unfold flush, try_finally.
  rewrite queue_forEach_simple; [|done|simpl; lia]. by rewrite drop_0.
Qed.

(** X3: Between turns of the event loop at most one flush is registered: from a
    settled state, [queueJob] leads to a state that waits for exactly one
    flush, and a microtask that exits leads to the idle state. *)
Theorem queueJob_keeps_one_flush (s : sched) (j : job) :
  settled s →
  settled (queueJob j s) ∧ microtasks (queueJob j s) = 1 ∧
  ∀ fuel r s', run_microtask body fuel (queueJob j s) = (r, s') → r ≠ Diverge →
               isFlushing s' = false ∧ microtasks s' = 0 ∧ queue s' = [].
Proof.
  intros Hs.
  assert (Hq : settled (queueJob j s) ∧ microtasks (queueJob j s) = 1).
  { destruct Hs as [(Hf & Hm & Hq)|(Hf & Hm & Hq & Hn)]; unfold queueJob; simpl;
      rewrite Hf; simpl.
    - split; [|lia]. right. rewrite Hq, Hm. unfold set_add. simpl.
      split_and!; try done. apply NoDup_singleton.
    - split; [|done]. right. split_and!; try done.
      + destruct (set_add_ext j (queue s)) as [ext ->].
        destruct (queue s); [done|]. done.
      + by apply set_add_NoDup. }
  destruct Hq as [Hq Hm]. split_and!; [done|done|].
  intros fuel r s' Hrun Hr. unfold run_microtask in Hrun. rewrite Hm in Hrun.
  apply flush_spec in Hrun as (s1 & Hloop & _ & _ & Hm1 & Hreset).
  destruct (Hreset Hr) as [Hq' Hf']. split_and!; try done.
  apply queue_forEach_spec in Hloop as (ext & n & _ & _ & _ & _ & _ & _ & _ & Hfl).
  simpl in Hfl. destruct Hq as [(_ & Hm0 & _)|(Hf & _)]; [congruence|].
  destruct (Hfl Hf) as [_ Hm2]. congruence.
Qed.

End WithJobs.


(** In that flush job 5, enqueued by job 0 while the flush ran, is called
    after the two jobs that were queued before. *)
Example spawned_job_runs_in_the_same_flush :
  executed (flush spawns 3 two_jobs).2 = [0; 1; 5].
Proof. reflexivity. Qed.

Lemma flush_runs_jobs_in_order_witness :
  flush adds 2 (queueJob 4 (queueJob 3 (init 0))) =
    (Ok tt, {| queue := []; isFlushing := false; microtasks := 1;
               executed := [3; 4]; world := 7 |}).
Proof.
  apply (flush_runs_jobs_in_order adds (queueJob 4 (queueJob 3 (init 0)))).
  intros j w. split; reflexivity.
Defined.

Lemma queueJob_keeps_one_flush_witness :
  settled (queueJob 3 (init 0)) ∧ microtasks (queueJob 3 (init 0)) = 1 ∧
  ∀ fuel r s', run_microtask adds fuel (queueJob 3 (init 0)) = (r, s') → r ≠ Diverge →
               isFlushing s' = false ∧ microtasks s' = 0 ∧ queue s' = [].
Proof.
  apply (queueJob_keeps_one_flush adds (init 0) 3).
  left. split_and!; reflexivity.
Defined.

End SchedulerMoreFacts.
(** ** More on the component code *)

Module ComponentMoreFacts.
Import Renderer RendererFacts ComponentFacts Context.

(** *** [resolveProps] *)

Lemma obj_lookup_set_other (o : obj) k v k' :
  k ≠ k' → obj_lookup (obj_set o k v) k' = obj_lookup o k'.
Proof.
  intros Hne. unfold obj_set. destruct (_ && _); [done|].
  by rewrite obj_lookup_own_set, bool_decide_eq_false_2.
Qed.

Lemma resolveProps_loop_lookup declared (data : obj) : ∀ (p a : obj),
  NoDup (obj_keys data) →
  ∃ p' a', resolveProps_loop (Some declared) data p a = Ok (p', a') ∧
    ∀ k, k ≠ "__proto__"%string →
         obj_lookup p' k =
           (if is_prop declared k
            then match obj_lookup data k with Some v => Some v | None => obj_lookup p k end
            else obj_lookup p k) ∧
         obj_lookup a' k =
           (if is_prop declared k then obj_lookup a k
            else match obj_lookup data k with Some v => Some v | None => obj_lookup a k end).
Proof.
  induction data as [|[k0 v0] data IH]; intros p a Hnd; simpl.
  - exists p, a. split; [done|]. intros k _. by destruct (is_prop declared k).
  - apply NoDup_cons in Hnd as [Hk0 Hnd]. fold (is_prop declared k0).
    assert (Hnone : obj_lookup data k0 = None).
    { apply eq_None_not_Some. by rewrite <- obj_keys_lookup. }
    destruct (is_prop declared k0) eqn:Hp0.
    + destruct (IH (obj_set p k0 v0) a Hnd) as (p' & a' & Hrun & Hl).
      exists p', a'. split; [done|]. intros k Hk. destruct (Hl k Hk) as [Hlp Hla].
      rewrite Hlp, Hla. destruct (decide (k0 = k)) as [->|Hne].
      * rewrite obj_lookup_set by (by left).
        rewrite !bool_decide_eq_true_2 by done. by rewrite Hp0, Hnone.
      * rewrite obj_lookup_set_other by done. by rewrite bool_decide_eq_false_2.
    + destruct (IH p (obj_set a k0 v0) Hnd) as (p' & a' & Hrun & Hl).
      exists p', a'. split; [done|]. intros k Hk. destruct (Hl k Hk) as [Hlp Hla].
      rewrite Hlp, Hla. destruct (decide (k0 = k)) as [->|Hne].
      * rewrite obj_lookup_set by (by left).
        rewrite !bool_decide_eq_true_2 by done. by rewrite Hp0, Hnone.
      * rewrite obj_lookup_set_other by done. by rewrite bool_decide_eq_false_2.
Qed.

Lemma resolveProps_attrs_no_proto declared (data : obj) : ∀ (p a p' a' : obj),
  resolveProps_loop (Some declared) data p a = Ok (p', a') →
  "__proto__"%string ∉ obj_keys a → "__proto__"%string ∉ obj_keys a'.
Proof.
  induction data as [|[k v] data IH]; intros p a p' a'; simpl.
  - by intros [= <- <-].
  - destruct (_ || _); intros Hr Ha; eapply IH; eauto using obj_set_no_proto.
Qed.

Lemma resolveProps_lookup (declared : list string) (propsData : obj) :
  NoDup (obj_keys propsData) →
  ∃ props attrs,
    resolveProps (Some declared) (Some propsData) = Ok (props, attrs) ∧
    ∀ k, obj_lookup props k =
           (if is_prop declared k && negb (bool_decide (k = "__proto__"%string))
            then obj_lookup propsData k else None) ∧
         obj_lookup attrs k = (if is_prop declared k then None else obj_lookup propsData k).
Proof.
  intros Hnd. destruct (resolveProps_loop_lookup declared propsData [] [] Hnd)
    as (p & a & Hrun & Hl).
  exists p, a. split; [done|]. intros k.
  destruct (decide (k = "__proto__"%string)) as [->|Hk].
  - rewrite andb_false_r. cbn [is_prop inherited orb]. split.
    + apply eq_None_not_Some. rewrite <- obj_keys_lookup.
      apply (resolveProps_loop_no_proto _ _ _ _ _ _ Hrun). by intros ?%elem_of_nil.
    + replace (is_prop declared "__proto__") with true
        by (unfold is_prop; rewrite orb_true_r; done).
      apply eq_None_not_Some. rewrite <- obj_keys_lookup.
      apply (resolveProps_attrs_no_proto _ _ _ _ _ _ Hrun). by intros ?%elem_of_nil.
  - rewrite (bool_decide_eq_false_2 _ Hk), andb_true_r.
    destruct (Hl k Hk) as [-> ->]. simpl.
    by destruct (is_prop declared k), (obj_lookup propsData k).
Qed.



(** An attribute that the component does not declare but whose name every
    object inherits is taken for a prop. *)
Example resolveProps_inherited_name :
  resolveProps (Some ["title"]) (Some [("id", VNum 1); ("toString", VNum 2)])
    = Ok ([("toString", VNum 2)], [("id", VNum 1)]).
Proof. reflexivity. Qed.

(** X5: A component without a [props] option takes no attribute at all: the test
    [key in options] throws for the first key passed, whatever its name, and
    [resolveProps] returns only when nothing is passed. *)
Theorem resolveProps_without_props_option (propsData : option obj) :
  (default [] propsData = [] → resolveProps None propsData = Ok ([], [])) ∧
  (default [] propsData ≠ [] → resolveProps None propsData = Throw in_undefined).
Proof.
  unfold resolveProps. destruct (default [] propsData) as [|[k v] rest]; simpl.
  - by split.
  - by split.
Qed.

(** *** [hasPropsChanged] *)

Lemma obj_get_present (o : obj) k v :
  obj_get o k = v → v ≠ absent k → obj_lookup o k = Some v.
Proof. unfold obj_get. destruct (obj_lookup o k); simpl; congruence. Qed.

(** X6: [hasPropsChanged] answers false exactly when the two attribute sets
    have as many keys and every attribute of the new set has the same value in
    the old one, or is missing there and has the value that the read of a
    missing attribute gives: [undefined], or for the name of a member of
    [Object.prototype] that member.  So it is exact for a new set in which no
    attribute has such a value: it then answers false exactly when the two
    sets have the same keys with identical values. *)
Theorem hasPropsChanged_exact (prev next : obj) :
  NoDup (obj_keys prev) → NoDup (obj_keys next) →
  (hasPropsChanged prev next = false ↔
     length (obj_keys next) = length (obj_keys prev) ∧
     ∀ k v, obj_lookup next k = Some v →
            obj_lookup prev k = Some v ∨
            (obj_lookup prev k = None ∧
             v = if bool_decide (k ∈ Object_prototype) then VBuiltin k else VUndefined)) ∧
  ((∀ k, obj_lookup next k ≠ Some VUndefined) →
   (∀ k, k ∈ Object_prototype → obj_lookup next k ≠ Some (VBuiltin k)) →
   (hasPropsChanged prev next = false ↔ ∀ k, obj_lookup next k = obj_lookup prev k)).
Proof.
  intros Hp Hn. split.
  { rewrite <- not_true_iff_false, hasPropsChanged_true. split.
    - intros Hsame. split.
      + destruct (decide (length (obj_keys next) = length (obj_keys prev))); [done|].
        destruct Hsame. by left.
      + intros k v Hv.
        destruct (decide (obj_get next k = obj_get prev k)) as [He|Hne].
        * unfold obj_get in He. rewrite Hv in He. simpl in He.
          destruct (obj_lookup prev k) as [v'|]; simpl in He; [left; congruence|].
          right. split; [done|]. by rewrite He.
        * destruct Hsame. right. exists k. split; [|done].
          apply obj_keys_lookup. by rewrite Hv.
    - intros [Hlen Hall] [Hne|(k & Hk & Hne)]; [done|].
      apply obj_keys_lookup in Hk as [v Hv].
      destruct (Hall k v Hv) as [Hprev|[Hprev ->]]; apply Hne;
        unfold obj_get; by rewrite Hv, Hprev. }
  intros Hu Hb.
  assert (Hdef : ∀ k, obj_lookup next k ≠ Some (absent k)).
  { intros k. unfold absent, inherited. case_bool_decide as Hin; [by apply Hb|apply Hu]. }
  rewrite <- not_true_iff_false, hasPropsChanged_true. split.
  - intros Hsame.
    assert (Hlen : length (obj_keys next) = length (obj_keys prev)).
    { destruct (decide (length (obj_keys next) = length (obj_keys prev))); [done|].
      destruct Hsame. by left. }
    assert (Hval : ∀ k, k ∈ obj_keys next → obj_lookup prev k = obj_lookup next k).
    { intros k Hk. apply obj_keys_lookup in Hk as Hv. destruct Hv as [v Hv].
      rewrite Hv. apply obj_get_present; [|intros ->; by apply (Hdef k)].
      destruct (decide (obj_get next k = obj_get prev k)) as [He|Hne].
      - rewrite <- He. unfold obj_get. by rewrite Hv.
      - destruct Hsame. right. by exists k. }
    assert (Hsub : obj_keys next ⊆+ obj_keys prev).
    { apply NoDup_submseteq; [done|]. intros k Hk. apply obj_keys_lookup.
      rewrite (Hval k Hk). by apply obj_keys_lookup. }
    assert (Hperm : obj_keys next ≡ₚ obj_keys prev).
    { apply submseteq_length_Permutation; [done|lia]. }
    intros k. destruct (decide (k ∈ obj_keys next)) as [Hk|Hk]; [by rewrite Hval|].
    assert (Hk' : k ∉ obj_keys prev) by (by rewrite <- Hperm).
    rewrite obj_keys_lookup in Hk, Hk'.
    apply eq_None_not_Some in Hk, Hk'. congruence.
  - intros Heq [Hlen|(k & Hk & Hne)].
    + apply Hlen. apply Permutation_length. apply NoDup_Permutation; [done|done|].
      intros k. by rewrite !obj_keys_lookup, Heq.
    + apply Hne. unfold obj_get. by rewrite Heq.
Qed.

Lemma hasPropsChanged_exact_witness :
  (hasPropsChanged [("a", VNum 1); ("b", VStr "x")] [("b", VStr "x"); ("a", VNum 1)] = false ↔
     length (obj_keys [("b", VStr "x"); ("a", VNum 1)])
       = length (obj_keys [("a", VNum 1); ("b", VStr "x")]) ∧
     ∀ k v, obj_lookup [("b", VStr "x"); ("a", VNum 1)] k = Some v →
            obj_lookup [("a", VNum 1); ("b", VStr "x")] k = Some v ∨
            (obj_lookup [("a", VNum 1); ("b", VStr "x")] k = None ∧
             v = if bool_decide (k ∈ Object_prototype) then VBuiltin k else VUndefined)) ∧
  ((∀ k, obj_lookup [("b", VStr "x"); ("a", VNum 1)] k ≠ Some VUndefined) →
   (∀ k, k ∈ Object_prototype →
         obj_lookup [("b", VStr "x"); ("a", VNum 1)] k ≠ Some (VBuiltin k)) →
   (hasPropsChanged [("a", VNum 1); ("b", VStr "x")] [("b", VStr "x"); ("a", VNum 1)] = false ↔
    ∀ k, obj_lookup [("b", VStr "x"); ("a", VNum 1)] k =
         obj_lookup [("a", VNum 1); ("b", VStr "x")] k)).
Proof.
  apply (hasPropsChanged_exact [("a", VNum 1); ("b", VStr "x")] [("b", VStr "x"); ("a", VNum 1)]).
  - apply (bool_decide_unpack _). reflexivity.
  - apply (bool_decide_unpack _). reflexivity.
Defined.

(** An [undefined] value hides a change: one key is replaced by another whose
    value is [undefined], and the two sets count as unchanged. *)
Example hasPropsChanged_misses_undefined :
  hasPropsChanged [("b", VNum 1)] [("a", VUndefined)] = false.
Proof. reflexivity. Qed.

(** So does the member of [Object.prototype] under its own name. *)
Example hasPropsChanged_misses_inherited :
  hasPropsChanged [("x", VNum 1)] [("constructor", VBuiltin "constructor")] = false.
Proof. reflexivity. Qed.

(** *** [emit] *)

Section EmitFacts.
Context (toUpperCase : string → string).

(** X7: A handler passed to a component under the prop name of an event reaches
    the instance's props whatever the [props] option declares, and [emit] of
    that event calls it. *)
Theorem emit_finds_handler (declared : list string) (propsData : obj)
    (ev name : string) (f : nat) :
  NoDup (obj_keys propsData) →
  eventName toUpperCase ev = Ok name →
  obj_lookup propsData name = Some (VRef f) →
  ∃ props attrs,
    resolveProps (Some declared) (Some propsData) = Ok (props, attrs) ∧
    emit toUpperCase props ev = Ok (CallHandler f).
Proof.
  intros Hnd Hname Hh.
  destruct (resolveProps_lookup declared propsData Hnd) as (props & attrs & Hrun & Hl).
  exists props, attrs. split; [done|]. unfold emit. rewrite Hname.
  destruct (Hl name) as [Hp _].
  assert (Hon : is_prop declared name = true).
  { unfold is_prop. destruct ev as [|c rest]; [discriminate|].
    injection Hname as <-. apply orb_true_intro. right.
    change (String.prefix "" (toUpperCase (String c "") +:+ rest) = true).
    by destruct (toUpperCase (String c "") +:+ rest). }
  assert (Hnp : name ≠ "__proto__"%string).
  { intros ->. destruct ev as [|c rest]; discriminate. }
  rewrite Hon, Hh, (bool_decide_eq_false_2 _ Hnp) in Hp. unfold obj_get. rewrite Hp. done.
Qed.

End EmitFacts.

Lemma emit_finds_handler_witness :
  ∃ props attrs,
    resolveProps (Some ["title"]) (Some [("title", VStr "a"); ("onChange", VRef 3)])
      = Ok (props, attrs) ∧
    emit upper props "change" = Ok (CallHandler 3).
Proof.
  apply (emit_finds_handler upper ["title"] [("title", VStr "a"); ("onChange", VRef 3)]
           "change" "onChange" 3).
  - apply (bool_decide_unpack _). reflexivity.
  - reflexivity.
  - reflexivity.
Defined.

(** *** The render context *)

Lemma obj_keys_set_present (o : obj) k v :
  is_Some (obj_lookup o k) → obj_keys (obj_set o k v) = obj_keys o.
Proof.
  intros Hk. rewrite obj_set_own_set by (by right). rewrite obj_keys_own_set.
  by rewrite bool_decide_eq_true_2 by (by apply obj_keys_lookup).
Qed.

Lemma has_own (o : option obj) k :
  inherited k = false → has o k = true → ∃ st, o = Some st ∧ is_Some (obj_lookup st k).
Proof.
  intros Hi. destruct o as [st|]; [|done]. simpl. unfold obj_has. rewrite Hi, orb_false_r.
  intros H%bool_decide_eq_true. eauto.
Qed.

Lemma own_set_absent (o : obj) k v :
  obj_lookup o k = None → own_set o k v = o ++ [(k, v)].
Proof.
  induction o as [|[k0 v0] o IH]; simpl; [done|].
  case_bool_decide as Hk0; [done|]. intros Hnone. by rewrite IH.
Qed.

(** X8: A write through the render context never changes the props, and is
    dropped altogether when the name is one of the props and not of the state.
    Under a name that is not the name of a member of [Object.prototype] it
    never gives any of the three objects a new name or takes one away.  Under
    the name of such a member (other than [__proto__]) that the state does not
    own, [k in state] holds all the same, and the write gives the state a new
    property of that name. *)
Theorem context_set_keeps_names (c : context) (k : string) (r v : value) :
  let c' := (context_set c k r v).1 in
  c_props c' = c_props c ∧
  (has (c_state c) k = false → obj_has (c_props c) k = true →
   context_set c k r v = (c, Some PropsAreReadonly)) ∧
  (inherited k = false →
   keys_of (c_state c') = keys_of (c_state c) ∧
   keys_of (c_setupState c') = keys_of (c_setupState c)) ∧
  (inherited k = true → k ≠ "__proto__"%string →
   ∀ st, c_state c = Some st → obj_lookup st k = None →
         context_set c k r v =
           ({| c_state := Some (st ++ [(k, v)]); c_props := c_props c;
               c_setupState := c_setupState c |}, None)).
Proof.
  split_and!.
  - unfold context_set. by repeat destruct (_ : bool).
  - unfold context_set. by intros -> ->.
  - intros Hi. unfold context_set. destruct (has (c_state c) k) eqn:Hs; simpl.
    + split; [|done]. destruct (has_own _ _ Hi Hs) as (st & -> & Hown). simpl.
      by apply obj_keys_set_present.
    + destruct (obj_has (c_props c) k) eqn:Hp; simpl; [done|].
      destruct (has (c_setupState c) k) eqn:Hu; simpl; [|done].
      split; [done|]. destruct (has_own _ _ Hi Hu) as (st & -> & Hown). simpl.
      by apply obj_keys_set_present.
  - intros Hi Hk st Hst Hnone. unfold context_set. rewrite Hst. simpl.
    unfold obj_has. rewrite Hi, orb_true_r.
    by rewrite obj_set_own_set, own_set_absent by (done || by left).
Qed.

(** A write under the name [toString]: the state, which had no such
    property, gets one. *)
Example context_set_under_inherited_name :
  context_set {| c_state := Some [("count", VNum 0)]; c_props := []; c_setupState := None |}
              "toString" (VNum 1) (VRef 9)
  = ({| c_state := Some [("count", VNum 0); ("toString", VRef 9)]; c_props := [];
        c_setupState := None |}, None).
Proof. reflexivity. Qed.

(** X9: What a write to a name of the state (other than [__proto__]) stores
    is the receiver that the proxy passes as fourth argument, not the value
    assigned: reading the name back gives the receiver. *)
Theorem context_set_stores_receiver (c : context) (k : string) (r v : value) :
  k ≠ "$slots"%string → k ≠ "__proto__"%string → has (c_state c) k = true →
  context_get (context_set c k r v).1 k = Value v.
Proof.
  intros Hk Hp Hs. unfold context_set. rewrite Hs. simpl. unfold context_get. simpl.
  rewrite bool_decide_eq_false_2 by done.
  destruct (c_state c) as [st|]; [|done]. simpl in *.
  assert (Hl : obj_lookup (obj_set st k v) k = Some v).
  { rewrite obj_lookup_set by (by left). by rewrite bool_decide_eq_true_2. }
  unfold obj_has, obj_get. by rewrite Hl.
Qed.

(** Under [__proto__] the write goes to the setter that the state inherits:
    the state gets no property, and the name reads as before. *)
Example context_set_under___proto__ :
  let c := {| c_state := Some [("count", VNum 0)]; c_props := []; c_setupState := None |} in
  context_set c "__proto__" (VNum 1) (VNum 2) = (c, None) ∧
  context_get (context_set c "__proto__" (VNum 1) (VNum 2)).1 "__proto__"
    = Value (VBuiltin "__proto__").
Proof. split; reflexivity. Qed.

Lemma context_set_stores_receiver_witness :
  context_get
    (context_set {| c_state := Some [("count", VNum 0)]; c_props := []; c_setupState := None |}
                 "count" (VNum 1) (VRef 9)).1 "count" = Value (VRef 9).
Proof.
  apply (context_set_stores_receiver
           {| c_state := Some [("count", VNum 0)]; c_props := []; c_setupState := None |}
           "count" (VNum 1) (VRef 9)).
  - discriminate.
  - discriminate.
  - reflexivity.
Defined.

(** *** [onMounted] *)

(** X10: [onMounted] registers nothing: it leaves the state as it is, and inside
    [setup], where an instance is current, it throws.  A [setup] that calls it
    therefore throws, and the current instance stays set. *)
Theorem onMounted_registers_nothing (s : state) :
  (onMounted s).2 = s ∧
  (currentInstance s = None → (onMounted s).1 = Ok tt) ∧
  (∀ a, currentInstance s = Some a → (onMounted s).1 = Throw fn_not_defined) ∧
  (∀ (k : M state setupResult) (a : nat),
     call_setup (Some (onMounted ;;; k)) a s
       = (Throw fn_not_defined, set_currentInstance (Some a) s)).
Proof.
  unfold onMounted, get, bind at 1 2 3. simpl. split_and!.
  - by destruct (currentInstance s).
  - by intros ->.
  - by intros a ->.
  - done.
Qed.

(** *** [mountComponent] *)

Lemma mountComponent_fails {A} beforeCreate data vn
    (rest : nat → obj → M state A) s :
  ¬ is_ok (Mounting.mountComponent beforeCreate data vn rest s).1.
Proof.
  unfold Mounting.mountComponent. apply bind_not_ok. intros _ s1.
  apply bind_not_ok. intros st s2. apply bind_not_ok. intros [p a] s3. simpl. tauto.
Qed.

(** X11: [mountComponent] never returns: whatever the component, it runs
    [beforeCreate] and [data], resolves the props, and then throws while it
    builds the instance (if it did not fail before).  None of the statements
    that follow runs: no instance is linked to the vnode, [setup] and the
    render function are not called, no effect is registered.  Without the two
    hooks the state is left as it was. *)
Theorem mountComponent_never_returns {A} (beforeCreate : option (M state unit))
    (data : option (M state obj)) (vn : vnode)
    (rest rest' : nat → obj → M state A) (s : state) :
  ¬ is_ok (Mounting.mountComponent beforeCreate data vn rest s).1 ∧
  Mounting.mountComponent beforeCreate data vn rest s
    = Mounting.mountComponent beforeCreate data vn rest' s ∧
  (Mounting.mountComponent None None vn rest s).2 = s.
Proof.
  split_and!.
  - apply mountComponent_fails.
  - reflexivity.
  - unfold Mounting.mountComponent, bind, lift, ret. simpl.
    by destruct (resolveProps (type_props (type vn)) (props vn)) as [[p a]|e|].
Qed.

Section WithMountComponent.
Context (lis : list Z → list Z) (strict : bool) (querySelector : string → option handle).
Context (beforeCreate : option (M state unit)) (data : option (M state obj)).
Context (rest : nat → obj → M state nat).

(** X12: With that [mountComponent], [patch] cannot mount a component: for a vnode
    whose type is a component (not a Teleport) and which KeepAlive has not
    marked as kept, the mount never returns. *)
Theorem component_cannot_be_mounted (fuel : nat) (n2 : vnode)
    (container anchor : option handle) (s : state) :
  (∃ o, type n2 = TObject o ∧ o_isTeleport o = false) ∨ (∃ f p, type n2 = TFunction f p) →
  keptAlive n2 = false →
  ¬ is_ok (patch lis strict querySelector
             (λ v c a, Mounting.mountComponent beforeCreate data v rest)
             fuel None n2 container anchor s).1.
Proof.
  intros Hty Hk. destruct fuel as [|fuel]; simpl; [tauto|].
  unfold patch_step. cbn [bind ret].
  destruct Hty as [(o & -> & ->)|(f & p & ->)]; rewrite Hk;
    (rewrite bind_fail by apply mountComponent_fails); apply fail_as_not_ok.
Qed.

End WithMountComponent.

Lemma component_cannot_be_mounted_witness :
  ¬ is_ok (patch no_lis false no_document
             (λ v c a, Mounting.mountComponent None None v (Mounting.links))
             2 None (child "a") (Some 0) None page).1.
Proof.
  apply (component_cannot_be_mounted no_lis false no_document None None (Mounting.links)
           2 (child "a") (Some 0) None page).
  - left. eexists. split; reflexivity.
  - reflexivity.
Defined.

End ComponentMoreFacts.
(** ** More on the patcher *)

Module RendererMoreFacts.
Import Renderer RendererFacts ComponentFacts StructuralFacts Trees.

Lemma forEach_skip {S A} (f : A → M S unit) (l : list A) s :
  (∀ x, x ∈ l → f x s = (Ok tt, s)) → forEach f l s = (Ok tt, s).
Proof.
  induction l as [|x l IH]; simpl; intros H; [done|].
  rewrite (bind_run _ _ _ tt s); [|apply H; by left].
  apply IH. intros y Hy. apply H. by right.
Qed.

(** *** The props of an element *)

Section ElementFacts.
Context (lis : list Z → list Z) (strict : bool).
Context (P : option vnode → vnode → option handle → option handle → M state vnode).
Context (U : vnode → M state unit).

(** X13: When the new vnode of an element has the props of the old one,
    [patchElement] makes no call of [patchProps]: the update of the element is
    the update of its children, in the element of the old vnode. *)
Theorem patchElement_same_props (n1 n2 : vnode) (s : state) :
  props n1 = props n2 →
  patchElement lis strict P U n1 n2 s =
  patchChildren lis strict P U n1 (set_el (el n1) n2) (el n1) s.
Proof.
  intros Hp. unfold patchElement. cbn [props set_el]. rewrite Hp.
  destruct (props n2) as [p|]; [|done].
  rewrite (bind_run _ _ _ tt s).
  2: { unfold patch_new_props. apply forEach_skip. intros k _.
       unfold strict_neq, strict_eq. by rewrite bool_decide_eq_true_2. }
  rewrite (bind_run _ _ _ tt s); [done|].
  unfold remove_old_props. apply forEach_skip. intros k Hk.
  by rewrite obj_has_keys, bool_decide_eq_true_2.
Qed.

(** X14: An element that had no props and gets some cannot be patched: the first
    loop reads the old value of the first new prop from [undefined], before
    any call of the platform. *)
Theorem patchElement_gaining_props_throws (n1 n2 : vnode) (k : string) (v : value)
    (p : obj) (s : state) :
  props n1 = None → props n2 = Some ((k, v) :: p) →
  patchElement lis strict P U n1 n2 s = (Throw (read_of_undefined k), s).
Proof.
  intros H1 H2. unfold patchElement. cbn [props set_el]. by rewrite H1, H2.
Qed.

(** X15: An element that had props and loses them all cannot be patched either:
    the second loop tests [key in undefined] for the first old prop. *)
Theorem patchElement_losing_props_throws (n1 n2 : vnode) (k : string) (v : value)
    (p : obj) (s : state) :
  props n1 = Some ((k, v) :: p) → props n2 = None →
  patchElement lis strict P U n1 n2 s = (Throw in_undefined, s).
Proof.
  intros H1 H2. unfold patchElement. cbn [props set_el]. by rewrite H1, H2.
Qed.

End ElementFacts.

Lemma patchElement_same_props_witness :
  patchElement no_lis false (patch no_lis false no_document no_components 1)
               (unmount 1)
               (set_el (Some 1) (li 1 "a")) (li 1 "b") page =
  patchChildren no_lis false (patch no_lis false no_document no_components 1)
                (unmount 1)
                (set_el (Some 1) (li 1 "a")) (set_el (Some 1) (li 1 "b")) (Some 1) page.
Proof.
  apply (patchElement_same_props no_lis false
           (patch no_lis false no_document no_components 1)
           (unmount 1)
           (set_el (Some 1) (li 1 "a")) (li 1 "b") page).
  reflexivity.
Defined.

Lemma patchElement_gaining_props_throws_witness :
  patchElement no_lis false (patch no_lis false no_document no_components 1)
               (unmount 1)
               (set_el (Some 1) (li 1 "a"))
               (createVNode (TString "li") (VNum 1) (Some [("id", VStr "x")]) (TextChildren "a"))
               page =
  (Throw (read_of_undefined "id"), page).
Proof.
  apply (patchElement_gaining_props_throws no_lis false
           (patch no_lis false no_document no_components 1)
           (unmount 1)
           (set_el (Some 1) (li 1 "a"))
           (createVNode (TString "li") (VNum 1) (Some [("id", VStr "x")]) (TextChildren "a"))
           "id" (VStr "x") [] page).
  - reflexivity.
  - reflexivity.
Defined.

Lemma patchElement_losing_props_throws_witness :
  patchElement no_lis false (patch no_lis false no_document no_components 1)
               (unmount 1)
               (createVNode (TString "li") (VNum 1) (Some [("id", VStr "x")]) (TextChildren "a"))
               (li 1 "a") page =
  (Throw in_undefined, page).
Proof.
  apply (patchElement_losing_props_throws no_lis false
           (patch no_lis false no_document no_components 1)
           (unmount 1)
           (createVNode (TString "li") (VNum 1) (Some [("id", VStr "x")]) (TextChildren "a"))
           (li 1 "a") "id" (VStr "x") [] page).
  - reflexivity.
  - reflexivity.
Defined.

(** *** Vnodes that [unmount] cannot take down *)

Section UnmountFacts.
Context (lis : list Z → list Z) (strict : bool) (querySelector : string → option handle).
Context (mountComponent : vnode → option handle → option handle → M state nat).

Local Abbreviation patch := (patch lis strict querySelector mountComponent).

(** X16: A Teleport that was mounted cannot be unmounted: [process] never sets
    [vnode.component], and [unmount] takes the vnode for a component and reads
    the subtree of its instance. *)
Theorem mounted_Teleport_cannot_be_unmounted (fuel fuel' : nat) (o : options)
    (n2 : vnode) (c a : option handle) (s s' : state) (v : vnode) :
  type n2 = TObject o → o_isTeleport o = true →
  component n2 = None → shouldKeepAlive n2 = false →
  patch fuel None n2 c a s = (Ok v, s') →
  unmount (S fuel') v s' = (Throw (read_of_undefined "subTree"), s').
Proof.
  intros Hty Htp Hc Hk Hrun. destruct fuel as [|fuel]; [done|].
  simpl in Hrun. unfold patch_step in Hrun. inv_run. rewrite Hty, Htp in Hrun.
  unfold Teleport_process in Hrun. inv_run.
  simpl. unfold unmount_step. cbn [type shouldKeepAlive set_children].
  rewrite Hty, Hk. unfold component_subTree. cbn [component set_children].
  by rewrite Hc.
Qed.

(** X17: Nor can a comment or a function component: mounting leaves their [el]
    undefined, and [unmount], which takes only option objects for components,
    reads the parent of [vnode.el]. *)
Theorem vnode_without_el_cannot_be_unmounted (fuel fuel' : nat) (n2 : vnode)
    (c a : option handle) (s s' : state) (v : vnode) :
  type n2 = TComment ∨ (∃ f p, type n2 = TFunction f p) → el n2 = None →
  patch fuel None n2 c a s = (Ok v, s') →
  unmount (S fuel') v s' = (Throw (read_of_undefined "parentNode"), s').
Proof.
  intros Hty Hel Hrun. destruct fuel as [|fuel]; [done|].
  simpl in Hrun. unfold patch_step in Hrun. inv_run.
  assert (Hv : type v = type n2 ∧ el v = None).
  { destruct Hty as [Hty|(f & p & Hty)]; rewrite Hty in Hrun.
    - by inv_run.
    - destruct (keptAlive n2); inv_run; done. }
  destruct Hv as [Htv Hev]. simpl. unfold unmount_step. rewrite Htv, Hev.
  by destruct Hty as [->|(f & p & ->)].
Qed.

(** X18: Unmounting a component that KeepAlive holds moves the root of its subtree
    into the hidden container, and mounting it again as a kept vnode moves that
    same node into the container given: no node is created or removed, and no
    instance changes. *)
Theorem kept_alive_round_trip (fuel fuel' : nat) (vn : vnode) (o : options)
    (ka c : nat) (kai ci : instance) (storage node cont : handle) (subTree : vnode)
    (anchor : option handle) (s : state) :
  type vn = TObject o → o_isTeleport o = false → shouldKeepAlive vn = true →
  keepAliveInstance vn = Some ka → instances s !! ka = Some kai →
  i_storage kai = Some storage →
  component vn = Some c → instances s !! c = Some ci →
  i_subTree ci = Some subTree → el subTree = Some node →
  ∃ s1 s2,
    unmount (S fuel) vn s = (Ok tt, s1) ∧
    patch (S fuel') None (set_keptAlive true vn) (Some cont) anchor s1
      = (Ok (set_keptAlive true vn), s2) ∧
    parentNode s1 !! node = Some storage ∧
    parentNode s2 !! node = Some cont ∧
    next_handle s2 = next_handle s ∧
    instances s2 = instances s ∧
    log s2 = log s ++ [Insert (Some node) (Some storage) None;
                       Insert (Some node) (Some cont) anchor].
Proof.
  intros Hty Htp Hk Hka Hkai Hst Hc Hci Hsub Hel.
  eexists _, _. split_and!.
  - simpl. unfold unmount_step. rewrite Hty, Hk. unfold deActivate. rewrite Hka.
    rewrite (bind_run _ _ _ _ _ (get_instance_run _ _ _ _ Hkai)), Hst.
    unfold keepAlive_move, component_el, component_subTree. rewrite Hc.
    erewrite bind_run; [|erewrite bind_run;
      [|erewrite bind_run; [reflexivity|by apply get_instance_run]]; by rewrite Hsub].
    rewrite Hel. reflexivity.
  - simpl. unfold patch_step. cbn [type keptAlive set_keptAlive bind ret].
    rewrite Hty, Htp.
    match goal with
    | |- bind _ _ ?s1 = _ =>
        assert (Hact : activate (set_keptAlive true vn) (Some cont) anchor s1
                       = insert (el subTree) (Some cont) anchor s1)
          by (by eapply activate_run)
    end.
    unfold bind at 1. rewrite Hact, Hel. reflexivity.
  - simpl. by rewrite lookup_insert_eq.
  - simpl. by rewrite lookup_insert_eq.
  - done.
  - done.
  - simpl. by rewrite <- app_assoc.
Qed.

End UnmountFacts.

Lemma mounted_Teleport_cannot_be_unmounted_witness :
  ∃ v s',
    patch no_lis false no_document no_components 3 None
      (createVNode Teleport VUndefined (Some [("to", VRef 0)]) (ArrayChildren [li 1 "a"]))
      (Some 0) None page = (Ok v, s') ∧
    unmount 1 v s'
      = (Throw (read_of_undefined "subTree"), s').
Proof.
  eexists _, _. split; [vm_compute; reflexivity|].
  apply (mounted_Teleport_cannot_be_unmounted no_lis false no_document no_components
           3 0 {| o_id := 1; o_isTeleport := true; o_isKeepAlive := false;
                  o_name := None; o_props := None |}
           (createVNode Teleport VUndefined (Some [("to", VRef 0)]) (ArrayChildren [li 1 "a"]))
           (Some 0) None page).
  - reflexivity.
  - reflexivity.
  - reflexivity.
  - reflexivity.
  - reflexivity.
Defined.

Lemma vnode_without_el_cannot_be_unmounted_witness :
  unmount 1
    (createVNode TComment VUndefined None (TextChildren "note")) page
  = (Throw (read_of_undefined "parentNode"), page).
Proof.
  apply (vnode_without_el_cannot_be_unmounted no_lis false no_document no_components
           1 0 (createVNode TComment VUndefined None (TextChildren "note"))
           (Some 0) None page page).
  - by left.
  - reflexivity.
  - reflexivity.
Defined.

Lemma kept_alive_round_trip_witness :
  ∃ s1 s2,
    unmount 1
      (set_keepAliveInstance (Some 0)
         (set_shouldKeepAlive true (set_component (Some 1) (child "a"))))
      keepalive_page = (Ok tt, s1) ∧
    patch no_lis false no_document no_components 1 None
      (set_keptAlive true
         (set_keepAliveInstance (Some 0)
            (set_shouldKeepAlive true (set_component (Some 1) (child "a")))))
      (Some 0) None s1
      = (Ok (set_keptAlive true
               (set_keepAliveInstance (Some 0)
                  (set_shouldKeepAlive true (set_component (Some 1) (child "a"))))), s2) ∧
    parentNode s1 !! 6 = Some 5 ∧
    parentNode s2 !! 6 = Some 0 ∧
    next_handle s2 = next_handle keepalive_page ∧
    instances s2 = instances keepalive_page ∧
    log s2 = log keepalive_page ++ [Insert (Some 6) (Some 5) None;
                                    Insert (Some 6) (Some 0) None].
Proof.
  apply (kept_alive_round_trip no_lis false no_document no_components 0 0
           (set_keepAliveInstance (Some 0)
              (set_shouldKeepAlive true (set_component (Some 1) (child "a"))))
           {| o_id := 7; o_isTeleport := false; o_isKeepAlive := false;
              o_name := Some "Child"; o_props := Some ["title"] |}
           0 1
           (Instance [] None true [] true (Some 5) {[ 7 := 20 ]})
           (Instance [("title", VStr "a")] (Some kept_subTree) true [] false None ∅)
           5 6 0 kept_subTree None keepalive_page).
  - reflexivity.
  - reflexivity.
  - reflexivity.
  - reflexivity.
  - reflexivity.
  - reflexivity.
  - reflexivity.
  - reflexivity.
  - reflexivity.
  - reflexivity.
Defined.

(** *** The renderer copy of [component/queueJob.js] *)

(** X19: In that copy [unmount] has no [return] after the loop over the children
    of a Fragment.  A Fragment has no [el] ([patch] gives it none), so
    unmounting one never returns normally: once its children are unmounted the
    read of the parent of [vnode.el] throws. *)
Theorem QueueJobRenderer_unmount_of_Fragment_throws (vn : vnode) (fuel : nat) (s : state) :
  type vn = TFragment → el vn = None →
  ¬ is_ok (QueueJobRenderer.unmount fuel vn s).1 ∧
  ∀ cs s', children vn = ArrayChildren cs →
           forEach (QueueJobRenderer.unmount fuel) cs s = (Ok tt, s') →
           QueueJobRenderer.unmount (S fuel) vn s
             = (Throw (read_of_undefined "parentNode"), s').
Proof.
  intros Hty Hel. split.
  - destruct fuel as [|fuel]; simpl; [tauto|]. rewrite Hty, Hel.
    apply bind_not_ok. intros. simpl. tauto.
  - intros cs s' Hcs Hrun. simpl. rewrite Hty, Hel, Hcs.
    erewrite bind_run; [reflexivity|]. erewrite bind_run; [exact Hrun|]. reflexivity.
Qed.

Lemma QueueJobRenderer_unmount_of_Fragment_throws_witness :
  ¬ is_ok (QueueJobRenderer.unmount 2
             (createVNode TFragment VUndefined None
                (ArrayChildren [set_el (Some 1) (li 1 "a")])) page).1 ∧
  ∀ cs s', children (createVNode TFragment VUndefined None
                       (ArrayChildren [set_el (Some 1) (li 1 "a")]))
             = ArrayChildren cs →
           forEach (QueueJobRenderer.unmount 2) cs page = (Ok tt, s') →
           QueueJobRenderer.unmount 3
             (createVNode TFragment VUndefined None
                (ArrayChildren [set_el (Some 1) (li 1 "a")])) page
             = (Throw (read_of_undefined "parentNode"), s').
Proof.
  apply (QueueJobRenderer_unmount_of_Fragment_throws
           (createVNode TFragment VUndefined None
              (ArrayChildren [set_el (Some 1) (li 1 "a")])) 2 page).
  - reflexivity.
  - reflexivity.
Defined.

(** *** The render function of KeepAlive *)

(** X20: The render function of KeepAlive returns the vnode the slot gave it and
    touches no platform node.  It never drops or replaces an entry of the
    cache: the cache of the KeepAlive instance can only grow, and nothing else
    of any instance changes; of the vnode objects only the slot's is written. *)
Theorem KeepAlive_render_only_adds (ka : nat) (include exclude : option (string → bool))
    (rawVNode : nat) (s s' : state) (r : nat) :
  KeepAlive_render ka include exclude rawVNode s = (Ok r, s') →
  r = rawVNode ∧
  next_handle s' = next_handle s ∧ parentNode s' = parentNode s ∧ log s' = log s ∧
  (∀ a, a ≠ ka → instances s' !! a = instances s !! a) ∧
  (∀ kai, instances s !! ka = Some kai →
     ∃ cache, instances s' !! ka = Some (set_i_cache cache kai) ∧ i_cache kai ⊆ cache) ∧
  (∀ a, a ≠ rawVNode → heap s' !! a = heap s !! a).
Proof.
  assert (Hsame : ∀ kai : instance, set_i_cache (i_cache kai) kai = kai) by (by intros []).
  unfold KeepAlive_render. intros H. apply bind_ok in H as (raw & s0 & Hload & H).
  unfold load in Hload. destruct (heap s !! rawVNode) as [raw0|] eqn:Hraw; [|done].
  injection Hload as <- <-.
  assert (Hnothing : (Ok rawVNode, s) = (Ok r, s') →
    r = rawVNode ∧
    next_handle s' = next_handle s ∧ parentNode s' = parentNode s ∧ log s' = log s ∧
    (∀ a, a ≠ ka → instances s' !! a = instances s !! a) ∧
    (∀ kai, instances s !! ka = Some kai →
       ∃ cache, instances s' !! ka = Some (set_i_cache cache kai) ∧ i_cache kai ⊆ cache) ∧
    (∀ a, a ≠ rawVNode → heap s' !! a = heap s !! a)).
  { intros [= <- <-]. split_and!; try done. intros kai Hkai.
    exists (i_cache kai). by rewrite Hsame. }
  destruct (type raw0) as [| | | |o|] eqn:Hty; try (by apply Hnothing).
  destruct (rejected include exclude (o_name o)); [by apply Hnothing|].
  clear Hnothing.
  apply bind_ok in H as (kinst & s0 & Hget & H).
  unfold get_instance in Hget. destruct (instances s !! ka) as [kai0|] eqn:Hkai; [|done].
  injection Hget as <- <-.
  apply bind_ok in H as ([] & s1 & Hcache & H).
  apply bind_ok in H as (raw1 & s2 & Hload & H).
  unfold load in Hload. destruct (heap s1 !! rawVNode) as [raw2|] eqn:Hraw1; [|done].
  injection Hload as <- <-.
  apply bind_ok in H as ([] & s3 & Hstore & H). injection H as <- <-.
  unfold store, modify in Hstore. injection Hstore as <-.
  destruct (i_cache kai0 !! o_id o) as [cachedVNode|] eqn:Hc.
  - apply bind_ok in Hcache as (cached & s0 & Hload & Hstore).
    unfold load in Hload. destruct (heap s !! cachedVNode); [|done].
    injection Hload as <- <-. unfold store, modify in Hstore. injection Hstore as <-.
    simpl. split_and!; try done.
    + intros kai [= <-]. exists (i_cache kai0). by rewrite Hsame.
    + intros a Ha. by rewrite !lookup_insert_ne.
  - unfold modify in Hcache. injection Hcache as <-. simpl. split_and!; try done.
    + intros a Ha. by rewrite lookup_alter_ne.
    + intros kai [= <-]. exists (<[o_id o := rawVNode]> (i_cache kai0)).
      rewrite lookup_alter_eq, Hkai. split; [done|]. by apply insert_subseteq.
    + intros a Ha. by rewrite lookup_insert_ne.
Qed.

Lemma KeepAlive_render_only_adds_witness :
  ∃ r s',
    KeepAlive_render 0 None None 21 keepalive_page = (Ok r, s') ∧
    r = 21 ∧
    next_handle s' = next_handle keepalive_page ∧
    parentNode s' = parentNode keepalive_page ∧ log s' = log keepalive_page ∧
    (∀ a, a ≠ 0 → instances s' !! a = instances keepalive_page !! a) ∧
    (∀ kai, instances keepalive_page !! 0 = Some kai →
       ∃ cache, instances s' !! 0 = Some (set_i_cache cache kai) ∧ i_cache kai ⊆ cache) ∧
    (∀ a, a ≠ 21 → heap s' !! a = heap keepalive_page !! a).
Proof.
  eexists _, _. split; [vm_compute; reflexivity|].
  apply (KeepAlive_render_only_adds 0 None None 21 keepalive_page). reflexivity.
Defined.

End RendererMoreFacts.
(** ** The browser adapter *)

Module PlatformFacts.
Import Renderer ComponentFacts Context Platform.

Section AdapterFacts.
Context (toLowerCase : string → string).

Local Abbreviation patchProps := (patchProps toLowerCase).
Local Abbreviation patchProps_all := (patchProps_all toLowerCase).

Local Abbreviation listener := (listener toLowerCase).

Lemma patchProps_keeps_invoker now el key prev next k :
  is_Some (vei el !! k) → is_Some (vei (patchProps now el key prev next) !! k).
Proof.
  intros Hk. unfold Platform.patchProps.
  destruct (String.prefix "on" key).
  - destruct (vei el !! key) as [inv|] eqn:Hinv; destruct (truthy next); simpl; try done.
    + destruct (decide (key = k)) as [->|]; [by rewrite lookup_insert_eq|].
      by rewrite lookup_insert_ne.
    + destruct (decide (key = k)) as [->|]; [by rewrite lookup_insert_eq|].
      by rewrite lookup_insert_ne.
  - case_bool_decide; [done|]. by destruct (shouldSetAsProps el key).
Qed.

Lemma patchProps_keeps_unregistered now el key prev next k :
  is_Some (vei el !! k) → listener k ∉ listeners el →
  listener k ∉ listeners (patchProps now el key prev next).
Proof.
  intros Hk Hl. unfold Platform.patchProps.
  destruct (String.prefix "on" key).
  - destruct (vei el !! key) as [inv|] eqn:Hinv; destruct (truthy next); simpl; try done.
    + intros [_ H]%list_elem_of_filter. done.
    + unfold addEventListener. case_bool_decide; [done|].
      intros [Hin|Hin%list_elem_of_singleton]%elem_of_app; [done|].
      injection Hin as _ He. subst key. rewrite Hinv in Hk. by destruct Hk.
  - case_bool_decide; [done|]. by destruct (shouldSetAsProps el key).
Qed.

Lemma patchProps_all_keeps_unregistered calls : ∀ el k,
  is_Some (vei el !! k) → listener k ∉ listeners el →
  listener k ∉ listeners (patchProps_all el calls).
Proof.
  induction calls as [|[[[now key] prev] next] calls IH]; intros el k Hk Hl; [done|].
  simpl. apply IH.
  - by apply patchProps_keeps_invoker.
  - by apply patchProps_keeps_unregistered.
Qed.

(** X21: Once the handler of an event prop has been removed, no later call of
    [patchProps] on the element brings its listener back: the invoker stays in
    [_vei], so a new handler is only stored in it, and nothing registers the
    invoker again. *)
Theorem removed_listener_is_never_registered_again (el : element) (key : string)
    (now : Z) (prev next : value) (calls : list (Z * string * value * value)) :
  String.prefix "on" key = true → is_Some (vei el !! key) → truthy next = false →
  listener key ∉ listeners (patchProps_all (patchProps now el key prev next) calls).
Proof.
  intros Hon Hk Hnext. apply patchProps_all_keeps_unregistered.
  - by apply patchProps_keeps_invoker.
  - unfold Platform.patchProps. rewrite Hon. destruct Hk as [inv ->]. rewrite Hnext.
    simpl. intros [H _]%list_elem_of_filter. done.
Qed.

(** X22: [form] on an [INPUT] is always set as an attribute, also when the element
    has a DOM property of that name. *)
Theorem form_of_an_input_is_set_as_attribute (el : element) (now : Z) (prev next : value) :
  tagName el = "INPUT"%string →
  properties (patchProps now el "form" prev next) = properties el ∧
  obj_lookup (attributes (patchProps now el "form" prev next)) "form" = Some next.
Proof.
  intros Htag. unfold Platform.patchProps, shouldSetAsProps. rewrite Htag. simpl.
  split; [done|]. rewrite obj_lookup_own_set. by rewrite bool_decide_eq_true_2.
Qed.

End AdapterFacts.

Lemma removed_listener_is_never_registered_again_witness :
  listener as_is "onClick" ∉
  listeners
    (patchProps_all as_is
       (patchProps as_is 1 (patchProps as_is 0 (blank "button") "onClick" VNull (VRef 1))
                   "onClick" (VRef 1) VNull)
       [(2%Z, "onClick"%string, VNull, VRef 2)]).
Proof.
  apply (removed_listener_is_never_registered_again as_is
           (patchProps as_is 0 (blank "button") "onClick" VNull (VRef 1))
           "onClick" 1 (VRef 1) VNull [(2%Z, "onClick"%string, VNull, VRef 2)]).
  - reflexivity.
  - vm_compute. eauto.
  - reflexivity.
Defined.

Lemma form_of_an_input_is_set_as_attribute_witness :
  properties (patchProps as_is 0 (Element "INPUT" ∅ [] (VStr "") [("form", VNull)] [])
                         "form" VNull (VStr "f"))
    = [("form", VNull)] ∧
  obj_lookup
    (attributes (patchProps as_is 0 (Element "INPUT" ∅ [] (VStr "") [("form", VNull)] [])
                            "form" VNull (VStr "f"))) "form" = Some (VStr "f").
Proof.
  apply (form_of_an_input_is_set_as_attribute as_is
           (Element "INPUT" ∅ [] (VStr "") [("form", VNull)] []) 0 VNull (VStr "f")).
  reflexivity.
Defined.

(** A handler is bound, removed and bound again: the element ends up with the
    new handler in [_vei] and without any listener. *)
Example rebound_handler_is_not_listening :
  let el := patchProps_all as_is (blank "button")
              [(0%Z, "onClick"%string, VNull, VRef 1);
               (1%Z, "onClick"%string, VRef 1, VNull);
               (2%Z, "onClick"%string, VNull, VRef 2)] in
  inv_value <$> vei el !! "onClick"%string = Some (VRef 2) ∧ listeners el = [].
Proof. vm_compute. done. Qed.

End PlatformFacts.

(** ** [throttle] *)

Module ThrottleFacts.
Import Throttle.

Lemma applied_spaced (delay : Z) (nows : list Z) : ∀ lastTime,
  (∀ a, applied delay lastTime nows !! 0 = Some a → (delay ≤ a - lastTime)%Z) ∧
  (∀ i a b, applied delay lastTime nows !! i = Some a →
            applied delay lastTime nows !! S i = Some b → (delay ≤ b - a)%Z).
Proof.
  induction nows as [|now rest IH]; intros lastTime; [done|].
  simpl. unfold call. destruct (Z.leb_spec delay (now - lastTime)) as [Hgo|Hno].
  - destruct (IH now) as [IH0 IHS]. split.
    + by intros a [= <-].
    + intros [|i] a b; simpl.
      * intros [= <-]. apply IH0.
      * apply IHS.
  - apply IH.
Qed.

Lemma applied_sublist (delay : Z) (nows : list Z) : ∀ lastTime,
  sublist (applied delay lastTime nows) nows.
Proof.
  induction nows as [|now rest IH]; intros lastTime; [done|].
  simpl. unfold call. destruct (delay <=? now - lastTime)%Z.
  - by apply sublist_skip.
  - by apply sublist_cons.
Qed.

(** X23: The calls that a throttled function lets through: they are calls that
    were made, in order; the first comes at a clock reading of at least
    [delay], and between any one and the next at least [delay] has passed,
    whatever the clock does. *)
Theorem throttle_spaces_the_calls (delay : Z) (nows : list Z) :
  sublist (throttle delay nows) nows ∧
  (∀ a, throttle delay nows !! 0 = Some a → (delay ≤ a)%Z) ∧
  (∀ i a b, throttle delay nows !! i = Some a → throttle delay nows !! S i = Some b →
            (delay ≤ b - a)%Z).
Proof.
  unfold throttle. destruct (applied_spaced delay nows 0) as [H0 HS]. split_and!.
  - apply applied_sublist.
  - intros a Ha. specialize (H0 a Ha). lia.
  - exact HS.
Qed.

End ThrottleFacts.
(** ** Mounting and unmounting trees of platform nodes *)

Module MountFacts.
Import Renderer RendererFacts ComponentFacts StructuralFacts Trees.

Lemma extends_refl s : extends s s.
Proof.
  unfold extends. split_and!; try done. exists []. by rewrite app_nil_r.
Qed.

Lemma extends_trans s1 s2 s3 : extends s1 s2 → extends s2 s3 → extends s1 s3.
Proof.
  intros (Hn1 & (evs1 & Hl1 & Hb1) & Hi1 & Hc1 & Hh1 & Hr1)
         (Hn2 & (evs2 & Hl2 & Hb2) & Hi2 & Hc2 & Hh2 & Hr2).
  unfold extends. split_and!; try congruence; [lia|].
  exists (evs1 ++ evs2). rewrite Hl2, Hl1, <- app_assoc. split; [done|].
  by rewrite forallb_app, Hb1, Hb2.
Qed.

Lemma extends_log e s :
  builds e = true → extends s (set_log (log s ++ [e]) s).
Proof.
  intros He. unfold extends; simpl. split_and!; try done.
  exists [e]. simpl. by rewrite He.
Qed.

Lemma extends_parentNode pn s : extends s (set_parentNode pn s).
Proof.
  unfold extends; simpl. split_and!; try done. exists []. by rewrite app_nil_r.
Qed.

Lemma createElement_extends tag s :
  ∃ s', createElement tag s = (Ok (next_handle s), s') ∧ extends s s' ∧
        next_handle s' = S (next_handle s) ∧ parentNode s' = parentNode s.
Proof.
  eexists. split; [reflexivity|]. simpl. split_and!; try done.
  unfold extends; simpl. split_and!; try done; [lia|].
  by exists [CreateElement tag (next_handle s)].
Qed.

Lemma createText_extends text s :
  ∃ s', createText text s = (Ok (next_handle s), s') ∧ extends s s' ∧
        next_handle s' = S (next_handle s) ∧ parentNode s' = parentNode s.
Proof.
  eexists. split; [reflexivity|]. simpl. split_and!; try done.
  unfold extends; simpl. split_and!; try done; [lia|].
  by exists [CreateText text (next_handle s)].
Qed.

Lemma setElementText_extends node text s :
  ∃ s', setElementText (Some node) text s = (Ok tt, s') ∧ extends s s'.
Proof.
  eexists. split; [reflexivity|]. simpl.
  eapply extends_trans; [by apply (extends_log (SetElementText (Some node) text))|].
  apply extends_parentNode.
Qed.

Lemma insert_extends node container anchor s :
  ∃ s', insert (Some node) (Some container) anchor s = (Ok tt, s') ∧ extends s s' ∧
        parentNode s' !! node = Some container.
Proof.
  eexists. split; [reflexivity|]. simpl. split.
  - eapply extends_trans;
      [by apply (extends_log (Insert (Some node) (Some container) anchor))|].
    apply extends_parentNode.
  - by rewrite lookup_insert_eq.
Qed.

Lemma patchProps_extends node (p : obj) (keys : list string) : ∀ s,
  ∃ s', forEach (λ key, patchProps (Some node) key VNull (obj_get p key)) keys s = (Ok tt, s') ∧
        extends s s'.
Proof.
  induction keys as [|k keys IH]; intros s.
  - exists s. split; [done|apply extends_refl].
  - simpl.
    change (patchProps (Some node) k VNull (obj_get p k))
      with (emit (PatchProps (Some node) k VNull (obj_get p k))).
    unfold emit at 1, modify at 1, bind at 1.
    destruct (IH (set_log (log s ++ [PatchProps (Some node) k VNull (obj_get p k)]) s))
      as (s' & Hrun & Hext).
    exists s'. split; [done|]. eapply extends_trans; [|exact Hext].
    by apply extends_log.
Qed.

Lemma patchProps_parentNode node (p : obj) (keys : list string) : ∀ s s',
  forEach (λ key, patchProps (Some node) key VNull (obj_get p key)) keys s = (Ok tt, s') →
  parentNode s' = parentNode s.
Proof.
  induction keys as [|k keys IH]; intros s s' Hrun.
  - by injection Hrun as <-.
  - simpl in Hrun.
    change (patchProps (Some node) k VNull (obj_get p k))
      with (emit (PatchProps (Some node) k VNull (obj_get p k))) in Hrun.
    unfold emit at 1, modify at 1, bind at 1 in Hrun.
    by apply IH in Hrun.
Qed.

Lemma keeps_below_refl b s : keeps_below b s s.
Proof. by intros n p. Qed.

Lemma keeps_below_trans b s1 s2 s3 :
  keeps_below b s1 s2 → keeps_below b s2 s3 → keeps_below b s1 s3.
Proof. intros H1 H2 n p Hn Hp H. apply H2; auto. Qed.

Lemma keeps_below_same b s s' : parentNode s' = parentNode s → keeps_below b s s'.
Proof. intros Heq n p _ _. by rewrite Heq. Qed.

Lemma setElementText_keeps b node text s r s' :
  b ≤ node → setElementText (Some node) text s = (r, s') → keeps_below b s s'.
Proof.
  intros Hb [= _ <-] n p Hn Hp Hl. simpl.
  apply map_lookup_filter_Some. split; [done|]. simpl. lia.
Qed.

Lemma insert_keeps b node c a s r s' :
  b ≤ node → insert (Some node) c a s = (r, s') → keeps_below b s s'.
Proof.
  intros Hb Hrun n p Hn Hp Hl. destruct c as [q|]; injection Hrun as _ <-; simpl; [|done].
  rewrite lookup_insert_ne; [done|lia].
Qed.

Section Mount.
Context (lis : list Z → list Z) (strict : bool) (querySelector : string → option handle).
Context (mountComponent : vnode → option handle → option handle → M state nat).

Local Abbreviation patch := (patch lis strict querySelector mountComponent).
Local Abbreviation render := (render lis strict querySelector mountComponent).

Lemma mount_children (d : nat) (c : handle) (a : option handle) :
  (∀ v s, plain d v = true →
          ∃ v' s', patch d None v (Some c) a s = (Ok v', s') ∧ extends s s') →
  ∀ l s, forallb (plain d) l = true →
         ∃ l' s', mapM (λ ch, patch d None ch (Some c) a) l s = (Ok l', s') ∧ extends s s'.
Proof.
  intros IH. induction l as [|v l IHl]; intros s Hl.
  - exists [], s. split; [done|apply extends_refl].
  - simpl in Hl. apply andb_true_iff in Hl as [Hv Hl].
    destruct (IH v s Hv) as (v' & s1 & Hrun & Hext).
    destruct (IHl s1 Hl) as (l' & s2 & Hrun' & Hext').
    exists (v' :: l'), s2. split; [|by eapply extends_trans].
    simpl. rewrite (bind_run _ _ _ _ _ Hrun), (bind_run _ _ _ _ _ Hrun'). done.
Qed.

Lemma mount_plain (d : nat) : ∀ (v : vnode) (c : handle) (a : option handle) (s : state),
  plain d v = true →
  ∃ v' s', patch d None v (Some c) a s = (Ok v', s') ∧ extends s s' ∧
           (single v = true →
            el v' = Some (next_handle s) ∧ next_handle s < next_handle s' ∧
            parentNode s' !! next_handle s = Some c).
Proof.
  induction d as [|d IH]; intros v c a s Hv; [done|].
  simpl in Hv. simpl. unfold patch_step, single. cbn [bind ret].
  destruct (type v) as [tag| | | |o|f fp] eqn:Hty; try done.
  - (* an element *)
    unfold mountElement.
    destruct (createElement_extends tag s) as (s1 & Hrun1 & Hext1 & Hn1 & Hp1).
    rewrite (bind_run _ _ _ _ _ Hrun1). cbn [children set_el props set_children].
    assert (Hcs : ∃ cs s2,
      (match children v with
       | TextChildren text =>
           setElementText (Some (next_handle s)) (TextChildren text) ;;; ret (children v)
       | ArrayChildren l =>
           let! l' := mapM (λ child, patch d None child (Some (next_handle s)) None) l in
           ret (ArrayChildren l')
       | NoChildren => ret (children v)
       end) s1 = (Ok cs, s2) ∧ extends s1 s2).
    { destruct (children v) as [|text|l].
      - exists NoChildren, s1. split; [done|apply extends_refl].
      - destruct (setElementText_extends (next_handle s) (TextChildren text) s1)
          as (s2 & Hrun2 & Hext2).
        exists (TextChildren text), s2. split; [|done].
        by rewrite (bind_run _ _ _ _ _ Hrun2).
      - destruct (mount_children d (next_handle s) None) with (l := l) (s := s1)
          as (l' & s2 & Hrun2 & Hext2); [|done|].
        + intros v0 s0 Hv0. destruct (IH v0 (next_handle s) None s0 Hv0)
            as (v' & s' & ? & ? & _). eauto.
        + exists (ArrayChildren l'), s2. split; [|done].
          by rewrite (bind_run _ _ _ _ _ Hrun2). }
    destruct Hcs as (cs & s2 & Hrun2 & Hext2).
    rewrite (bind_run _ _ _ _ _ Hrun2).
    assert (Hprops : ∃ s3,
      (match props v with
       | Some p => forEach (λ key, patchProps (Some (next_handle s)) key VNull (obj_get p key))
                           (obj_keys p)
       | None => ret tt
       end) s2 = (Ok tt, s3) ∧ extends s2 s3).
    { destruct (props v) as [p|]; [apply patchProps_extends|].
      exists s2. split; [done|apply extends_refl]. }
    destruct Hprops as (s3 & Hrun3 & Hext3).
    rewrite (bind_run _ _ _ _ _ Hrun3).
    destruct (insert_extends (next_handle s) c a s3) as (s4 & Hrun4 & Hext4 & Hpar).
    rewrite (bind_run _ _ _ _ _ Hrun4).
    eexists _, s4. split; [reflexivity|]. split.
    + eapply extends_trans; [exact Hext1|]. eapply extends_trans; [exact Hext2|].
      eapply extends_trans; [exact Hext3|exact Hext4].
    + intros _. split_and!; [done| |done].
      destruct Hext2 as [? _], Hext3 as [? _], Hext4 as [? _]. lia.
  - (* a text node *)
    destruct (createText_extends (children v) s) as (s1 & Hrun1 & Hext1 & Hn1 & Hp1).
    rewrite (bind_run _ _ _ _ _ Hrun1).
    destruct (insert_extends (next_handle s) c None s1) as (s2 & Hrun2 & Hext2 & Hpar).
    rewrite (bind_run _ _ _ _ _ Hrun2).
    eexists _, s2. split; [reflexivity|]. split.
    + by eapply extends_trans.
    + intros _. split_and!; [done| |done].
      destruct Hext2 as [? _]. lia.
  - (* a fragment *)
    destruct (children v) as [|text|l] eqn:Hch; try done.
    destruct (mount_children d c None) with (l := l) (s := s)
      as (l' & s2 & Hrun2 & Hext2); [|done|].
    + intros v0 s0 Hv0. destruct (IH v0 c None s0 Hv0) as (v' & s' & ? & ? & _). eauto.
    + cbn [children_array bind ret]. rewrite (bind_run _ _ _ _ _ Hrun2).
      eexists _, s2. split; [reflexivity|]. split; [done|]. done.
Qed.

Lemma mount_plain_grows (d : nat) (v : vnode) (c : handle) (a : option handle)
    (s : state) v' s' :
  plain d v = true → patch d None v (Some c) a s = (Ok v', s') →
  next_handle s ≤ next_handle s'.
Proof.
  intros Hv Hrun. destruct (mount_plain d v c a s Hv) as (v1 & s1 & Hrun1 & [Hn _] & _).
  rewrite Hrun in Hrun1. by injection Hrun1 as _ <-.
Qed.

Lemma mount_children_keeps (d : nat) (c : handle) (a : option handle) (b : handle) :
  (∀ v s v' s', plain d v = true → b ≤ next_handle s →
                patch d None v (Some c) a s = (Ok v', s') → keeps_below b s s') →
  ∀ l s l' s', forallb (plain d) l = true → b ≤ next_handle s →
               mapM (λ ch, patch d None ch (Some c) a) l s = (Ok l', s') → keeps_below b s s'.
Proof.
  intros IH. induction l as [|v l IHl]; intros s l' s' Hl Hb Hrun.
  - injection Hrun as _ <-. apply keeps_below_refl.
  - simpl in Hl, Hrun. apply andb_true_iff in Hl as [Hv Hl].
    apply bind_ok in Hrun as (v1 & s1 & Hrun1 & Hrun).
    apply bind_ok in Hrun as (l1 & s2 & Hrun2 & Hrun). injection Hrun as _ <-.
    eapply keeps_below_trans; [by eapply IH|].
    eapply IHl; [done| |exact Hrun2].
    apply mount_plain_grows in Hrun1; [lia|done].
Qed.

Lemma mount_plain_keeps (d : nat) :
  ∀ (v : vnode) (c : handle) (a : option handle) (s : state) v' s' b,
  plain d v = true → b ≤ next_handle s →
  patch d None v (Some c) a s = (Ok v', s') → keeps_below b s s'.
Proof.
  induction d as [|d IH]; intros v c a s v' s' b Hv Hb Hrun; [done|].
  simpl in Hv, Hrun. unfold patch_step in Hrun. cbn [bind ret] in Hrun.
  destruct (type v) as [tag| | | |o|f fp] eqn:Hty; try done.
  - unfold mountElement in Hrun.
    apply bind_ok in Hrun as (node & s1 & Hrun1 & Hrun).
    injection Hrun1 as <- <-. cbn [children set_el props set_children] in Hrun.
    apply bind_ok in Hrun as (cs & s2 & Hrun2 & Hrun).
    apply bind_ok in Hrun as ([] & s3 & Hrun3 & Hrun).
    apply bind_ok in Hrun as ([] & s4 & Hrun4 & Hrun). injection Hrun as _ <-.
    match type of Hrun2 with _ ?s1 = _ => set (s1' := s1) in * end.
    assert (H1 : keeps_below b s s1') by (by apply keeps_below_same).
    assert (H2 : keeps_below b s1' s2).
    { destruct (children v) as [|text|l].
      - injection Hrun2 as _ <-. apply keeps_below_refl.
      - apply bind_ok in Hrun2 as ([] & s2' & Hrun2 & Hret). injection Hret as _ <-.
        by eapply setElementText_keeps.
      - apply bind_ok in Hrun2 as (l' & s2' & Hrun2 & Hret). injection Hret as _ <-.
        eapply mount_children_keeps; [|exact Hv| |exact Hrun2].
        + intros. by eapply IH.
        + simpl. lia. }
    assert (H3 : keeps_below b s2 s3).
    { apply keeps_below_same. destruct (props v).
      - by eapply patchProps_parentNode.
      - by injection Hrun3 as <-. }
    assert (H4 : keeps_below b s3 s4) by (by eapply insert_keeps).
    eapply keeps_below_trans; [exact H1|]. eapply keeps_below_trans; [exact H2|].
    eapply keeps_below_trans; [exact H3|exact H4].
  - apply bind_ok in Hrun as (node & s1 & Hrun1 & Hrun).
    injection Hrun1 as <- <-.
    apply bind_ok in Hrun as ([] & s2 & Hrun2 & Hrun). injection Hrun as _ <-.
    eapply keeps_below_trans; [|by eapply insert_keeps].
    by apply keeps_below_same.
  - destruct (children v) as [|text|l] eqn:Hch; try done.
    cbn [children_array bind ret] in Hrun.
    apply bind_ok in Hrun as (l' & s2 & Hrun2 & Hrun). injection Hrun as _ <-.
    eapply mount_children_keeps; [|exact Hv|done|exact Hrun2].
    intros. by eapply IH.
Qed.

Lemma mount_children_under (d : nat) (target : handle) (a : option handle) : ∀ l s,
  forallb (λ ch, plain d ch && single ch) l = true → target < next_handle s →
  ∃ l' s', mapM (λ ch, patch d None ch (Some target) a) l s = (Ok l', s') ∧
           extends s s' ∧
           Forall2 (mounted_under (next_handle s) target s') l' l.
Proof.
  induction l as [|v l IHl]; intros s Hl Ht.
  - exists [], s. split_and!; [done|apply extends_refl|constructor].
  - simpl in Hl. apply andb_true_iff in Hl as [Hv Hl].
    apply andb_true_iff in Hv as [Hv Hs].
    destruct (mount_plain d v target a s Hv) as (v' & s1 & Hrun & Hext & Hel).
    destruct (Hel Hs) as (Hel' & Hlt & Hpar).
    destruct (IHl s1 Hl) as (l' & s2 & Hrun' & Hext' & Hall); [lia|].
    exists (v' :: l'), s2. split_and!.
    + simpl. by rewrite (bind_run _ _ _ _ _ Hrun), (bind_run _ _ _ _ _ Hrun').
    + by eapply extends_trans.
    + constructor.
      * split; [by eapply patch_same_node|].
        exists (next_handle s). split_and!; [done|lia|].
        assert (Hkeep : keeps_below (next_handle s1) s1 s2).
        { eapply mount_children_keeps; [| |done|exact Hrun'].
          - intros. by eapply mount_plain_keeps.
          - clear -Hl. induction l as [|x l IH]; [done|]. simpl in *.
            apply andb_true_iff in Hl as [Hx Hl]. apply andb_true_iff in Hx as [Hx _].
            by rewrite Hx, IH. }
        apply Hkeep; [done|lia|done].
      * eapply Forall2_impl; [exact Hall|].
        intros ch' ch (Hsame & h & Hh & Hle & Hp). split; [done|].
        exists h. split_and!; [done|lia|done].
Qed.



(** X26: Rendering an element or a text into a container that shows nothing, and
    then rendering [null] into it, returns both times; the second call removes
    from the container the node the first created for the root of the tree,
    and nothing else, and the container shows nothing again. *)
Theorem render_then_unmount (d fuel : nat) (v : vnode) (c : handle) (s : state) :
  plain d v = true → single v = true → root_vnode s !! c = None →
  ∃ s1 s2,
    render d (Some v) c s = (Ok tt, s1) ∧
    render (S fuel) None c s1 = (Ok tt, s2) ∧
    parentNode s1 !! next_handle s = Some c ∧
    parentNode s2 = delete (next_handle s) (parentNode s1) ∧
    root_vnode s2 = root_vnode s ∧
    ∃ evs, log s1 = log s ++ evs ∧ forallb builds evs = true ∧
           log s2 = log s1 ++ [RemoveChild c (next_handle s)].
Proof.
  intros Hv Hsingle Hroot.
  destruct (mount_plain d v c None s Hv) as (v' & s' & Hrun & Hext & Hel).
  destruct (Hel Hsingle) as (Hel' & _ & Hpar).
  assert (Hty : type v' = type v) by (by eapply patch_same_node).
  destruct Hext as (Hn & (evs & Hlog & Hb) & Hi & Hc & Hh & Hr).
  eexists _, _. split_and!.
  - unfold Renderer.render, get, bind at 1. rewrite Hroot.
    rewrite (bind_run _ _ _ _ _ Hrun). reflexivity.
  - unfold Renderer.render, get, bind at 1. cbn [root_vnode set_root_vnode modify].
    rewrite lookup_insert_eq. simpl. unfold unmount_step. rewrite Hty, Hel'.
    unfold single in Hsingle.
    assert (Hremove :
      (let! s0 := get in
       match parentNode s0 !! next_handle s with
       | Some parent => removeChild parent (next_handle s)
       | None => ret tt
       end) (set_root_vnode (<[c:=v']> (root_vnode s')) s')
      = removeChild c (next_handle s) (set_root_vnode (<[c:=v']> (root_vnode s')) s')).
    { unfold get, bind at 1. simpl. by rewrite Hpar. }
    destruct (type v); try done.
    + rewrite (bind_run _ _ _ tt _ Hremove). reflexivity.
    + rewrite (bind_run _ _ _ tt _ Hremove). reflexivity.
  - done.
  - done.
  - simpl. rewrite Hr. by rewrite delete_insert_eq, delete_id.
  - exists evs. simpl. done.
Qed.

End Mount.


Lemma render_then_unmount_witness :
  ∃ s1 s2,
    render no_lis false no_document no_components 2 (Some abc) 0 page = (Ok tt, s1) ∧
    render no_lis false no_document no_components 1 None 0 s1 = (Ok tt, s2) ∧
    parentNode s1 !! next_handle page = Some 0 ∧
    parentNode s2 = delete (next_handle page) (parentNode s1) ∧
    root_vnode s2 = root_vnode page ∧
    ∃ evs, log s1 = log page ++ evs ∧ forallb builds evs = true ∧
           log s2 = log s1 ++ [RemoveChild 0 (next_handle page)].
Proof.
  apply (render_then_unmount no_lis false no_document no_components 2 0 abc 0 page).
  - reflexivity.
  - reflexivity.
  - reflexivity.
Defined.


End MountFacts.
(** ** The keyed diff and the array it is given *)

Module KeyedMoreFacts.
Import Renderer RendererFacts Trees.

Lemma same_node_trans (a b c : vnode) : same_node a b → same_node b c → same_node a c.
Proof. unfold same_node. intros (? & ? & ?) (? & ? & ?). split_and!; congruence. Qed.

Lemma same_nodes_refl (l : list vnode) : same_nodes l l.
Proof. unfold same_nodes. induction l; constructor; done. Qed.

Lemma array_set_same_nodes (cur news : list vnode) (i : Z) (n v : vnode) :
  same_nodes cur news → index cur i = Some n → same_node v n →
  same_nodes (array_set cur i v) news.
Proof.
  unfold same_nodes. intros Hall Hi Hv. apply index_Some in Hi as [Hpos Hi].
  unfold array_set. destruct (Z.ltb_spec i 0); [lia|].
  destruct (Forall2_lookup_l _ _ _ _ _ Hall Hi) as (y & Hy & Hny).
  rewrite <- (list_insert_id news (Z.to_nat i) y Hy).
  apply Forall2_insert; [done|]. by eapply same_node_trans.
Qed.

Section Preservation.
Context (lis : list Z → list Z) (strict : bool).
Context (P : option vnode → vnode → option handle → option handle → M state vnode).
Context (U : vnode → M state unit).
Context (oldChildren : list vnode) (container : option handle).
Context (news : list vnode).

Hypothesis P_same_node : ∀ n1 n2 c a s v s',
  P n1 n2 c a s = (Ok v, s') → same_node v n2.

Lemma prefix_loop_same_nodes (olds : list vnode) : ∀ (j : Z) (cur : list vnode) s j' cur' s',
  same_nodes cur news →
  prefix_loop P container olds j cur s = (Ok (j', cur'), s') →
  same_nodes cur' news.
Proof.
  induction olds as [|o olds IH]; intros j cur s j' cur' s' Hcur Hrun; [done|].
  simpl in Hrun. destruct (index cur j) as [n|] eqn:Hn; [|done].
  destruct (strict_eq (key o) (key n)).
  - inv_run. eapply IH; [|exact Hrun].
    eapply array_set_same_nodes; [done|exact Hn|]. by eapply P_same_node.
  - by inv_run.
Qed.

Lemma suffix_loop_same_nodes (rolds : list vnode) :
  ∀ (oldEnd newEnd : Z) (cur : list vnode) s oldEnd' newEnd' cur' s',
  same_nodes cur news →
  suffix_loop P container rolds oldEnd newEnd cur s = (Ok (oldEnd', newEnd', cur'), s') →
  same_nodes cur' news.
Proof.
  induction rolds as [|o rolds IH]; intros oldEnd newEnd cur s oldEnd' newEnd' cur' s' Hcur Hrun;
    [done|].
  simpl in Hrun. destruct (index cur newEnd) as [n|] eqn:Hn; [|done].
  destruct (strict_eq (key o) (key n)).
  - inv_run. eapply IH; [|exact Hrun].
    eapply array_set_same_nodes; [done|exact Hn|]. by eapply P_same_node.
  - unfold ret in Hrun. by simplify_eq.
Qed.

Lemma mount_loop_same_nodes (count : nat) : ∀ (j : Z) anchor (cur : list vnode) s cur' s',
  same_nodes cur news →
  mount_loop P container count j anchor cur s = (Ok cur', s') →
  same_nodes cur' news.
Proof.
  induction count as [|count IH]; intros j anchor cur s cur' s' Hcur Hrun.
  - simpl in Hrun. unfold ret in Hrun. by simplify_eq.
  - simpl in Hrun. destruct (index cur j) as [n|] eqn:Hn; [|done].
    inv_run. eapply IH; [|exact Hrun].
    eapply array_set_same_nodes; [done|exact Hn|]. by eapply P_same_node.
Qed.

Lemma old_walk_same_nodes keyIndex newStart (count : nat) : ∀ (i : Z) (w w' : walk) s s',
  same_nodes (w_newChildren w) news →
  old_walk P U oldChildren container keyIndex newStart count i w s = (Ok w', s') →
  same_nodes (w_newChildren w') news.
Proof.
  induction count as [|count IH]; intros i w w' s s' Hcur Hrun.
  - simpl in Hrun. unfold ret in Hrun. by simplify_eq.
  - simpl in Hrun. destruct (index oldChildren i) as [o|]; [|done].
    destruct (assoc_lookup keyIndex (to_property_key (key o))) as [k|].
    + destruct (index (w_newChildren w) k) as [n|] eqn:Hn; [|done].
      inv_run. eapply IH; [|exact Hrun]. simpl.
      eapply array_set_same_nodes; [done|exact Hn|]. by eapply P_same_node.
    + destruct (inherited _); [done|]. inv_run. by eapply IH.
Qed.

Lemma move_loop_same_nodes source seq newStart (count : nat) : ∀ (i : Z) (cur cur' : list vnode) s s',
  same_nodes cur news →
  move_loop strict P container source seq newStart count i cur s = (Ok cur', s') →
  same_nodes cur' news.
Proof.
  induction count as [|count IH]; intros i cur cur' s s' Hcur Hrun.
  - simpl in Hrun. unfold ret in Hrun. by simplify_eq.
  - simpl in Hrun. case_bool_decide.
    + destruct (index cur (Z.of_nat count + newStart)) as [n|] eqn:Hn; [|done].
      inv_run. eapply IH; [|exact Hrun].
      eapply array_set_same_nodes; [done|exact Hn|]. by eapply P_same_node.
    + destruct (negb _).
      * destruct strict; [done|]. inv_run.
        destruct (index cur (Z.of_nat count + newStart)); [|done].
        inv_run. by eapply IH.
      * by eapply IH.
Qed.

Lemma patchKeyedChildren_same_nodes s news' s' :
  patchKeyedChildren lis strict P U oldChildren container news s = (Ok news', s') →
  same_nodes news' news.
Proof.
  unfold patchKeyedChildren, common_ends. intros Hrun. inv_run.
  destruct a as [[[j oldEnd] newEnd] cur]. destruct a0 as [j0 cur0].
  inv_run. destruct a as [[oldEnd1 newEnd1] cur1]. inv_run. subst.
  apply prefix_loop_same_nodes in Hrun1; [|apply same_nodes_refl].
  apply suffix_loop_same_nodes in Hrun2; [|done].
  unfold diff_window in Hrun.
  destruct (_ && _).
  { inv_run. by eapply mount_loop_same_nodes. }
  destruct (_ && _).
  { by inv_run. }
  destruct (_ <? 0)%Z; [done|].
  apply bind_ok in Hrun as (keyIndex & s3 & _ & Hrun).
  apply bind_ok in Hrun as (w & s4 & Hwalk & Hrun).
  apply old_walk_same_nodes in Hwalk; [|done].
  destruct (w_moved w).
  - by eapply move_loop_same_nodes.
  - unfold ret in Hrun. by simplify_eq.
Qed.

End Preservation.

Section KeyedDiffClaims.
Context (lis : list Z → list Z) (strict : bool) (querySelector : string → option handle).
Context (mountComponent : vnode → option handle → option handle → M state nat).

Local Abbreviation patch := (patch lis strict querySelector mountComponent).

(** X27: When the keyed diff returns, the array of new children has the length it
    had and holds at every index the vnode that was there, with its type, key
    and props: the diff patches the new children in place and never reorders,
    drops or replaces one. *)
Theorem patchKeyedChildren_keeps_the_new_children (fuel : nat) (olds news : list vnode)
    (container : option handle) (s s' : state) (news' : list vnode) :
  patchKeyedChildren lis strict (patch fuel) (unmount fuel) olds container news s
    = (Ok news', s') →
  length news' = length news ∧
  ∀ i n, news !! i = Some n → ∃ n', news' !! i = Some n' ∧ same_node n' n.
Proof.
  intros Hrun. apply patchKeyedChildren_same_nodes in Hrun.
  2: { intros. by eapply patch_same_node. }
  split; [by eapply Forall2_length|].
  intros i n Hn. destruct (Forall2_lookup_r _ _ _ _ _ Hrun Hn) as (n' & ? & ?). eauto.
Qed.

End KeyedDiffClaims.

Lemma patchKeyedChildren_keeps_the_new_children_witness :
  ∃ news' s',
    patchKeyedChildren no_lis false
      (patch no_lis false no_document no_components 3) (unmount 3)
      [set_el (Some 1) (li 1 "a"); set_el (Some 2) (li 2 "b"); set_el (Some 3) (li 3 "c")]
      (Some 0) [li 1 "a"; li 7 "x"; li 3 "c"] page = (Ok news', s') ∧
    length news' = length [li 1 "a"; li 7 "x"; li 3 "c"] ∧
    ∀ i n, [li 1 "a"; li 7 "x"; li 3 "c"] !! i = Some n →
           ∃ n', news' !! i = Some n' ∧ same_node n' n.
Proof.
  eexists _, _. split; [vm_compute; reflexivity|].
  eapply (patchKeyedChildren_keeps_the_new_children no_lis false no_document no_components 3
           [set_el (Some 1) (li 1 "a"); set_el (Some 2) (li 2 "b"); set_el (Some 3) (li 3 "c")]
           [li 1 "a"; li 7 "x"; li 3 "c"] (Some 0) page).
  vm_compute. reflexivity.
Defined.

End KeyedMoreFacts.
(** ** [deepClone] *)

Module DeepCloneFacts.
Import RendererFacts DeepClone.

Lemma field_lookup_NoDup (l : list (string * val)) k v :
  NoDup l.*1 → (k, v) ∈ l → field_lookup l k = Some v.
Proof.
  induction l as [|[k' v'] l IH]; simpl; intros Hnd Hin; [by apply elem_of_nil in Hin|].
  apply NoDup_cons in Hnd as [Hk' Hnd]. apply elem_of_cons in Hin as [[= <- <-]|Hin].
  - by rewrite bool_decide_eq_true_2.
  - rewrite bool_decide_eq_false_2; [by apply IH|].
    intros ->. apply Hk'. apply list_elem_of_fmap. by exists (k, v).
Qed.

Lemma field_set_fresh (l : list (string * val)) k v :
  k ∉ l.*1 → field_set l k v = l ++ [(k, v)].
Proof.
  induction l as [|[k' v'] l IH]; simpl; intros Hk; [done|].
  apply not_elem_of_cons in Hk as [Hne Hk].
  rewrite bool_decide_eq_false_2 by done. by rewrite IH.
Qed.

Lemma renamed_mono m m' v v' : m ⊆ m' → renamed m v v' → renamed m' v v'.
Proof.
  intros Hm. destruct v, v'; simpl; try done. intros H. by eapply lookup_weaken.
Qed.

Lemma fields_renamed_mono m m' l l' :
  m ⊆ m' → Forall2 (field_renamed m) l l' → Forall2 (field_renamed m') l l'.
Proof.
  intros Hm H. eapply Forall2_impl; [exact H|]. intros f f' [? ?]. split; [done|].
  by eapply renamed_mono.
Qed.

Lemma cloned_mono m m' o o' : m ⊆ m' → cloned m o o' → cloned m' o o'.
Proof. intros Hm [? ?]. split; [done|]. by eapply fields_renamed_mono. Qed.

Lemma fields_renamed_keys m l l' : Forall2 (field_renamed m) l l' → l'.*1 = l.*1.
Proof.
  induction 1 as [|f f' l l' [Hf _] _ IH]; [done|].
  rewrite !fmap_cons. by rewrite Hf, IH.
Qed.

(** An assignment under a name other than [__proto__] sets or creates an own
    property. *)
Lemma write_own (r : nat) (key : string) (v : val) (st : store) :
  key ≠ "__proto__"%string →
  write r key v st =
    (Ok tt, Store (alter (λ o, Obj (proto o) (field_set (fields o) key v)) r (objects st))
                  (next st) (weakMap st)).
Proof.
  intros Hk. unfold write, calls_setter. destruct (objects st !! r); [|done].
  by rewrite bool_decide_eq_false_2.
Qed.

Section Graph.
Context (h : gmap nat object) (n : nat).
Hypothesis h_closed : closed h = true.
Hypothesis h_keys : well_keyed h = true.
Hypothesis h_below : below n h = true.
Hypothesis h_plain : plain_keys h = true.

Lemma closed_spec a o k x :
  h !! a = Some o → (k, Object x) ∈ fields o → is_Some (h !! x).
Proof.
  intros Ha Hin. pose proof h_closed as Hc. unfold closed in Hc.
  rewrite forallb_forall in Hc.
  specialize (Hc (a, o)). rewrite forallb_forall in Hc.
  assert (Hr : refers_inside h (k, Object x).2 = true).
  { apply Hc; [|by apply list_elem_of_In].
    apply list_elem_of_In. by apply elem_of_map_to_list. }
  simpl in Hr. by apply bool_decide_eq_true in Hr.
Qed.

Lemma well_keyed_spec a o : h !! a = Some o → NoDup (fields o).*1.
Proof.
  intros Ha. pose proof h_keys as Hk. unfold well_keyed in Hk.
  rewrite forallb_forall in Hk. specialize (Hk (a, o)). simpl in Hk.
  eapply bool_decide_eq_true_1. apply Hk.
  apply list_elem_of_In. by apply elem_of_map_to_list.
Qed.

Lemma plain_keys_spec a o : h !! a = Some o → "__proto__"%string ∉ (fields o).*1.
Proof.
  intros Ha. pose proof h_plain as Hk. unfold plain_keys in Hk.
  rewrite forallb_forall in Hk. specialize (Hk (a, o)). simpl in Hk.
  apply negb_true_iff, bool_decide_eq_false in Hk; [done|].
  apply list_elem_of_In. by apply elem_of_map_to_list.
Qed.

Lemma below_spec a : is_Some (h !! a) → a < n.
Proof.
  intros [o Ha]. pose proof h_below as Hb. unfold below in Hb.
  rewrite forallb_forall in Hb. specialize (Hb (a, o)). simpl in Hb.
  apply Nat.ltb_lt. apply Hb.
  apply list_elem_of_In. by apply elem_of_map_to_list.
Qed.

Lemma visited_bound st : inv h n st → size (weakMap st) ≤ size h.
Proof.
  intros (_ & _ & H3 & _).
  rewrite <- (size_dom (D := gset nat) (weakMap st)), <- (size_dom (D := gset nat) h).
  apply subseteq_size. intros a [b Hb]%elem_of_dom. apply elem_of_dom.
  by apply H3 in Hb as [? _].
Qed.

Lemma frame_refl st : frame st st.
Proof. by split_and!. Qed.

Lemma frame_trans st1 st2 st3 : frame st1 st2 → frame st2 st3 → frame st1 st3.
Proof.
  intros (Hm1 & Hn1 & Ho1) (Hm2 & Hn2 & Ho2). split_and!.
  - by trans (weakMap st2).
  - lia.
  - intros b Hb. rewrite Ho2 by lia. by apply Ho1.
Qed.

(** The loop over the keys of the object at [a], whose copy is at [r]:
    [done] are the properties copied so far. *)
Lemma copy_fields (fuel : nat) (a r : nat) (o : object) (st0 : store) :
  (∀ v st, inv h n st → (∀ x, v = Object x → is_Some (h !! x)) →
           size h < fuel + size (weakMap st) →
           ∃ c st', deepClone fuel v st = (Ok c, st') ∧ inv h n st' ∧ frame st st' ∧
                    renamed (weakMap st') v c ∧ fresh_clones h st st') →
  h !! a = Some o → r = next st0 → weakMap st0 !! a = None →
  size h < S fuel + size (weakMap st0) →
  ∀ (rest done done' : list (string * val)) (st : store),
    fields o = done ++ rest →
    inv h n st → frame st0 st → next st0 < next st → weakMap st !! a = Some r →
    objects st !! r = Some (Obj (proto o) done') →
    Forall2 (field_renamed (weakMap st)) done done' →
    (∀ a' b, weakMap st !! a' = Some b → weakMap st0 !! a' = None → a' ≠ a →
             next st0 < b ∧
             ∃ o1 o1', h !! a' = Some o1 ∧ objects st !! b = Some o1' ∧
                       cloned (weakMap st) o1 o1') →
    ∃ st' all',
      forEach (copy_field (deepClone fuel) a r) rest.*1 st = (Ok tt, st') ∧
      inv h n st' ∧ frame st0 st' ∧ next st0 < next st' ∧ weakMap st' !! a = Some r ∧
      objects st' !! r = Some (Obj (proto o) all') ∧
      Forall2 (field_renamed (weakMap st')) (fields o) all' ∧
      (∀ a' b, weakMap st' !! a' = Some b → weakMap st0 !! a' = None → a' ≠ a →
               next st0 < b ∧
               ∃ o1 o1', h !! a' = Some o1 ∧ objects st' !! b = Some o1' ∧
                         cloned (weakMap st') o1 o1').
Proof.
  intros IH Ha Hr Hmiss Hfuel.
  induction rest as [|[k v] rest IHrest]; intros done done' st Hfields Hinv Hframe Hnext Hwa Hobj Hdone Hothers.
  - rewrite app_nil_r in Hfields. subst done. exists st, done'. by split_and!.
  - simpl.
    assert (Hin : (k, v) ∈ fields o).
    { rewrite Hfields. apply elem_of_app. right. by left. }
    assert (Hnd : NoDup (fields o).*1) by (by eapply well_keyed_spec).
    assert (Hk : k ∉ done'.*1).
    { rewrite (fields_renamed_keys _ _ _ Hdone).
      rewrite Hfields, fmap_app in Hnd. apply NoDup_app in Hnd as (_ & Hnd & _).
      intros Hk. apply (Hnd k Hk). simpl. by left. }
    (* the read *)
    assert (Hread : read a k st = (Ok v, st)).
    { unfold read. destruct Hinv as (H1 & _). rewrite (H1 a o Ha).
      by rewrite (field_lookup_NoDup _ k v Hnd Hin). }
    (* the nested call *)
    destruct Hframe as (Hm0 & Hn0 & Ho0).
    assert (Hsize : S (size (weakMap st0)) ≤ size (weakMap st)).
    { assert (size (<[a:=r]> (weakMap st0)) = S (size (weakMap st0))) as <-
        by (by apply map_size_insert_None).
      apply map_subseteq_size. apply insert_subseteq_l; done. }
    destruct (IH v st) as (c & st1 & Hrun & Hinv1 & Hframe1 & Hren & Hfresh); [done| |lia|].
    { intros x ->. by eapply closed_spec. }
    destruct Hframe1 as (Hm1 & Hn1 & Ho1).
    (* the write *)
    set (st2 := Store (alter (λ o, Obj (proto o) (field_set (fields o) k c)) r (objects st1))
                      (next st1) (weakMap st1)).
    assert (Hkp : k ≠ "__proto__"%string).
    { intros ->. apply (plain_keys_spec a o Ha). apply list_elem_of_fmap. by exists ("__proto__"%string, v). }
    assert (Hcopy : copy_field (deepClone fuel) a r k st = (Ok tt, st2)).
    { unfold copy_field. rewrite (bind_run _ _ _ _ _ Hread), (bind_run _ _ _ _ _ Hrun).
      by apply write_own. }
    rewrite (bind_run _ _ _ _ _ Hcopy).
    assert (Hr1 : objects st1 !! r = Some (Obj (proto o) done')).
    { rewrite Ho1; [done|lia]. }
    assert (Hobj2 : objects st2 !! r = Some (Obj (proto o) (done' ++ [(k, c)]))).
    { unfold st2; simpl. rewrite lookup_alter_eq, Hr1. simpl. by rewrite field_set_fresh. }
    assert (Hother2 : ∀ b, b ≠ r → objects st2 !! b = objects st1 !! b).
    { intros b Hb. unfold st2; simpl. by rewrite lookup_alter_ne. }
    destruct Hinv1 as (I1 & I2 & I3 & I4).
    assert (Hrn : n ≤ r).
    { destruct Hinv as (_ & _ & H3 & _). apply H3 in Hwa. lia. }
    apply (IHrest (done ++ [(k, v)]) (done' ++ [(k, c)]) st2).
    + by rewrite <- app_assoc.
    + split_and!; try done.
      intros a' o' Ha'. rewrite Hother2; [by apply I1|].
      assert (a' < n) by (apply below_spec; eauto). lia.
    + split_and!.
      * by trans (weakMap st).
      * simpl. lia.
      * intros b Hb. rewrite Hother2 by lia. rewrite Ho1 by lia. by apply Ho0.
    + simpl. lia.
    + simpl. by eapply lookup_weaken.
    + done.
    + apply Forall2_app.
      * by eapply fields_renamed_mono.
      * constructor; [|constructor]. by split.
    + intros a' b Hb Hmiss' Hne. simpl in Hb.
      destruct (weakMap st !! a') as [b'|] eqn:Hb'.
      * assert (b' = b) as ->.
        { pose proof (lookup_weaken _ _ _ _ Hb' Hm1). congruence. }
        destruct (Hothers a' b Hb' Hmiss' Hne) as (Hlt & o1 & o1' & Ho & Hob & Hcl).
        split; [done|]. exists o1, o1'. split_and!; [done| |by eapply cloned_mono].
        rewrite Hother2 by lia. rewrite Ho1; [done|].
        destruct Hinv as (_ & _ & H3 & _). apply H3 in Hb'. lia.
      * destruct (Hfresh a' b Hb Hb') as (Hle & o1 & o1' & Ho & Hob & Hcl).
        split; [lia|]. exists o1, o1'. split_and!; [done| |done].
        rewrite Hother2 by lia. done.
Qed.

Lemma deepClone_spec (fuel : nat) : ∀ (v : val) (st : store),
  inv h n st → (∀ x, v = Object x → is_Some (h !! x)) →
  size h < fuel + size (weakMap st) →
  ∃ c st', deepClone fuel v st = (Ok c, st') ∧ inv h n st' ∧ frame st st' ∧
           renamed (weakMap st') v c ∧ fresh_clones h st st'.
Proof.
  induction fuel as [|fuel IH]; intros v st Hinv Hv Hfuel.
  { apply visited_bound in Hinv. lia. }
  simpl. destruct v as [p|a].
  - exists (Other p), st. split_and!; [done|done|apply frame_refl|done|].
    intros a b Hb Hb'. congruence.
  - unfold get, bind at 1. destruct (weakMap st !! a) as [r|] eqn:Hhit.
    + exists (Object r), st. split_and!; [done|done|apply frame_refl|done|].
      intros a' b Hb Hb'. congruence.
    + destruct (Hv a eq_refl) as [o Ho].
      pose proof Hinv as (I1 & I2 & I3 & I4). rewrite (I1 a o Ho).
      unfold create at 1, bind at 1. unfold weakMap_set at 1, modify at 1, bind at 1.
      set (st1 := Store _ _ _).
      assert (Hinv1 : inv h n st1).
      { unfold st1. split_and!; simpl.
        - intros a' o' Ha'. rewrite lookup_insert_ne; [by apply I1|].
          assert (a' < n) by (apply below_spec; eauto). lia.
        - lia.
        - intros a' b. destruct (decide (a = a')) as [<-|Hne].
          + rewrite lookup_insert_eq. intros [= <-]. split; [eauto|lia].
          + rewrite lookup_insert_ne by done. intros Hb. apply I3 in Hb as [? ?].
            split; [done|lia].
        - intros a1 a2 b. destruct (decide (a = a1)) as [<-|Hne1];
            destruct (decide (a = a2)) as [<-|Hne2]; try done.
          + rewrite lookup_insert_eq, lookup_insert_ne by done.
            intros [= <-] Hb. apply I3 in Hb. lia.
          + rewrite lookup_insert_eq, lookup_insert_ne by done.
            intros Hb [= <-]. apply I3 in Hb. lia.
          + rewrite !lookup_insert_ne by done. apply I4. }
      destruct (copy_fields fuel a (next st) o st IH Ho eq_refl Hhit Hfuel
                  (fields o) [] [] st1)
        as (st' & all' & Hrun & Hinv' & Hframe' & Hnext' & Hwa' & Hobj' & Hall' & Hothers').
      * done.
      * done.
      * unfold st1. split_and!; simpl.
        -- by apply insert_subseteq.
        -- lia.
        -- intros b Hb. rewrite lookup_insert_ne; [done|lia].
      * simpl. lia.
      * simpl. by rewrite lookup_insert_eq.
      * simpl. by rewrite lookup_insert_eq.
      * constructor.
      * intros a' b Hb Hmiss Hne. simpl in Hb.
        rewrite lookup_insert_ne in Hb by done. congruence.
      * rewrite (bind_run _ _ _ _ _ Hrun).
        exists (Object (next st)), st'. split_and!; try done.
        intros a' b Hb Hmiss. destruct (decide (a' = a)) as [->|Hne].
        -- assert (b = next st) as -> by congruence.
           split; [done|]. exists o, (Obj (proto o) all'). by split_and!.
        -- destruct (Hothers' a' b Hb Hmiss Hne) as (Hlt & o1 & o1' & ? & ? & ?).
           split; [lia|]. eauto.
Qed.

End Graph.



(** The copy of an object that refers to itself refers to itself, not to the
    original. *)
Example clone_of_a_knot :
  deepClone 2 (Object 0) (Store knot 1 ∅) =
  (Ok (Object 1),
   Store {[ 0 := Obj ObjectPrototype [("self", Object 0); ("count", Other (VNum 1))];
            1 := Obj ObjectPrototype [("self", Object 1); ("count", Other (VNum 1))] ]}
         2 {[ 0 := 1 ]}).
Proof. vm_compute. reflexivity. Qed.

(** An own property [__proto__] is copied as such when the copy inherits no
    setter for it.  When it does, the assignment goes to the setter: the copy
    of a plain object that owns [__proto__] with the value [null] owns no such
    property, and has lost its prototype. *)
Example clone_of_an_own___proto__ :
  deepClone 2 (Object 0) (Store bare 1 ∅) =
    (Ok (Object 1),
     Store {[ 0 := Obj Null [("__proto__", Other VNull)];
              1 := Obj Null [("__proto__", Other VNull)] ]} 2 {[ 0 := 1 ]}) ∧
  deepClone 2 (Object 0) (Store shadowing 1 ∅) =
    (Ok (Object 1),
     Store {[ 0 := Obj ObjectPrototype [("__proto__", Other VNull); ("x", Other (VNum 1))];
              1 := Obj Null [("x", Other (VNum 1))] ]} 2 {[ 0 := 1 ]}).
Proof. split; vm_compute; reflexivity. Qed.

End DeepCloneFacts.
